(** * Amrita humanoid robot: the question-answering server

    A shallow embedding of the retrieval, prompt, post-processing and
    request-handling code of [server/server.py] and
    [server/server_faiss_semantic.py], and of what [client/client.py] and
    [client/pi_client_with_audio.py] exchange with them, with the properties
    the design document states about them and further properties of the
    code.

    Python [str] values are sequences of Unicode code points, integers are
    [Z], byte strings are lists of [byte].  External libraries (Whisper, the
    sentence encoder, FAISS, Ollama, transformers, the speech back ends)
    enter as oracles that either return a value or raise. *)

From Stdlib Require Import String Ascii.
From Stdlib Require Import ZArith NArith List Bool Lia.
From Stdlib Require Import DecimalString.
From Stdlib.Strings Require Import Byte.
Import ListNotations.

Open Scope N_scope.

(** ** Strings *)

Definition char := N.
Definition str := list char.

Definition ch (a : ascii) : char := N_of_ascii a.

(** An ASCII literal of the source, as code points. *)
Definition lit (s : string) : str := map ch (list_ascii_of_string s).

Definition len (s : str) : Z := Z.of_nat (length s).

(** [str.isspace] for one code point; the class [\s] of [re] on [str]
    patterns is the same set. *)
Definition is_space (c : char) : bool :=
  ((9 <=? c) && (c <=? 13)) || ((28 <=? c) && (c <=? 32))
  || (c =? 133) || (c =? 160) || (c =? 5760)
  || ((8192 <=? c) && (c <=? 8202))
  || (c =? 8232) || (c =? 8233) || (c =? 8239) || (c =? 8287) || (c =? 12288).

(** [s.lstrip()], [s.rstrip()] and [s.strip()] without argument. *)
Fixpoint lstrip (s : str) : str :=
  match s with
  | [] => []
  | x :: t => if is_space x then lstrip t else s
  end.

Fixpoint rstrip (s : str) : str :=
  match s with
  | [] => []
  | x :: t =>
      match rstrip t with
      | [] => if is_space x then [] else [x]
      | t' => x :: t'
      end
  end.

Definition strip (s : str) : str := rstrip (lstrip s).

(** [needle in hay]. *)
Fixpoint starts_with (needle hay : str) : bool :=
  match needle, hay with
  | [], _ => true
  | _ :: _, [] => false
  | a :: n', b :: h' => (a =? b) && starts_with n' h'
  end.

Fixpoint contains (needle hay : str) : bool :=
  starts_with needle hay ||
  match hay with
  | [] => false
  | _ :: h' => contains needle h'
  end.

(** [s.replace(old, new)] for a non-empty needle [old]: the occurrences
    from left to right, without overlap.  [skip] counts the characters of
    the current occurrence still to pass over. *)
Fixpoint replace_go (old new : str) (s : str) (skip : nat) : str :=
  match s with
  | [] => []
  | x :: t =>
      match skip with
      | S n => replace_go old new t n
      | O =>
          if starts_with old s
          then new ++ replace_go old new t (length old - 1)
          else x :: replace_go old new t 0
      end
  end.

Definition replace (old new : str) (s : str) : str := replace_go old new s 0.

(** [sep.join(parts)]. *)
Fixpoint join (sep : str) (parts : list str) : str :=
  match parts with
  | [] => []
  | [p] => p
  | p :: ps => p ++ sep ++ join sep ps
  end.

(** ** The regular expressions of [clean_response_text]

    The constructs the source patterns use: literals (plain or under
    [re.IGNORECASE]), character classes, greedy [{n,}] repetition of a
    class, greedy [?], concatenation and the word boundary. *)

Definition cls := char -> bool.

Inductive regex : Type :=
| Eps
| Lit (c : char)
| LitI (c : char)
| Set_ (p : cls)
| Rep (min : nat) (p : cls)
| Opt (r : regex)
| Seq (r1 r2 : regex)
| WordB.

Fixpoint seqs (rs : list regex) : regex :=
  match rs with
  | [] => Eps
  | [r] => r
  | r :: rs' => Seq r (seqs rs')
  end.

Definition lits (s : string) : regex := seqs (map Lit (lit s)).
Definition lits_i (s : string) : regex := seqs (map LitI (lit s)).

(** The lower-casing [re] applies to a subject character under
    [re.IGNORECASE]: beside A-Z, two code points outside ASCII lower to an
    ASCII letter (U+0130 to [i], U+212A to [k]). *)
Definition sre_lower (x : char) : char :=
  if (65 <=? x) && (x <=? 90) then x + 32
  else if x =? 304 then 105
  else if x =? 8490 then 107
  else x.

(** A pattern character [p] of the ASCII range against a subject character
    [x] under [re.IGNORECASE]; [i] and [s] also match the dotless i
    (U+0131) and the long s (U+017F). *)
Definition ci_match (p x : char) : bool :=
  let lp := sre_lower p in
  let lx := sre_lower x in
  (lx =? lp) || ((lp =? 105) && (lx =? 305)) || ((lp =? 115) && (lx =? 383)).

Definition any_char : cls := fun _ => true.
Definition is_newline : cls := fun c => c =? 10.
Definition is_blank : cls := fun c => (c =? 32) || (c =? 9).
Definition is_sign : cls := fun c => (c =? 45) || (c =? 43).

(** The Unicode database of the Python runtime, for the code points
    outside ASCII: the decimal digits ([\d]), the alphanumerics ([\w],
    [\b]) and the lower-case mapping. *)
Class UnicodeData : Type := {
  uni_decimal : char -> bool;
  uni_alnum : char -> bool;
  (** What [str.lower] puts for a code point outside ASCII, given the
      characters before it (nearest first) and after it. *)
  uni_lower : str -> char -> str -> str
}.

Definition ascii_lower (c : char) : char :=
  if (65 <=? c) && (c <=? 90) then c + 32 else c.

(** [s.lower()] *)
Fixpoint lower_go `{UnicodeData} (before : str) (s : str) : str :=
  match s with
  | [] => []
  | c :: rest =>
      (if c <? 128 then [ascii_lower c] else uni_lower before c rest)
        ++ lower_go (c :: before) rest
  end.

Definition lower `{UnicodeData} (s : str) : str := lower_go [] s.

Section Unicode.

Context `{UnicodeData}.

Definition is_digit : cls := fun c =>
  if c <? 128 then (48 <=? c) && (c <=? 57) else uni_decimal c.

Definition is_word : cls := fun c =>
  if c <? 128
  then ((48 <=? c) && (c <=? 57)) || ((65 <=? c) && (c <=? 90))
       || ((97 <=? c) && (c <=? 122)) || (c =? 95)
  else uni_alnum c.

Definition word_before (prev : option char) : bool :=
  match prev with Some c => is_word c | None => false end.

Definition word_after (s : str) : bool :=
  match s with c :: _ => is_word c | [] => false end.

(** A match continues with the character before the position (for [\b])
    and the rest of the subject. *)
Definition cont := option char -> str -> option str.

Fixpoint rep_star (p : cls) (prev : option char) (s : str) (k : cont)
  : option str :=
  match s with
  | x :: s' =>
      if p x then
        match rep_star p (Some x) s' k with
        | Some e => Some e
        | None => k prev s
        end
      else k prev s
  | [] => k prev []
  end.

Fixpoint rep (n : nat) (p : cls) (prev : option char) (s : str) (k : cont)
  : option str :=
  match n with
  | O => rep_star p prev s k
  | S n' =>
      match s with
      | x :: s' => if p x then rep n' p (Some x) s' k else None
      | [] => None
      end
  end.

(** Backtracking match of [r] at the head of [s]; the first success in
    the order of the [re] module (greedy first) wins. *)
Fixpoint rmatch (r : regex) (prev : option char) (s : str) (k : cont)
  : option str :=
  match r with
  | Eps => k prev s
  | Lit c =>
      match s with
      | x :: s' => if x =? c then k (Some x) s' else None
      | [] => None
      end
  | LitI c =>
      match s with
      | x :: s' => if ci_match c x then k (Some x) s' else None
      | [] => None
      end
  | Set_ p =>
      match s with
      | x :: s' => if p x then k (Some x) s' else None
      | [] => None
      end
  | Rep n p => rep n p prev s k
  | Opt r1 =>
      match rmatch r1 prev s k with
      | Some e => Some e
      | None => k prev s
      end
  | Seq r1 r2 => rmatch r1 prev s (fun prev' s' => rmatch r2 prev' s' k)
  | WordB => if xorb (word_before prev) (word_after s) then k prev s else None
  end.

Definition accept : cont := fun _ rest => Some rest.

(** The rest of the subject after the match of [r] at the head of [s]. *)
Definition match_at (r : regex) (prev : option char) (s : str) : option str :=
  rmatch r prev s accept.

(** [re.sub(r, repl, s)] for a literal replacement: the left-to-right
    scan for non-overlapping matches.  [skip] counts the characters of
    the current match still to pass over. *)
Fixpoint sub_go (r : regex) (repl : str) (prev : option char) (s : str)
  (skip : nat) : str :=
  match s with
  | [] =>
      match skip, match_at r prev [] with
      | O, Some _ => repl
      | _, _ => []
      end
  | x :: s' =>
      match skip with
      | S n => sub_go r repl (Some x) s' n
      | O =>
          match match_at r prev s with
          | Some rest =>
              match (length s - length rest)%nat with
              | O => repl ++ x :: sub_go r repl (Some x) s' 0
              | S m => repl ++ sub_go r repl (Some x) s' m
              end
          | None => x :: sub_go r repl (Some x) s' 0
          end
      end
  end.

Definition re_sub (r : regex) (repl : str) (s : str) : str :=
  sub_go r repl None s 0.

(** [r"\[id=\s*\d+\s*\]"] *)
Definition pat_bracket_id : regex :=
  seqs [lits "[id="; Rep 0 is_space; Rep 1 is_digit; Rep 0 is_space; lits "]"].

(** [r"\(id=\s*\d+(?:\s*,\s*score\s*=\s*[-+]?\d*\.?\d+)?\s*\)"] with
    [re.IGNORECASE] *)
Definition pat_paren_id : regex :=
  seqs [lits_i "(id="; Rep 0 is_space; Rep 1 is_digit;
        Opt (seqs [Rep 0 is_space; lits_i ","; Rep 0 is_space;
                   lits_i "score"; Rep 0 is_space; lits_i "=";
                   Rep 0 is_space; Opt (Set_ is_sign); Rep 0 is_digit;
                   Opt (lits_i "."); Rep 1 is_digit]);
        Rep 0 is_space; lits_i ")"].

(** [r"\bid\s*=\s*\d+\b"] *)
Definition pat_bare_id : regex :=
  seqs [WordB; lits "id"; Rep 0 is_space; lits "="; Rep 0 is_space;
        Rep 1 is_digit; WordB].

(** [r"\[\s*\]"] and [r"\(\s*\)"] *)
Definition pat_empty_brackets : regex :=
  seqs [lits "["; Rep 0 is_space; lits "]"].
Definition pat_empty_parens : regex :=
  seqs [lits "("; Rep 0 is_space; lits ")"].

(** [r"\n{3,}"] and [r"[ \t]{2,}"] *)
Definition pat_newlines : regex := Rep 3 is_newline.
Definition pat_blanks : regex := Rep 2 is_blank.

(** [r"CONTEXT:.*USER QUERY:.*Answer:"] with [re.DOTALL | re.IGNORECASE] *)
Definition pat_context : regex :=
  seqs [lits_i "CONTEXT:"; Rep 0 any_char; lits_i "USER QUERY:";
        Rep 0 any_char; lits_i "Answer:"].

Definition clean_response_text (text : str) : str :=
  match text with
  | [] => text
  | _ =>
      let cleaned := text in
      let cleaned := re_sub pat_bracket_id (lit " ") cleaned in
      let cleaned := re_sub pat_paren_id (lit " ") cleaned in
      let cleaned := re_sub pat_bare_id (lit " ") cleaned in
      let cleaned := re_sub pat_empty_brackets (lit " ") cleaned in
      let cleaned := re_sub pat_empty_parens (lit " ") cleaned in
      let cleaned := replace (lit "*") (lit " ") cleaned in
      let cleaned := re_sub pat_newlines [10; 10] cleaned in
      let cleaned := re_sub pat_blanks (lit " ") cleaned in
      let cleaned := strip cleaned in
      let cleaned := strip (re_sub pat_context [] cleaned) in
      cleaned
  end.

End Unicode.


(** ** Numbers, bytes and text *)

Open Scope Z_scope.

(** [str(n)] and [f"{n}"] for an integer. *)
Definition str_of_int (n : Z) : str :=
  lit (NilZero.string_of_int (Z.to_int n)).

Fixpoint str_eqb (a b : str) : bool :=
  match a, b with
  | [], [] => true
  | x :: a', y :: b' => (x =? y)%N && str_eqb a' b'
  | _, _ => false
  end.

Definition is_empty {A : Type} (l : list A) : bool :=
  match l with [] => true | _ => false end.

(** [l[:k]] *)
Definition slice_to {A : Type} (k : Z) (l : list A) : list A :=
  if 0 <=? k then firstn (Z.to_nat k) l
  else firstn (length l - Z.to_nat (- k)) l.

Definition bytes := list byte.

Definition hex_digit (d : N) : char :=
  if (d <? 10)%N then (48 + d)%N else (87 + d)%N.

(** [b.hex()] *)
Definition hex (b : bytes) : str :=
  flat_map (fun x => let n := Byte.to_N x in
                     [hex_digit (n / 16)%N; hex_digit (n mod 16)%N]) b.

(** One little-endian signed 16-bit sample. *)
Definition int16_le (lo hi : byte) : Z :=
  let u := Z.of_N (Byte.to_N lo) + 256 * Z.of_N (Byte.to_N hi) in
  if u <? 32768 then u else u - 65536.

Fixpoint decode_int16 (b : bytes) : list Z :=
  match b with
  | lo :: hi :: rest => int16_le lo hi :: decode_int16 rest
  | _ => []
  end.

(** A column of the verse table: its name, whether its dtype is [object]
    or ["string"], and its cells as [str] renders them. *)
Record column : Type := {
  col_name : str;
  col_is_text : bool;
  col_values : list str
}.

Definition dataframe := list column.

(** ** Calls into the outside world

    A call of a library either returns or raises an [Exception]; the model
    records the calls a function makes, in order. *)

Definition exn := str.

Inductive outcome (A : Type) : Type :=
| Returned (a : A)
| Raised (e : exn).
Arguments Returned {A} a.
Arguments Raised {A} e.

(** [np.frombuffer(b, dtype=np.int16)] on a little-endian machine. *)
Definition frombuffer_int16 (b : bytes) : outcome (list Z) :=
  if Z.of_nat (length b) mod 2 =? 0 then Returned (decode_int16 b)
  else Raised (lit "buffer size must be a multiple of element size").

Inductive event : Type :=
| WhisperTranscribe (samples : list Z)
| Encode (text : str)
| IndexSearch (k : Z)
| OllamaChat (prompt : str)
| TransformersGenerate (prompt : str)
| PiperSynthesize (text : str)
| Pyttsx3Save (text : str)
| SapiSpeak (text : str)
| RandomChoice.

Definition M (A : Type) : Type := (list event * outcome A)%type.

Definition ret {A : Type} (a : A) : M A := ([], Returned a).

Definition raise {A : Type} (e : exn) : M A := ([], Raised e).

Definition call {A : Type} (ev : event) (o : outcome A) : M A := ([ev], o).

Definition bind {A B : Type} (m : M A) (f : A -> M B) : M B :=
  match m with
  | (t, Returned a) => let (t', r) := f a in (t ++ t', r)
  | (t, Raised e) => (t, Raised e)
  end.

(** [try: m  except Exception as e: h e] *)
Definition catch {A : Type} (m : M A) (h : exn -> M A) : M A :=
  match m with
  | (t, Raised e) => let (t', r) := h e in (t ++ t', r)
  | (t, Returned a) => (t, Returned a)
  end.

(** The text of the [AttributeError] for [None.name], and of the
    [TypeError] for [len(None)]. *)
Definition no_attribute (name : string) : exn :=
  lit "'NoneType' object has no attribute '" ++ lit name ++ lit "'".

Definition no_len : exn := lit "object of type 'NoneType' has no len()".

(** An access to a global that may still be [None], where Python raises
    the error with the text [message]. *)
Definition deref {A : Type} (message : exn) (o : option A) : M A :=
  match o with
  | Some a => ret a
  | None => raise message
  end.

Notation "x <- m ;; k" := (bind m (fun x => k))
  (at level 61, m at next level, right associativity).
Notation "' p <- m ;; k" := (bind m (fun x => match x with p => k end))
  (at level 61, p pattern, m at next level, right associativity).

(** Floating-point values and arrays stay abstract: scores are carried
    around, rendered and compared but never computed with. *)
Class Numerics : Type := {
  float : Type;
  (** [f"{x:.4f}"] *)
  format_4f : float -> str;
  (** [x > 0.7] *)
  gt_0_7 : float -> bool;
  (** the constant [0.5] *)
  float_0_5 : float;
  (** a [(1, dim)] array of [float32] *)
  embedding : Type;
  (** [faiss.normalize_L2] *)
  normalize_L2 : embedding -> embedding
}.

(** [embedder.encode([text], ...)] *)
Definition encoder `{Numerics} : Type := str -> outcome embedding.

(** [index.search(q, k)]: the rows [distances[0]] and [indices[0]]. *)
Definition vector_index `{Numerics} : Type :=
  embedding -> Z -> outcome (list float * list Z).


Close Scope Z_scope.
(** * [server/server.py] *)

Open Scope Z_scope.

Module Server.

(** The module constants read from the environment at import. *)
Record config : Type := {
  SAMPLE_RATE : Z;
  CHANNELS : Z;
  TOP_K : Z
}.

(** The Whisper model: [transcribe] on the sample array, and on the
    temporary WAV file written from the samples.  It is given the 16-bit
    samples; their scaling to [float32] by [1/32768] is exact. *)
Record whisper : Type := {
  transcribe_array : list Z -> outcome str;
  transcribe_file : list Z -> outcome str
}.

Record turn : Type := {
  transcription : str;
  response : str;
  formatted_response : str;
  audio : option str;
  response_raw : str
}.

Inductive json : Type :=
| JError (error : str)
| JHealth (status : str) (models_loaded : bool)
| JTurn (t : turn).

Definition http_response := (json * Z)%type.

(** The generation and speech back ends. *)
Record world : Type := {
  _HAS_OLLAMA : bool;
  _HAS_PIPER : bool;
  (** [ollama.chat(...)['message']['content']] *)
  ollama_chat : str -> outcome str;
  (** the [transformers] pipeline, [out[0]['generated_text']] *)
  text_generation : str -> outcome str;
  (** the value of [_piper_init_once()]: the voice is loaded, or its file
      is found and loads now *)
  piper_voice_ready : bool;
  (** [_piper_synthesize_to_wav_bytes] with the loaded voice *)
  piper_synthesize_wav : str -> outcome bytes;
  (** [pyttsx3]: [save_to_file], [runAndWait] and reading the file back *)
  pyttsx3_save_to_file : str -> outcome bytes;
  (** the SAPI voice speaking into a file stream, read back *)
  sapi_speak : str -> outcome bytes
}.

Definition nl : str := [10%N].

Definition instruction : str :=
  join nl
  [ lit "You are an assistant who answers *with reference to the Bhagavad Gita*.";
    [];
    lit "GUIDELINES:";
    lit "1. Use only the verses provided in the CONTEXT.";
    lit "   - Treat CONTEXT as the sole knowledge source for Gita references.";
    lit "   - Do not invent or recall verses outside the given IDs.";
    [];
    lit "2. Citations:";
    lit "   - When basing any part of your answer on a verse, include an inline citation in this exact format: (id=XYZ).";
    lit "   - If summarizing multiple verses, cite each relevant id, it would be preferable to give chapter number and verse number as well in the beginning before referencing that to the answer to solution.";
    [];
    lit "3. Quoting:";
    lit "   - Keep direct quotes short (a phrase or line).";
    lit "   - Prefer paraphrasing + explanation over long copy-pastes.";
    [];
    lit "4. Style of Answer:";
    lit "   - Provide clear, decently detailed explanations in under 120 words.";
    (lit "   - Show how the verse connects to the user" ++ [8217%N] ++ lit "s question (very very important).");
    lit "   - Encourage and guide the user in understanding, without being preachy. ";
    [];
    lit "5. Boundaries:";
    lit "   - Do not fabricate chapter/verse numbers.";
    (lit "   - Do not rely on outside knowledge " ++ [8212%N] ++ lit " only use the given CONTEXT.") ].

Definition apology : str :=
  lit "I'm sorry " ++ [8212%N] ++ lit " the language model is currently unavailable.".

Section Model.

Context `{UnicodeData} `{Numerics}.

Record globals : Type := {
  whisper_model : option whisper;
  embedder : option encoder;
  faiss_index : option vector_index;
  texts : option (list str);
  df : option dataframe
}.

(** A retrieved passage [(id, score, text)]. *)
Definition passage := (Z * float * str)%type.

(** The body of the [for] loop of [retrieve]. *)
Fixpoint retrieve_loop (pairs : list (Z * float))
  (texts_list : option (list str)) (results : list passage)
  : M (list passage) :=
  match pairs with
  | [] => ret results
  | (idx, score) :: rest =>
      if 0 <=? idx then
        tl <- deref no_len texts_list ;;
        if idx <? Z.of_nat (length tl)
        then retrieve_loop rest texts_list
               (results ++ [(idx, score, nth (Z.to_nat idx) tl [])])
        else retrieve_loop rest texts_list results
      else retrieve_loop rest texts_list results
  end.

(** The handles are the globals [process_audio] passes, [None] as long as
    [initialize_models] has not assigned them. *)
Definition retrieve (query : str) (index : option vector_index)
  (texts_list : option (list str)) (embedder_local : option encoder)
  (top_k : Z) : M (list passage) :=
  if is_empty query || is_empty (strip query) then ret []
  else
    enc <- deref (no_attribute "encode") embedder_local ;;
    q_emb <- call (Encode query) (enc query) ;;
    let q_emb := normalize_L2 q_emb in
    idx <- deref (no_attribute "search") index ;;
    '(distances, indices) <- call (IndexSearch top_k) (idx q_emb top_k) ;;
    retrieve_loop (combine indices distances) texts_list [].

(** [f"(id={idx}, score={score:.4f})\n{txt.strip()}\n---\n"] *)
Definition format_entry (p : passage) : str :=
  let '(idx, score, txt) := p in
  lit "(id=" ++ str_of_int idx ++ lit ", score=" ++ format_4f score
    ++ lit ")" ++ nl ++ strip txt ++ nl ++ lit "---" ++ nl.

(** The accumulation loop of [make_prompt]. *)
Fixpoint context_loop (retrieved : list passage) (max_context_chars : Z)
  (total_len : Z) (context_parts : list str) : list str :=
  match retrieved with
  | [] => context_parts
  | p :: rest =>
      let entry := format_entry p in
      let total_len := total_len + len entry in
      if total_len >? max_context_chars then context_parts
      else context_loop rest max_context_chars total_len
             (context_parts ++ [entry])
  end.

Definition make_prompt (query : str) (retrieved : list passage)
  (max_context_chars : Z) : str :=
  let context_parts := context_loop retrieved max_context_chars 0 [] in
  let context := join nl context_parts in
  instruction ++ nl ++ nl ++ lit "CONTEXT:" ++ nl ++ context ++ nl
    ++ lit "USER QUERY:" ++ nl ++ query ++ nl ++ nl ++ lit "Answer:".

Definition generate_with_ollama (w : world) (prompt : str) : M str :=
  call (OllamaChat prompt) (ollama_chat w prompt).

Definition generate_with_transformers (w : world) (prompt : str) : M str :=
  call (TransformersGenerate prompt) (text_generation w prompt).

Definition safe_generate (w : world) (prompt : str) : M str :=
  let fallback :=
    catch (generate_with_transformers w prompt) (fun _ => ret apology) in
  if _HAS_OLLAMA w
  then catch (generate_with_ollama w prompt) (fun _ => fallback)
  else fallback.

(** [generate_tts_audio]: Piper, then pyttsx3, then SAPI. *)
Definition generate_tts_audio (w : world) (text : str) (preferred : str)
  : M (option bytes) :=
  from_piper <-
    (if str_eqb preferred (lit "piper") && _HAS_PIPER w then
       catch
         (if negb (piper_voice_ready w)
          then raise (lit "piper init failed or voice not found")
          else
            wav_bytes <- call (PiperSynthesize text)
                           (piper_synthesize_wav w text) ;;
            ret (if is_empty wav_bytes then None else Some wav_bytes))
         (fun _ => ret None)
     else ret None) ;;
  match from_piper with
  | Some wav_bytes => ret (Some wav_bytes)
  | None =>
      from_pyttsx3 <-
        catch
          (data <- call (Pyttsx3Save text) (pyttsx3_save_to_file w text) ;;
           ret (Some data))
          (fun _ => ret None) ;;
      match from_pyttsx3 with
      | Some data => ret (Some data)
      | None =>
          catch
            (data <- call (SapiSpeak text) (sapi_speak w text) ;;
             ret (Some data))
            (fun _ => ret None)
      end
  end.

Definition health (g : globals) : http_response :=
  (JHealth (lit "healthy")
     (match whisper_model g with Some _ => true | None => false end),
   200).

(** [audio_int16.reshape(-1, CHANNELS)[:, 0]] *)
Fixpoint first_channel (fuel : nat) (channels : nat) (samples : list Z)
  : list Z :=
  match fuel, samples with
  | S f, x :: _ => x :: first_channel f channels (skipn channels samples)
  | _, _ => []
  end.

(** The text column of the verse table, as [process_audio] and
    [initialize_models] pick it. *)
Definition choose_text_col (d : dataframe) : M str :=
  let columns := map col_name d in
  let text_col_candidates := map col_name (filter col_is_text d) in
  if existsb (str_eqb (lit "translation")) columns
  then ret (lit "translation")
  else
    match text_col_candidates, columns with
    | c :: _, _ => ret c
    | [], c :: _ => ret c
    | [], [] => raise (lit "index 0 is out of bounds for axis 0 with size 0")
    end.

Definition format_source (p : passage) : str :=
  let '(idx, score, txt) := p in
  nl ++ lit "(id=" ++ str_of_int idx ++ lit ", score=" ++ format_4f score
    ++ lit ")" ++ nl ++ txt ++ nl ++ lit "---" ++ nl.

(** The stages of a turn up to the retrieval: an early HTTP response,
    or the transcription and the retrieved passages. *)
Definition transcribe_and_retrieve (cfg : config) (g : globals)
  (audio_bytes : bytes) : M (http_response + str * list passage) :=
  match whisper_model g with
  | None => ret (inl (JError (lit "Models not loaded on server."), 503))
  | Some wm =>
      if is_empty audio_bytes
      then ret (inl (JError (lit "No audio data received"), 400))
      else
        match frombuffer_int16 audio_bytes with
        | Raised e =>
            ret (inl (JError (lit "Failed to parse int16 audio bytes: "
                                ++ e), 400))
        | Returned audio_int16 =>
            let size := Z.of_nat (length audio_int16) in
            let audio_int16 :=
              if (CHANNELS cfg >? 1) && (size mod CHANNELS cfg =? 0)
              then first_channel (length audio_int16)
                     (Z.to_nat (CHANNELS cfg)) audio_int16
              else audio_int16 in
            result <-
              catch
                (text <- call (WhisperTranscribe audio_int16)
                           (transcribe_array wm audio_int16) ;;
                 ret (inr text))
                (fun e_direct =>
                   catch
                     (text <- call (WhisperTranscribe audio_int16)
                                (transcribe_file wm audio_int16) ;;
                      ret (inr text))
                     (fun e_file =>
                        let msg :=
                          lit "Transcription failed. If this mentions ffmpeg or WinError 2, "
                          ++ lit "please install ffmpeg and ensure it is on PATH. "
                          ++ lit "Direct error: " ++ e_direct
                          ++ lit "; file error: " ++ e_file in
                        ret (inl (JError msg, 500)))) ;;
            match result with
            | inl early => ret (inl early)
            | inr text =>
                let transcribed_text := strip text in
                d <- deref (no_attribute "columns") (df g) ;;
                _ <- choose_text_col d ;;
                retrieved <- retrieve transcribed_text (faiss_index g)
                               (texts g) (embedder g) (TOP_K cfg) ;;
                ret (inr (transcribed_text, retrieved))
            end
        end
  end.

(** The stages from the prompt to the response. *)
Definition generate_and_respond (cfg : config) (w : world)
  (transcribed_text : str) (retrieved : list passage) : M http_response :=
  let prompt := make_prompt transcribed_text retrieved 2000 in
  response_text_raw <- safe_generate w prompt ;;
  let response_text := clean_response_text response_text_raw in
  let formatted_response :=
    lit "=== AI Response ===" ++ nl ++ strip response_text ++ nl ++ nl in
  let formatted_response :=
    if is_empty retrieved
    then formatted_response ++ lit "(No verses retrieved.)" ++ nl
    else formatted_response ++ lit "=== Top Source Verse(s) ===" ++ nl
         ++ flat_map format_source (slice_to (TOP_K cfg) retrieved) in
  tts_bytes <-
    catch (generate_tts_audio w response_text (lit "piper"))
          (fun _ => ret None) ;;
  ret (JTurn {| transcription := transcribed_text;
                response := response_text;
                formatted_response := formatted_response;
                audio := match tts_bytes with
                         | Some (b :: bs) => Some (hex (b :: bs))
                         | _ => None
                         end;
                response_raw := response_text_raw |}, 200).

(** [POST /process_audio]: the outer handler turns an exception that
    escapes into a response with status 500. *)
Definition process_audio (cfg : config) (w : world) (g : globals)
  (audio_bytes : bytes) : list event * http_response :=
  let turn :=
    (stage <- transcribe_and_retrieve cfg g audio_bytes ;;
     match stage with
     | inl early => ret early
     | inr (transcribed_text, retrieved) =>
         generate_and_respond cfg w transcribed_text retrieved
     end) in
  match turn with
  | (t, Returned r) => (t, r)
  | (t, Raised e) => (t, (JError e, 500))
  end.

(** What the start-up loads. *)
Record startup : Type := {
  load_whisper : outcome whisper;
  load_dataframe : outcome dataframe;
  load_encoder : outcome encoder;
  index_file_exists : bool;
  read_index : outcome vector_index;
  build_faiss_index : list str -> encoder -> outcome vector_index
}.

Definition no_globals : globals :=
  {| whisper_model := None; embedder := None; faiss_index := None;
     texts := None; df := None |}.

Definition column_values (d : dataframe) (name : str) : list str :=
  match find (fun c => str_eqb (col_name c) name) d with
  | Some c => col_values c
  | None => []
  end.

(** [initialize_models], with [load_or_build_index] inlined: the
    globals it has assigned when it returns or raises. *)
Definition initialize_models (s : startup) (g : globals)
  : globals * outcome unit :=
  match load_whisper s with
  | Raised e => (g, Raised e)
  | Returned wm =>
      let g := {| whisper_model := Some wm; embedder := embedder g;
                  faiss_index := faiss_index g; texts := texts g;
                  df := df g |} in
      match load_dataframe s with
      | Raised e => (g, Raised e)
      | Returned d =>
          let g := {| whisper_model := whisper_model g;
                      embedder := embedder g;
                      faiss_index := faiss_index g; texts := texts g;
                      df := Some d |} in
          match choose_text_col d with
          | (_, Raised e) => (g, Raised e)
          | (_, Returned text_col) =>
              match load_encoder s with
              | Raised e => (g, Raised e)
              | Returned embedder_local =>
                  let g := {| whisper_model := whisper_model g;
                              embedder := Some embedder_local;
                              faiss_index := faiss_index g;
                              texts := texts g; df := df g |} in
                  let texts_local := column_values d text_col in
                  match
                    (if index_file_exists s then read_index s
                     else build_faiss_index s texts_local embedder_local)
                  with
                  | Raised e => (g, Raised e)
                  | Returned index_local =>
                      ({| whisper_model := whisper_model g;
                          embedder := embedder g;
                          faiss_index := Some index_local;
                          texts := Some texts_local;
                          df := df g |}, Returned tt)
                  end
              end
          end
      end
  end.

(** The script: [initialize_models()], then [app.run(...)].  The state
    in which requests are served, if the server starts. *)
Definition main (s : startup) : option globals :=
  match initialize_models s no_globals with
  | (g, Returned _) => Some g
  | (_, Raised _) => None
  end.

End Model.

End Server.

Close Scope Z_scope.

(** * [server/server_faiss_semantic.py] *)

Open Scope Z_scope.

Module FaissSemantic.

Definition nl : str := [10%N].

Definition EXIT_PHRASES : list str :=
  [ lit "thank you";
    lit "thanks";
    lit "that's all";
    lit "nothing else";
    lit "goodbye" ].

Definition FOLLOW_UP_PHRASES : list str :=
  [ lit "Is there anything else I can help you with?";
    lit "Would you like to explore this teaching further?";
    lit "Any other spiritual questions?";
    lit "Would you like more guidance on this topic?" ].

Definition fallback_verses : list str :=
  [ lit "You have the right to perform your actions, but you are not entitled to the fruits of your actions. Never let the fruits of action be your motive, nor let your attachment be to inaction.";
    lit "For the soul there is neither birth nor death. It is not slain when the body is slain. The soul is unborn, eternal, permanent, and primeval.";
    lit "Better is your own dharma, though imperfectly performed, than the dharma of another well performed. Better is death in the performance of one's own dharma; the dharma of another is fraught with danger.";
    lit "When meditation is mastered, the mind is unwavering like the flame of a lamp in a windless place.";
    lit "Whatever you do, whatever you eat, whatever you offer in sacrifice, whatever you give away, whatever austerities you practice - do that as an offering to the Divine." ].

Definition intents : list (str * list str) :=
  [ (lit "tiredness_laziness",
     [lit "lazy"; lit "tired"; lit "fatigue"; lit "exhausted"; lit "unmotivated"; lit "lethargy"; lit "energy"; lit "motivation"; lit "procrastination"; lit "weakness"]);
    (lit "sadness_depression",
     [lit "sad"; lit "sadness"; lit "depressed"; lit "depression"; lit "sorrow"; lit "grief"; lit "unhappy"; lit "melancholy"; lit "down"; lit "blue"; lit "hopeless"]);
    (lit "fear_anxiety",
     [lit "fear"; lit "afraid"; lit "scared"; lit "anxiety"; lit "anxious"; lit "worry"; lit "worried"; lit "panic"; lit "nervous"; lit "frightened"; lit "terror"]);
    (lit "life_purpose",
     [lit "purpose"; lit "meaning"; lit "direction"; lit "path"; lit "calling"; lit "destiny"; lit "goal"; lit "mission"; lit "dharma"; lit "why am i here"; lit "what should i do"]);
    (lit "anger_conflict",
     [lit "angry"; lit "anger"; lit "mad"; lit "furious"; lit "conflict"; lit "fight"; lit "argument"; lit "frustrated"; lit "rage"; lit "hate"; lit "resentment"]);
    (lit "attachment_loss",
     [lit "attachment"; lit "loss"; lit "lost"; lit "letting go"; lit "detachment"; lit "possession"; lit "clinging"; lit "breakup"; lit "death"; lit "separation"]);
    (lit "doubt_confusion",
     [lit "doubt"; lit "confused"; lit "confusion"; lit "uncertain"; lit "unsure"; lit "lost"; lit "decision"; lit "choice"; lit "dilemma"]);
    (lit "spiritual_practice",
     [lit "meditation"; lit "prayer"; lit "devotion"; lit "worship"; lit "spiritual"; lit "enlightenment"; lit "moksha"; lit "liberation"]);
    (lit "relationships",
     [lit "relationship"; lit "love"; lit "family"; lit "friends"; lit "marriage"; lit "parents"; lit "children"; lit "society"]);
    (lit "work_duty",
     [lit "work"; lit "job"; lit "career"; lit "duty"; lit "responsibility"; lit "service"; lit "profession"; lit "business"]) ].

Definition intent_context : list (str * str) :=
  [ (lit "tiredness_laziness",
     lit "Krishna teaches that laziness comes from attachment to results and fear of failure. The solution is not inaction, but action without attachment.");
    (lit "sadness_depression",
     lit "The Gita reminds us that our true nature is the eternal soul, beyond all temporary sorrows. This wisdom brings lasting peace.");
    (lit "fear_anxiety",
     lit "Fear arises from the illusion of separateness. When you realize your connection to the Divine, fear naturally dissolves.");
    (lit "life_purpose",
     lit "Your dharma (life purpose) is unique to your nature and circumstances. The Gita guides you to discover and follow your authentic path.");
    (lit "anger_conflict",
     lit "Anger clouds judgment and leads to poor decisions. The Gita teaches emotional mastery through spiritual understanding.");
    (lit "attachment_loss",
     lit "Attachment to temporary things causes suffering. True joy comes from loving without possessing and giving without expecting.");
    (lit "doubt_confusion",
     lit "When confused, seek wisdom from sacred texts and wise teachers. The Divine guides those who sincerely seek truth.");
    (lit "spiritual_practice",
     lit "Regular spiritual practice purifies the mind and reveals your true nature. Consistency is more important than intensity.");
    (lit "relationships",
     lit "See the Divine in all beings. Love unconditionally, serve selflessly, and maintain your inner peace regardless of others' actions.");
    (lit "work_duty",
     lit "Perform your work as worship. Excellence in action, without attachment to results, leads to both success and spiritual growth.") ].

Definition farewell : str :=
  [128591%N] ++ lit " Thank you for seeking Gita wisdom. May you find peace and fulfillment on your spiritual journey. Om Shanti!".

Definition no_verse_response : str :=
  lit "The Bhagavad Gita teaches us that all suffering comes from ignorance of our true nature. Seek wisdom through righteous action, devotion, and self-knowledge.".

Definition default_context : str :=
  lit "The eternal wisdom of the Gita provides guidance for all of life's challenges.".

Definition practical_application : str :=
  lit "**Practical Application:** Focus on your sincere effort rather than worrying about outcomes. Every step taken with devotion and wisdom brings you closer to peace and fulfillment.".

(** [whisper_model.transcribe(audio)['text']] *)
Record whisper : Type := {
  transcribe : list Z -> outcome str
}.

(** The Piper voice writing the speech for a text into a WAV buffer. *)
Definition voice := str -> outcome bytes.

Record world : Type := {
  (** [random.choice] *)
  random_choice : list str -> str
}.

Record turn : Type := {
  transcription : str;
  response : str;
  audio : option str;
  end_conversation : bool;
  intent : str;
  verse_count : Z
}.

Inductive json : Type :=
| JError (error : str)
| JTurn (t : turn).

Definition http_response := (json * Z)%type.

(** [len(df)], [name in df.columns] and [df.iloc[idx][name]] (with the
    negative positions of Python) on the verse table. *)
Definition n_rows (d : dataframe) : Z :=
  match d with
  | [] => 0
  | c :: _ => Z.of_nat (length (col_values c))
  end.

Definition has_column (d : dataframe) (name : str) : bool :=
  existsb (fun c => str_eqb (col_name c) name) d.

Definition cell (d : dataframe) (idx : Z) (name : str) : M str :=
  let i := if idx <? 0 then idx + n_rows d else idx in
  if (0 <=? i) && (i <? n_rows d) then
    match find (fun c => str_eqb (col_name c) name) d with
    | Some c => ret (nth (Z.to_nat i) (col_values c) [])
    | None => raise name
    end
  else raise (lit "single positional indexer is out-of-bounds").

Fixpoint lookup (key : str) (table : list (str * str)) : option str :=
  match table with
  | [] => None
  | (k, v) :: rest => if str_eqb k key then Some v else lookup key rest
  end.

Section Model.

Context `{UnicodeData} `{Numerics}.

Record globals : Type := {
  whisper_model : option whisper;
  piper_voice : option voice;
  gita_data : option dataframe;
  faiss_index : option vector_index;
  sentence_model : option encoder
}.

Record verse_result : Type := {
  verse : str;
  similarity : float;
  chapter_info : str;
  rank : Z
}.

Definition get_fallback_verses (w : world) (query : str)
  : M (list verse_result) :=
  call RandomChoice
    (Returned [ {| verse := random_choice w fallback_verses;
                   similarity := float_0_5;
                   chapter_info := [];
                   rank := 1 |} ]).

(** The body of the [for] loop of [find_relevant_verses]; [i] is the
    position [enumerate] gives. *)
Fixpoint verses_loop (data : dataframe) (verse_column : str)
  (pairs : list (float * Z)) (i : Z) (results : list verse_result)
  : M (list verse_result) :=
  match pairs with
  | [] => ret results
  | (sim, idx) :: rest =>
      if idx <? n_rows data then
        verse_text <- cell data idx verse_column ;;
        info <-
          (if has_column data (lit "chapter_number")
              && has_column data (lit "chapter_verse")
           then
             chapter <- cell data idx (lit "chapter_number") ;;
             number <- cell data idx (lit "chapter_verse") ;;
             ret (lit " (" ++ chapter ++ lit ", " ++ number ++ lit ")")
           else ret []) ;;
        verses_loop data verse_column rest (i + 1)
          (results ++ [ {| verse := verse_text; similarity := sim;
                           chapter_info := info; rank := i + 1 |} ])
      else verses_loop data verse_column rest (i + 1) results
  end.

Definition find_relevant_verses (w : world) (g : globals) (query : str)
  (top_k : Z) : M (list verse_result) :=
  match faiss_index g, sentence_model g, gita_data g with
  | Some index, Some model, Some data =>
      catch
        (query_embedding <- call (Encode query) (model query) ;;
         let query_embedding := normalize_L2 query_embedding in
         '(similarities, indices) <-
           call (IndexSearch top_k) (index query_embedding top_k) ;;
         verse_column <-
           (if has_column data (lit "translation")
            then ret (lit "translation")
            else match rev data with
                 | c :: _ => ret (col_name c)
                 | [] => raise (lit "index -1 is out of bounds for axis 0 with size 0")
                 end) ;;
         verses_loop data verse_column (combine similarities indices) 0 [])
        (fun _ => get_fallback_verses w query)
  | _, _, _ => get_fallback_verses w query
  end.

Definition understand_question_intent (query : str) : str * list str :=
  let query_lower := lower query in
  let detected_intents :=
    map fst
      (filter (fun entry =>
                 existsb (fun keyword => contains keyword query_lower)
                   (snd entry))
         intents) in
  (hd (lit "general") detected_intents, detected_intents).

Definition generate_contextual_response (query : str)
  (verse_results : list verse_result) (intent : str) : str :=
  match verse_results with
  | [] => no_verse_response
  | best_verse :: others =>
      let verse_text := verse best_verse in
      let context :=
        match lookup intent intent_context with
        | Some c => c
        | None => default_context
        end in
      let response :=
        [128591%N] ++ lit " **Krishna's Guidance:**" ++ nl ++ nl
          ++ lit "**Verse" ++ chapter_info best_verse ++ lit ":** "
          ++ [34%N] ++ firstn 300 verse_text
          ++ (if len verse_text >? 300 then lit "..." else [])
          ++ [34%N] ++ nl ++ nl
          ++ lit "**Understanding:** " ++ context ++ nl ++ nl
          ++ practical_application in
      match others with
      | second :: _ =>
          if gt_0_7 (similarity second)
          then response ++ nl ++ nl ++ lit "**Related Teaching:** "
                 ++ [34%N] ++ firstn 200 (verse second) ++ lit "..."
                 ++ [34%N]
          else response
      | [] => response
      end
  end.

Definition synthesize_speech (g : globals) (text : str) : M (option bytes) :=
  match piper_voice g with
  | None => ret None
  | Some piper =>
      let clean_text :=
        replace (lit "*") []
          (replace [128591%N] [] (replace (lit "**") [] text)) in
      let clean_text :=
        strip (replace [9989%N] [] (replace [128214%N] [] clean_text)) in
      let clean_text :=
        if len clean_text >? 1000
        then firstn 1000 clean_text ++ lit "..."
        else clean_text in
      catch
        (wav_data <- call (PiperSynthesize clean_text) (piper clean_text) ;;
         ret (Some wav_data))
        (fun _ => ret None)
  end.

(** The request body as 16-bit samples: a body of odd length loses its
    last byte first. *)
Definition decode_audio (audio_data : bytes) : outcome (list Z) :=
  let audio_data :=
    if Z.of_nat (length audio_data) mod 2 =? 0 then audio_data
    else removelast audio_data in
  frombuffer_int16 audio_data.

Definition hex_or_none (audio_bytes : option bytes) : option str :=
  match audio_bytes with
  | Some (b :: bs) => Some (hex (b :: bs))
  | _ => None
  end.

(** The two branches after the exit check: the farewell, or intent,
    retrieval and the composed response.  The result is the response
    text with the [intent] and [verse_count] fields. *)
Definition answer (w : world) (g : globals) (transcription : str)
  (end_conversation : bool) : M (str * str * Z) :=
  if end_conversation then ret (farewell, lit "goodbye", 0)
  else
    let '(primary_intent, all_intents) :=
      understand_question_intent transcription in
    verse_results <- find_relevant_verses w g transcription 3 ;;
    let response_text :=
      generate_contextual_response transcription verse_results
        primary_intent in
    follow_up <- call RandomChoice
                   (Returned (random_choice w FOLLOW_UP_PHRASES)) ;;
    ret (response_text ++ nl ++ nl ++ follow_up, primary_intent,
         Z.of_nat (length verse_results)).

(** The turn from the transcribed text on. *)
Definition respond (w : world) (g : globals) (text : str)
  : M http_response :=
  let transcription := strip text in
  let end_conversation :=
    existsb (fun phrase => contains phrase (lower transcription))
      EXIT_PHRASES in
  '(response_text, intent, verse_count) <-
    answer w g transcription end_conversation ;;
  audio_bytes <- synthesize_speech g response_text ;;
  ret (JTurn {| transcription := transcription;
                response := response_text;
                audio := hex_or_none audio_bytes;
                end_conversation := end_conversation;
                intent := intent;
                verse_count := verse_count |}, 200).

(** [POST /process_audio]: the outer handler turns an exception that
    escapes into a response with status 500. *)
Definition process_audio (w : world) (g : globals) (audio_data : bytes)
  : list event * http_response :=
  let turn :=
    if is_empty audio_data then ret (JError (lit "No audio data"), 400)
    else
      audio_np <- ([], decode_audio audio_data) ;;
      model <- deref (no_attribute "transcribe") (whisper_model g) ;;
      text <- call (WhisperTranscribe audio_np) (transcribe model audio_np) ;;
      respond w g text in
  match turn with
  | (t, Returned r) => (t, r)
  | (t, Raised e) => (t, (JError e, 500))
  end.

End Model.

End FaissSemantic.

Close Scope Z_scope.

(** * [client/client.py] and [client/pi_client_with_audio.py] *)

Open Scope Z_scope.

Module Client.

Definition byte_of_N (n : N) : byte :=
  match Byte.of_N n with
  | Some b => b
  | None => x00
  end.

(** The bytes of one [int16] sample on a little-endian machine. *)
Definition int16_bytes (sample : Z) : bytes :=
  let u := Z.to_N (sample mod 65536) in
  [byte_of_N (u mod 256)%N; byte_of_N (u / 256)%N].

(** [audio_data.tobytes()] on the recorded [int16] array. *)
Definition tobytes (samples : list Z) : bytes :=
  flat_map int16_bytes samples.

(** The value of a hexadecimal digit, in either case. *)
Definition digit_value (c : char) : option N :=
  if ((48 <=? c) && (c <=? 57))%N then Some (c - 48)%N
  else if ((97 <=? c) && (c <=? 102))%N then Some (c - 87)%N
  else if ((65 <=? c) && (c <=? 70))%N then Some (c - 55)%N
  else None.

Fixpoint unhexlify_pairs (s : str) : outcome bytes :=
  match s with
  | top :: bot :: rest =>
      match digit_value top, digit_value bot with
      | Some t, Some b =>
          match unhexlify_pairs rest with
          | Returned decoded => Returned (byte_of_N (16 * t + b)%N :: decoded)
          | Raised e => Raised e
          end
      | _, _ => Raised (lit "Non-hexadecimal digit found")
      end
  | _ => Returned []
  end.

(** [binascii.unhexlify] on a [str]. *)
Definition unhexlify (hexstr : str) : outcome bytes :=
  if existsb (fun c => (128 <=? c)%N) hexstr
  then Raised (lit "string argument should contain only ASCII characters")
  else if Z.of_nat (length hexstr) mod 2 =? 0 then unhexlify_pairs hexstr
  else Raised (lit "Odd-length string").

Section Model.

Context `{UnicodeData} `{Numerics}.

(** [check_server_health] of [client.py] on the response of [GET /health]:
    [health.get("models_loaded", False)] when the status is 200. *)
Definition check_server_health (response : Server.http_response) : bool :=
  let '(health, status_code) := response in
  if status_code =? 200 then
    match health with
    | Server.JHealth _ models_loaded => models_loaded
    | _ => false
    end
  else false.

(** [check_server] of [pi_client_with_audio.py]. *)
Definition check_server (response : Server.http_response) : bool :=
  let '(_, status_code) := response in
  status_code =? 200.

(** The audio [process_question] hands to the player for a response of
    [POST /process_audio]: [result.get('audio')] when the status is 200
    and the value is not empty. *)
Definition audio_hex (response : Server.http_response) : option str :=
  let '(result, status_code) := response in
  if status_code =? 200 then
    match result with
    | Server.JTurn r =>
        match Server.audio r with
        | Some digits => if is_empty digits then None else Some digits
        | None => None
        end
    | _ => None
    end
  else None.

(** What the player writes to its WAV file: the first step of
    [play_audio_with_jaw] and of [play_audio], whose handler absorbs the
    error of [unhexlify]. *)
Definition played (response : Server.http_response) : option bytes :=
  match audio_hex response with
  | Some digits =>
      match unhexlify digits with
      | Returned audio_data => Some audio_data
      | Raised _ => None
      end
  | None => None
  end.

End Model.

End Client.

Close Scope Z_scope.

(** * Notions used in the statements *)

Open Scope Z_scope.

(** [s.replace(old, new)] written out for a needle of one character. *)
Definition replace_char (old : char) (new : str) (s : str) : str :=
  flat_map (fun c => if (c =? old)%N then new else [c]) s.

(** Total length of a list of strings. *)
Fixpoint sum_len (parts : list str) : Z :=
  match parts with
  | [] => 0
  | p :: ps => len p + sum_len ps
  end.

(** A call that raises. *)
Definition raises {A : Type} (o : outcome A) : Prop :=
  exists e, o = Raised e.

(** Scores as ten-thousandths, to run the definitions on concrete
    passages: [8421] stands for [0.8421]. *)
Definition pad4 (n : Z) : str :=
  let s := str_of_int n in
  repeat (ch "0") (4 - length s) ++ s.

Definition format_fixed (x : Z) : str :=
  (if x <? 0 then lit "-" else []) ++ str_of_int (Z.abs x / 10000)
    ++ lit "." ++ pad4 (Z.abs x mod 10000).

Definition fixed_point : Numerics :=
  {| float := Z;
     format_4f := format_fixed;
     gt_0_7 := fun x => x >? 7000;
     float_0_5 := 5000;
     embedding := unit;
     normalize_L2 := fun e => e |}.

(** A database that knows no digit and no letter outside ASCII and lowers
    nothing there, to run the definitions on concrete texts. *)
Definition ascii_only : UnicodeData :=
  {| uni_decimal := fun _ => false;
     uni_alnum := fun _ => false;
     uni_lower := fun _ c _ => [c] |}.

Close Scope Z_scope.

Section ServerNotions.

Context `{Numerics}.

Import Server.

(** A retrieved passage that lies in the corpus, with the text stored at
    its id. *)
Definition in_corpus (corpus : list str) (p : passage) : Prop :=
  let '(id, _, txt) := p in
  (0 <= id < Z.of_nat (length corpus))%Z /\
  nth_error corpus (Z.to_nat id) = Some txt.

(** Piper yields no audio for [text]: it is not installed, its voice does
    not load, the synthesis raises, or it returns no bytes. *)
Definition piper_fails (w : world) (text : str) : Prop :=
  _HAS_PIPER w = false \/ piper_voice_ready w = false \/
  raises (piper_synthesize_wav w text) \/
  piper_synthesize_wav w text = Returned [].

Definition all_tts_fail (w : world) (text : str) : Prop :=
  piper_fails w text /\
  raises (pyttsx3_save_to_file w text) /\
  raises (sapi_speak w text).

(** The models a turn needs: transcriber, encoder and index. *)
Definition all_models_loaded (g : globals) : Prop :=
  whisper_model g <> None /\ embedder g <> None /\ faiss_index g <> None.

(** A state in which the server answers requests: the module was only
    imported, so that every global is still [None], or the script ran and
    [initialize_models] returned before [app.run]. *)
Definition serving (g : globals) : Prop :=
  g = no_globals \/ exists s, main s = Some g.

End ServerNotions.


(** ** Notions about texts and matches *)

(** A string that does not start with white space. *)
Definition head_ok (s : str) : Prop :=
  match s with [] => True | x :: _ => is_space x = false end.

(** Length of the run of [p] at the head of [s]. *)
Fixpoint run (p : cls) (s : str) : nat :=
  match s with
  | x :: t => if p x then S (run p t) else O
  | [] => O
  end.

(** No run of [p] in [s] is longer than [n]. *)
Fixpoint runs_le (p : cls) (n : nat) (s : str) : Prop :=
  match s with
  | [] => True
  | _ :: t => (run p s <= n)%nat /\ runs_le p n t
  end.

(** The character before the position that follows [m]. *)
Fixpoint after (prev : option char) (m : str) : option char :=
  match m with
  | [] => prev
  | x :: m' => after (Some x) m'
  end.

(** A continuation that answers with a suffix of what it is given. *)
Definition suffix_cont (k : cont) : Prop :=
  forall p s e, k p s = Some e -> exists m, s = m ++ e.

(** A continuation that succeeds only on a text containing [c]. *)
Definition cont_needs (c : char) (k : cont) : Prop :=
  forall q t e, k q t = Some e -> In c t.

(** A literal [c] on the spine of concatenations of [r]; under
    [re.IGNORECASE] only for a character below the letters. *)
Fixpoint requires (c : char) (r : regex) : bool :=
  match r with
  | Lit c' => c' =? c
  | LitI c' => (c' =? c) && (c <? 65)
  | Seq r1 r2 => requires c r1 || requires c r2
  | _ => false
  end.

(** Text without the characters the citation and scaffold patterns need:
    no opening parenthesis, no opening bracket, no equals sign, no colon. *)
Definition plain (s : str) : Prop :=
  ~ In (ch "(") s /\ ~ In (ch "[") s /\ ~ In (ch "=") s /\ ~ In (ch ":") s.

Section MatchNotions.

Context `{UnicodeData}.

(** Every match of [r] contains the character [c]. *)
Definition needs (c : char) (r : regex) : Prop :=
  forall prev s rest, match_at r prev s = Some rest -> In c s.

(** What a cleaned text looks like when the input was plain. *)
Definition normal (w : str) : Prop :=
  plain w /\ ~ In (ch "*") w /\
  runs_le is_newline 2 w /\ runs_le is_blank 1 w /\ strip w = w.

End MatchNotions.

(** ** Sample data, to run the definitions on *)

Open Scope Z_scope.

(** A plain text with doubled blanks, a run of four newlines and white
    space at both ends. *)
Definition sample_plain_text : str :=
  lit "  Do your *duty*,   without attachment." ++ [10; 10; 10; 10]%N
    ++ lit "The rest follows." ++ [9; 32]%N.

Definition sample_retrieved : list (@Server.passage fixed_point) :=
  [ (12, 8421, lit " You have a right to action alone. ");
    (7, 6500, lit "The soul is never born.");
    (3, 6100, lit "Be steadfast.") ].

(** A corpus of three passages; the index answers with the positions 1, 7
    (outside the corpus) and -1 (the padding of FAISS). *)
Definition sample_corpus : list str := [lit "A"; lit "B"; lit "C"].

Definition sample_encoder : @encoder fixed_point := fun _ => Returned tt.

Definition sample_index : @vector_index fixed_point :=
  fun _ k => Returned ([9000; 4000; -10000], [1; 7; -1]).

Section SampleData.

#[local] Existing Instance ascii_only.
#[local] Existing Instance fixed_point.

Definition sample_cfg : Server.config :=
  {| Server.SAMPLE_RATE := 16000; Server.CHANNELS := 1; Server.TOP_K := 3 |}.

Definition sample_whisper : Server.whisper :=
  {| Server.transcribe_array := fun _ => Returned (lit " What is my duty? ");
     Server.transcribe_file := fun _ => Raised (lit "ffmpeg not found") |}.

Definition sample_table : dataframe :=
  [ {| col_name := lit "translation"; col_is_text := true;
       col_values := sample_corpus |} ].

Definition sample_globals : Server.globals :=
  {| Server.whisper_model := Some sample_whisper;
     Server.embedder := Some sample_encoder;
     Server.faiss_index := Some sample_index;
     Server.texts := Some sample_corpus;
     Server.df := Some sample_table |}.

(** No generation back end and no speech back end works. *)
Definition silent_world : Server.world :=
  {| Server._HAS_OLLAMA := true;
     Server._HAS_PIPER := true;
     Server.ollama_chat := fun _ => Raised (lit "connection refused");
     Server.text_generation := fun _ => Raised (lit "model not found");
     Server.piper_voice_ready := false;
     Server.piper_synthesize_wav := fun _ => Raised (lit "Piper voice not initialized");
     Server.pyttsx3_save_to_file := fun _ => Raised (lit "no driver");
     Server.sapi_speak := fun _ => Raised (lit "No module named 'pythoncom'") |}.

Definition sample_audio : bytes := [x01; x00; xff; x7f].

Definition sample_query : str := lit "What is my duty?".

Definition sample_found : list Server.passage := [(1, 9000, lit "B")].

(** The verse table is missing: [initialize_models] raises after it has
    loaded Whisper. *)
Definition csv_missing : Server.startup :=
  {| Server.load_whisper := Returned sample_whisper;
     Server.load_dataframe := Raised (lit "Dataframe file not found");
     Server.load_encoder := Returned sample_encoder;
     Server.index_file_exists := true;
     Server.read_index := Returned sample_index;
     Server.build_faiss_index := fun _ _ => Returned sample_index |}.

(** With every file in place the start-up completes. *)
Definition all_present : Server.startup :=
  {| Server.load_whisper := Returned sample_whisper;
     Server.load_dataframe := Returned sample_table;
     Server.load_encoder := Returned sample_encoder;
     Server.index_file_exists := true;
     Server.read_index := Returned sample_index;
     Server.build_faiss_index := fun _ _ => Returned sample_index |}.

Definition faiss_whisper : FaissSemantic.whisper :=
  {| FaissSemantic.transcribe :=
       fun _ => Returned (lit " Okay, THANK you so much. ") |}.

Definition faiss_voice : FaissSemantic.voice :=
  fun _ => Returned [x52; x49; x46; x46].

Definition faiss_globals : FaissSemantic.globals :=
  {| FaissSemantic.whisper_model := Some faiss_whisper;
     FaissSemantic.piper_voice := Some faiss_voice;
     FaissSemantic.gita_data := Some sample_table;
     FaissSemantic.faiss_index := Some sample_index;
     FaissSemantic.sentence_model := Some sample_encoder |}.

Definition faiss_world : FaissSemantic.world :=
  {| FaissSemantic.random_choice := fun l => hd [] l |}.

Definition odd_audio : bytes := [x01; x00; xff].

End SampleData.

Close Scope Z_scope.

(** ** Further notions about matches *)

(** The least number of characters a match of [r] takes. *)
Fixpoint min_len (r : regex) : nat :=
  match r with
  | Eps | WordB | Opt _ => 0
  | Lit _ | LitI _ | Set_ _ => 1
  | Rep n _ => n
  | Seq r1 r2 => min_len r1 + min_len r2
  end.

(** A continuation that leaves at least [n] characters behind it. *)
Definition shrinks (n : nat) (k : cont) : Prop :=
  forall q t e, k q t = Some e -> (length e + n <= length t)%nat.

(** A non-empty string of the digits 0 to 9. *)
Definition ascii_digits (ds : str) : Prop :=
  ds <> [] /\ forall c, In c ds -> (48 <= c <= 57)%N.

Section MoreMatchNotions.

Context `{UnicodeData}.

(** Every match of [r] starts with the character [c]. *)
Definition begins (c : char) (r : regex) : Prop :=
  forall prev s rest, match_at r prev s = Some rest -> exists t, s = c :: t.

(** The text after the five citation passes and the asterisk pass. *)
Definition unmarked (x : str) : str :=
  replace (lit "*") (lit " ")
    (re_sub pat_empty_parens (lit " ")
       (re_sub pat_empty_brackets (lit " ")
          (re_sub pat_bare_id (lit " ")
             (re_sub pat_paren_id (lit " ")
                (re_sub pat_bracket_id (lit " ") x))))).

End MoreMatchNotions.

Section MoreServerNotions.

Context `{Numerics}.

Import Server.

(** A search position that lies inside the corpus. *)
Definition inside (corpus : list str) (hit : Z * float) : bool :=
  ((0 <=? fst hit) && (fst hit <? Z.of_nat (length corpus)))%Z.

(** A search position with its score and the corpus text stored there. *)
Definition with_text (corpus : list str) (hit : Z * float) : passage :=
  (fst hit, snd hit, nth (Z.to_nat (fst hit)) corpus []).

(** The prompt around a CONTEXT block made of [entries]. *)
Definition prompt_of (query : str) (entries : list str) : str :=
  instruction ++ nl ++ nl ++ lit "CONTEXT:" ++ nl ++ join nl entries ++ nl
    ++ lit "USER QUERY:" ++ nl ++ query ++ nl ++ nl ++ lit "Answer:".

End MoreServerNotions.

Section TurnNotions.

Context `{Numerics}.

Import Server.

(** The samples Whisper is given for a request body: all of them, or the
    first channel when [CHANNELS] is above 1 and divides their number. *)
Definition heard (cfg : config) (audio_bytes : bytes) : list Z :=
  let audio_int16 := decode_int16 audio_bytes in
  if ((CHANNELS cfg >? 1)
      && (Z.of_nat (length audio_int16) mod CHANNELS cfg =? 0))%Z
  then first_channel (length audio_int16) (Z.to_nat (CHANNELS cfg)) audio_int16
  else audio_int16.

(** The Piper stage of [generate_tts_audio] yields no audio: Piper is not
    the preferred back end, or it fails. *)
Definition piper_skipped (w : world) (text preferred : str) : Prop :=
  str_eqb preferred (lit "piper") = false \/ piper_fails w text.

End TurnNotions.

(** ** Notions about the verse search of [server_faiss_semantic.py] *)

(** [enumerate(l)], counting from [i]. *)
Fixpoint enumerate {A : Type} (i : Z) (l : list A) : list (Z * A) :=
  match l with
  | [] => []
  | x :: rest => (i, x) :: enumerate (i + 1)%Z rest
  end.

Section FaissNotions.

Context `{Numerics}.

Import FaissSemantic.

(** The one verse [get_fallback_verses] answers with. *)
Definition fallback_result (w : world) : verse_result :=
  {| verse := random_choice w fallback_verses;
     similarity := float_0_5;
     chapter_info := [];
     rank := 1 |}.

(** The result for the hit [(similarity, idx)] at place [i] of a search,
    in a table of [n] rows whose verse column holds [values] and which has
    no chapter columns: the verse at position [idx] modulo [n]. *)
Definition verse_at (values : list str) (n : Z)
  (hit : Z * (float * Z)) : verse_result :=
  {| verse := nth (Z.to_nat (snd (snd hit) mod n)) values [];
     similarity := fst (snd hit);
     chapter_info := [];
     rank := fst hit + 1 |}.

(** The body of the [try] of [find_relevant_verses], with the index, the
    encoder and the table it found loaded. *)
Definition search_verses (index : vector_index) (model : encoder)
  (data : dataframe) (query : str) (top_k : Z) : M (list verse_result) :=
  query_embedding <- call (Encode query) (model query) ;;
  let query_embedding := normalize_L2 query_embedding in
  '(similarities, indices) <-
    call (IndexSearch top_k) (index query_embedding top_k) ;;
  verse_column <-
    (if has_column data (lit "translation")
     then ret (lit "translation")
     else match rev data with
          | c :: _ => ret (col_name c)
          | [] => raise (lit "index -1 is out of bounds for axis 0 with size 0")
          end) ;;
  verses_loop data verse_column (combine similarities indices) 0%Z [].

(** The characters [synthesize_speech] takes out of a text. *)
Definition unspoken : list char := [ch "*"; 128591; 128214; 9989]%N.

End FaissNotions.

(** ** More sample data *)

Open Scope Z_scope.

Section MoreSampleData.

#[local] Existing Instance ascii_only.
#[local] Existing Instance fixed_point.

(** A Whisper that fails on the samples and on the WAV file. *)
Definition deaf_whisper : Server.whisper :=
  {| Server.transcribe_array := fun _ => Raised (lit "bad input");
     Server.transcribe_file := fun _ => Raised (lit "ffmpeg not found") |}.

Definition deaf_globals : Server.globals :=
  {| Server.whisper_model := Some deaf_whisper;
     Server.embedder := Some sample_encoder;
     Server.faiss_index := Some sample_index;
     Server.texts := Some sample_corpus;
     Server.df := Some sample_table |}.

(** A server that takes stereo recordings. *)
Definition stereo_cfg : Server.config :=
  {| Server.SAMPLE_RATE := 16000; Server.CHANNELS := 2; Server.TOP_K := 3 |}.

(** Two stereo frames: the left samples 1 and 3, the right ones 2 and 4. *)
Definition stereo_audio : bytes :=
  [x01; x00; x02; x00; x03; x00; x04; x00].

(** A recording that touches both ends of the 16-bit range. *)
Definition sample_recording : list Z := [1; -2; 32767; -32768].

(** The turn the sample server answers the sample audio with, when no
    generation and no speech back end works. *)
Definition sample_turn : Server.turn :=
  {| Server.transcription := sample_query;
     Server.response := Server.apology;
     Server.formatted_response :=
       lit "=== AI Response ===" ++ Server.nl ++ Server.apology
         ++ Server.nl ++ Server.nl
         ++ lit "=== Top Source Verse(s) ===" ++ Server.nl
         ++ Server.nl ++ lit "(id=1, score=0.9000)" ++ Server.nl
         ++ lit "B" ++ Server.nl ++ lit "---" ++ Server.nl;
     Server.audio := None;
     Server.response_raw := Server.apology |}.

(** The FAISS server when Whisper failed to load. *)
Definition faiss_deaf_globals : FaissSemantic.globals :=
  {| FaissSemantic.whisper_model := None;
     FaissSemantic.piper_voice := Some faiss_voice;
     FaissSemantic.gita_data := Some sample_table;
     FaissSemantic.faiss_index := Some sample_index;
     FaissSemantic.sentence_model := Some sample_encoder |}.

End MoreSampleData.

Close Scope Z_scope.

(** ** Texts with citation tokens *)

(** A string of the digits 0 to 9, possibly empty. *)
Definition digits_only (ds : str) : Prop :=
  forall c, In c ds -> (48 <= c <= 57)%N.

(** A score as [f"{score:.4f}"] renders it, and a little more: an optional
    sign, digits, a dot, at least one digit. *)
Definition score_text (s : str) : Prop :=
  exists sign whole frac,
    (sign = [] \/ sign = lit "-" \/ sign = lit "+") /\
    digits_only whole /\ ascii_digits frac /\
    s = sign ++ whole ++ lit "." ++ frac.

(** A citation token in the bracket form. *)
Inductive bracket_citation : str -> Prop :=
| cite_bracket ds :
    ascii_digits ds -> bracket_citation (lit "[id=" ++ ds ++ lit "]").

(** A citation token in one of the two parenthesis forms. *)
Inductive paren_citation : str -> Prop :=
| cite_paren ds :
    ascii_digits ds -> paren_citation (lit "(id=" ++ ds ++ lit ")")
| cite_score ds score :
    ascii_digits ds -> score_text score ->
    paren_citation (lit "(id=" ++ ds ++ lit ", score=" ++ score ++ lit ")").

(** A citation token in one of the three forms [[id=N]], [(id=N)] and
    [(id=N, score=S)]. *)
Definition citation (c : str) : Prop :=
  bracket_citation c \/ paren_citation c.

(** A text made of plain text and tokens: plain text, or plain text, a
    token and again such a text. *)
Inductive mixed (token : str -> Prop) : str -> Prop :=
| mixed_plain p : plain p -> mixed token p
| mixed_token p c rest :
    plain p -> token c -> mixed token rest -> mixed token (p ++ c ++ rest).

(** A text made of plain text and any number of citation tokens. *)
Definition cited (x : str) : Prop := mixed citation x.

(** The raw text of the example of the design document, as plain text and
    tokens. *)
Definition sample_cited_text : str :=
  lit "Action "
    ++ (lit "(id=" ++ lit "12" ++ lit ", score=" ++ lit "0.8421" ++ lit ")")
    ++ lit " matters. *Do* it. "
    ++ (lit "[id=" ++ lit "7" ++ lit "]")
    ++ [].
(** * Properties *)

(** ** Strings *)

Lemma lstrip_In c s : In c (lstrip s) -> In c s.
Proof.
  induction s as [|x t IH]; simpl; [tauto|].
  destruct (is_space x); simpl; tauto.
Qed.

Lemma rstrip_In c s : In c (rstrip s) -> In c s.
Proof.
  induction s as [|x t IH]; simpl; [tauto|].
  destruct (rstrip t) as [|y t'].
  - destruct (is_space x); simpl; tauto.
  - simpl in *. tauto.
Qed.

Lemma strip_In c s : In c (strip s) -> In c s.
Proof. intros Hc. apply lstrip_In, rstrip_In, Hc. Qed.

Lemma lstrip_suffix s : exists a, s = a ++ lstrip s.
Proof.
  induction s as [|x t [a IH]]; simpl.
  - exists []. reflexivity.
  - destruct (is_space x).
    + exists (x :: a). simpl. f_equal. exact IH.
    + exists []. reflexivity.
Qed.

Lemma rstrip_prefix s : exists b, s = rstrip s ++ b.
Proof.
  induction s as [|x t [b IH]]; simpl.
  - exists []. reflexivity.
  - destruct (rstrip t) as [|y t'].
    + destruct (is_space x).
      * exists (x :: t). reflexivity.
      * exists t. reflexivity.
    + exists b. simpl in *. f_equal. exact IH.
Qed.

Lemma rstrip_idem s : rstrip (rstrip s) = rstrip s.
Proof.
  induction s as [|x t IH]; simpl; [reflexivity|].
  destruct (rstrip t) as [|y t'] eqn:E.
  - destruct (is_space x) eqn:Ex; simpl; [reflexivity|].
    rewrite Ex. reflexivity.
  - change (rstrip (x :: y :: t')) with
      (match rstrip (y :: t') with
       | [] => if is_space x then [] else [x]
       | t'' => x :: t''
       end).
    rewrite IH. reflexivity.
Qed.

Lemma lstrip_head_ok s : head_ok (lstrip s).
Proof.
  induction s as [|x t IH]; simpl; [exact I|].
  destruct (is_space x) eqn:E; simpl; assumption.
Qed.

Lemma rstrip_head_ok s : head_ok s -> head_ok (rstrip s).
Proof.
  destruct s as [|x t]; simpl; [tauto|].
  intros Hx. destruct (rstrip t); [rewrite Hx|]; simpl; assumption.
Qed.

Lemma lstrip_fixed s : head_ok s -> lstrip s = s.
Proof. destruct s as [|x t]; simpl; [reflexivity|]. intros ->. reflexivity. Qed.

Lemma strip_head_ok s : head_ok (strip s).
Proof. apply rstrip_head_ok, lstrip_head_ok. Qed.

Lemma strip_idem s : strip (strip s) = strip s.
Proof.
  unfold strip at 1.
  rewrite (lstrip_fixed (strip s)) by apply strip_head_ok.
  unfold strip. apply rstrip_idem.
Qed.

Lemma strip_factor s : exists a b, s = a ++ strip s ++ b.
Proof.
  destruct (lstrip_suffix s) as [a Ha].
  destruct (rstrip_prefix (lstrip s)) as [b Hb].
  exists a, b. unfold strip. rewrite <- Hb. exact Ha.
Qed.

Lemma replace_go_single old new s :
  replace_go [old] new s 0 = replace_char old new s.
Proof.
  unfold replace_char. induction s as [|x t IH]; [reflexivity|].
  cbn [replace_go starts_with flat_map].
  change (length [old] - 1)%nat with 0%nat.
  rewrite N.eqb_sym, andb_true_r, IH.
  destruct (x =? old); reflexivity.
Qed.

Lemma replace_single old new s : replace [old] new s = replace_char old new s.
Proof. apply replace_go_single. Qed.

Lemma replace_char_In c old new s :
  In c (replace_char old new s) -> In c new \/ (In c s /\ c <> old).
Proof.
  unfold replace_char. induction s as [|x t IH]; simpl; [tauto|].
  rewrite in_app_iff. intros [Hc | Hc].
  - destruct (x =? old) eqn:E; [tauto|].
    destruct Hc as [<- | []]. apply N.eqb_neq in E. tauto.
  - tauto.
Qed.

Lemma replace_char_absent old new s :
  ~ In old s -> replace_char old new s = s.
Proof.
  unfold replace_char. induction s as [|x t IH]; simpl; [reflexivity|].
  intros Hn. destruct (x =? old) eqn:E.
  - apply N.eqb_eq in E. tauto.
  - simpl. f_equal. apply IH. tauto.
Qed.

(** ** Runs of a character class *)

Lemma run_app_le p a b : (run p a <= run p (a ++ b))%nat.
Proof.
  induction a as [|x t IH]; simpl; [lia|].
  destruct (p x); lia.
Qed.

Lemma run_app_bound p a b : (run p (a ++ b) <= length a + run p b)%nat.
Proof.
  induction a as [|x t IH]; simpl; [lia|].
  destruct (p x); lia.
Qed.

Lemma run_skipn p s : run p (skipn (run p s) s) = O.
Proof.
  induction s as [|x t IH]; simpl; [reflexivity|].
  destruct (p x) eqn:E; simpl; [exact IH|].
  rewrite E. reflexivity.
Qed.

Lemma runs_le_head p n s : runs_le p n s -> (run p s <= n)%nat.
Proof. destruct s; simpl; [lia | tauto]. Qed.

Lemma runs_le_suffix p n a b : runs_le p n (a ++ b) -> runs_le p n b.
Proof. induction a as [|x t IH]; simpl; tauto. Qed.

Lemma runs_le_prefix p n a b : runs_le p n (a ++ b) -> runs_le p n a.
Proof.
  induction a as [|x t IH]; [simpl; tauto|].
  intros [Hr Ht]. split; [|apply IH, Ht].
  pose proof (run_app_le p (x :: t) b). simpl app in *. lia.
Qed.

Lemma runs_le_skipn p n k s : runs_le p n s -> runs_le p n (skipn k s).
Proof.
  intros Hs. apply (runs_le_suffix p n (firstn k s)).
  rewrite firstn_skipn. exact Hs.
Qed.

Lemma runs_le_strip p n s : runs_le p n s -> runs_le p n (strip s).
Proof.
  intros Hs. destruct (strip_factor s) as (a & b & E).
  rewrite E in Hs. eapply runs_le_prefix, runs_le_suffix, Hs.
Qed.

(** A short block in front of a string that does not start with [p]. *)
Lemma runs_le_block p n a t :
  (length a <= n)%nat -> run p t = O -> runs_le p n t -> runs_le p n (a ++ t).
Proof.
  intros Ha Ht Hr. induction a as [|x a IH]; [exact Hr|].
  simpl in Ha. split; [|apply IH; lia].
  pose proof (run_app_bound p (x :: a) t). simpl app in *. simpl length in *. lia.
Qed.

(** A non-empty block free of [p] in front of any string. *)
Lemma runs_le_free_block p n a t :
  (forall c, In c a -> p c = false) -> a <> [] ->
  runs_le p n t -> runs_le p n (a ++ t).
Proof.
  intros Ha _ Hr. induction a as [|x a IH]; [exact Hr|].
  split.
  - simpl. rewrite (Ha x) by (left; reflexivity). lia.
  - apply IH. intros c Hc. apply Ha. right. exact Hc.
Qed.

(** ** The matcher and the substitution scan *)

Section RegexFacts.

Context `{UnicodeData}.

Lemma accept_suffix : suffix_cont accept.
Proof. intros p s e [= <-]. exists []. reflexivity. Qed.

Lemma rep_star_suffix p k : suffix_cont k -> suffix_cont (fun q s => rep_star p q s k).
Proof.
  intros Hk q s. revert q. induction s as [|x t IH]; intros q e; simpl.
  - apply Hk.
  - destruct (p x); [|apply Hk].
    destruct (rep_star p (Some x) t k) as [e'|] eqn:E.
    + intros [= <-]. destruct (IH _ _ E) as [m ->].
      exists (x :: m). reflexivity.
    + apply Hk.
Qed.

Lemma rep_suffix n p k : suffix_cont k -> suffix_cont (fun q s => rep n p q s k).
Proof.
  intros Hk. induction n as [|n IH]; intros q s e; simpl.
  - apply (rep_star_suffix p k Hk).
  - destruct s as [|x t]; [discriminate|].
    destruct (p x); [|discriminate].
    intros E. destruct (IH _ _ _ E) as [m ->]. exists (x :: m). reflexivity.
Qed.

Lemma rmatch_suffix r : forall k, suffix_cont k -> suffix_cont (fun q s => rmatch r q s k).
Proof.
  induction r as [ |c|c|p|n p|r IH|r1 IH1 r2 IH2| ]; intros k Hk q s e; simpl.
  - apply Hk.
  - destruct s as [|x t]; [discriminate|].
    destruct (x =? c); [|discriminate].
    intros E. destruct (Hk _ _ _ E) as [m ->]. exists (x :: m). reflexivity.
  - destruct s as [|x t]; [discriminate|].
    destruct (ci_match c x); [|discriminate].
    intros E. destruct (Hk _ _ _ E) as [m ->]. exists (x :: m). reflexivity.
  - destruct s as [|x t]; [discriminate|].
    destruct (p x); [|discriminate].
    intros E. destruct (Hk _ _ _ E) as [m ->]. exists (x :: m). reflexivity.
  - apply (rep_suffix n p k Hk).
  - destruct (rmatch r q s k) as [e'|] eqn:E.
    + intros [= <-]. apply (IH k Hk _ _ _ E).
    + apply Hk.
  - apply (IH1 _ (IH2 k Hk)).
  - destruct (xorb (word_before q) (word_after s)); [apply Hk | discriminate].
Qed.

Lemma match_at_suffix r prev s rest :
  match_at r prev s = Some rest -> exists m, s = m ++ rest.
Proof. apply (rmatch_suffix r accept accept_suffix). Qed.

Lemma sub_go_skip r repl m : forall prev rest,
  sub_go r repl prev (m ++ rest) (length m) = sub_go r repl (after prev m) rest 0.
Proof.
  induction m as [|x m IH]; intros prev rest; simpl.
  - destruct rest; reflexivity.
  - apply IH.
Qed.

Lemma sub_go_nomatch r repl prev x s' :
  match_at r prev (x :: s') = None ->
  sub_go r repl prev (x :: s') 0 = x :: sub_go r repl (Some x) s' 0.
Proof. intros E. cbn [sub_go]. rewrite E. reflexivity. Qed.

Lemma sub_go_match r repl prev x m rest :
  match_at r prev (x :: m ++ rest) = Some rest ->
  sub_go r repl prev (x :: m ++ rest) 0
  = repl ++ sub_go r repl (after (Some x) m) rest 0.
Proof.
  intros E. cbn [sub_go]. rewrite E.
  replace (length (x :: m ++ rest) - length rest)%nat with (S (length m))
    by (cbn [length]; rewrite length_app; lia).
  rewrite sub_go_skip. reflexivity.
Qed.

(** Where no suffix matches, the scan copies the subject. *)
Lemma sub_go_fixed r repl s : forall prev,
  (forall q a b, s = a ++ b -> match_at r q b = None) ->
  sub_go r repl prev s 0 = s.
Proof.
  induction s as [|x t IH]; intros prev Hn.
  - cbn [sub_go]. rewrite (Hn prev [] []); reflexivity.
  - rewrite sub_go_nomatch by (apply (Hn prev []); reflexivity).
    f_equal. apply IH. intros q a b ->. apply (Hn q (x :: a)). reflexivity.
Qed.

Lemma re_sub_needs c r repl s : needs c r -> ~ In c s -> re_sub r repl s = s.
Proof.
  intros Hr Hc. apply sub_go_fixed. intros q a b -> .
  destruct (match_at r q b) as [rest|] eqn:E; [|reflexivity].
  exfalso. apply Hc, in_or_app. right. exact (Hr _ _ _ E).
Qed.

Lemma sub_go_In c r repl s : forall prev skip,
  In c (sub_go r repl prev s skip) -> In c repl \/ In c s.
Proof.
  induction s as [|x t IH]; intros prev skip; cbn [sub_go].
  - destruct skip; [|simpl; tauto].
    destruct (match_at r prev []); simpl; tauto.
  - destruct skip as [|n].
    + destruct (match_at r prev (x :: t)) as [rest|].
      * destruct (length (x :: t) - length rest)%nat;
          rewrite in_app_iff; simpl; intros [Hc | Hc]; try tauto.
        -- destruct Hc as [Hc | Hc]; [tauto|].
           destruct (IH _ _ Hc); tauto.
        -- destruct (IH _ _ Hc); tauto.
      * simpl. intros [Hc | Hc]; [tauto|]. destruct (IH _ _ Hc); tauto.
    + intros Hc. destruct (IH _ _ Hc); simpl; tauto.
Qed.

Lemma re_sub_In c r repl s : In c (re_sub r repl s) -> In c repl \/ In c s.
Proof. apply sub_go_In. Qed.

(** The scan by cases, for a pattern that does not match the empty
    string. *)
Lemma sub_go_cases r repl (R : option char -> str -> str -> Prop) :
  (forall prev s, match_at r prev s <> Some s) ->
  (forall prev, R prev [] []) ->
  (forall prev x s',
      match_at r prev (x :: s') = None ->
      R (Some x) s' (sub_go r repl (Some x) s' 0) ->
      R prev (x :: s') (x :: sub_go r repl (Some x) s' 0)) ->
  (forall prev x m rest,
      match_at r prev (x :: m ++ rest) = Some rest ->
      R (after (Some x) m) rest (sub_go r repl (after (Some x) m) rest 0) ->
      R prev (x :: m ++ rest)
        (repl ++ sub_go r repl (after (Some x) m) rest 0)) ->
  forall prev s, R prev s (sub_go r repl prev s 0).
Proof.
  intros Hne Hnil Hcopy Hmatch prev s.
  remember (length s) as n eqn:En. revert prev s En.
  induction n as [n IH] using lt_wf_ind. intros prev s En.
  destruct s as [|x t].
  - cbn [sub_go].
    destruct (match_at r prev []) as [rest|] eqn:E; [|apply Hnil].
    destruct (match_at_suffix _ _ _ _ E) as [m Em].
    symmetry in Em. apply app_eq_nil in Em. destruct Em as [_ ->].
    exfalso. exact (Hne _ _ E).
  - destruct (match_at r prev (x :: t)) as [rest|] eqn:E.
    + destruct (match_at_suffix _ _ _ _ E) as [m Em].
      destruct m as [|y m].
      * simpl in Em. subst rest. exfalso. exact (Hne _ _ E).
      * injection Em as <- ->. rewrite sub_go_match by exact E.
        apply Hmatch; [exact E|].
        apply (IH (length rest)); [|reflexivity].
        subst n. simpl. rewrite length_app. lia.
    + rewrite sub_go_nomatch by exact E.
      apply Hcopy; [exact E|].
      apply (IH (length t)); [subst n; simpl; lia | reflexivity].
Qed.

(** *** Greedy repetition of a class *)

Lemma rep_star_accept p s : forall prev,
  rep_star p prev s accept = Some (skipn (run p s) s).
Proof.
  induction s as [|x t IH]; intros prev; simpl; [reflexivity|].
  destruct (p x); [|reflexivity].
  rewrite IH. reflexivity.
Qed.

Lemma rep_accept n p : forall prev s,
  rep n p prev s accept
  = if (n <=? run p s)%nat then Some (skipn (run p s) s) else None.
Proof.
  induction n as [|n IH]; intros prev s; simpl rep.
  - apply rep_star_accept.
  - destruct s as [|x t]; [reflexivity|]. simpl run.
    destruct (p x); [|reflexivity].
    rewrite IH. reflexivity.
Qed.

Lemma match_at_rep n p prev s :
  match_at (Rep n p) prev s
  = if (n <=? run p s)%nat then Some (skipn (run p s) s) else None.
Proof. apply rep_accept. Qed.

Lemma rep_nonempty n p prev s : match_at (Rep (S n) p) prev s <> Some s.
Proof.
  rewrite match_at_rep.
  destruct (S n <=? run p s)%nat eqn:E; [|discriminate].
  apply Nat.leb_le in E. intros [= Es].
  apply (f_equal (@length _)) in Es. rewrite length_skipn in Es.
  assert (run p s <= length s)%nat.
  { clear. induction s as [|x t IH]; simpl; [lia|]. destruct (p x); lia. }
  lia.
Qed.

(** Where no run is long enough, [p{n+1,}] replaces nothing. *)
Lemma re_sub_rep_fixed n p repl s :
  runs_le p n s -> re_sub (Rep (S n) p) repl s = s.
Proof.
  intros Hs. apply sub_go_fixed. intros q a b ->.
  rewrite match_at_rep.
  apply runs_le_suffix, runs_le_head in Hs.
  destruct (S n <=? run p b)%nat eqn:E; [|reflexivity].
  apply Nat.leb_le in E. lia.
Qed.

(** After [p{n+1,}] is replaced by at most [n] characters, no run of [p]
    is longer than [n]. *)
Lemma re_sub_rep_runs n p repl s :
  (length repl <= n)%nat -> runs_le p n (re_sub (Rep (S n) p) repl s).
Proof.
  intros Hrepl. unfold re_sub.
  enough (forall prev s,
    runs_le p n (sub_go (Rep (S n) p) repl prev s 0) /\
    (run p (sub_go (Rep (S n) p) repl prev s 0) <= run p s)%nat) as E
    by apply E.
  apply (sub_go_cases (Rep (S n) p) repl
           (fun _ s out => runs_le p n out /\ (run p out <= run p s)%nat)).
  - intros q t. apply rep_nonempty.
  - intros _. simpl. split; [exact I | lia].
  - intros q x s' E [IH1 IH2]. rewrite match_at_rep in E.
    destruct (S n <=? run p (x :: s'))%nat eqn:L; [discriminate|].
    apply Nat.leb_gt in L. simpl in *.
    destruct (p x); repeat split; try assumption; lia.
  - intros q x m rest E [IH1 IH2]. rewrite match_at_rep in E.
    destruct (S n <=? run p (x :: m ++ rest))%nat eqn:L; [|discriminate].
    apply Nat.leb_le in L. injection E as E.
    assert (run p rest = O) as Hrest
      by (rewrite <- E at 1; exact (run_skipn p (x :: m ++ rest))).
    split.
    + apply runs_le_block; [exact Hrepl | lia | exact IH1].
    + pose proof (run_app_bound p repl
                    (sub_go (Rep (S n) p) repl (after (Some x) m) rest 0)).
      lia.
Qed.

(** Replacing runs of [p] by a non-empty block free of [q] keeps the
    runs of [q] short. *)
Lemma re_sub_rep_keeps n p repl q k s :
  (forall c, In c repl -> q c = false) -> repl <> [] ->
  runs_le q k s -> runs_le q k (re_sub (Rep (S n) p) repl s).
Proof.
  intros Hrepl Hne. unfold re_sub.
  enough (forall prev s,
    (runs_le q k s -> runs_le q k (sub_go (Rep (S n) p) repl prev s 0)) /\
    (run q (sub_go (Rep (S n) p) repl prev s 0) <= run q s)%nat) as E
    by apply E.
  apply (sub_go_cases (Rep (S n) p) repl
           (fun _ s out => (runs_le q k s -> runs_le q k out)
                           /\ (run q out <= run q s)%nat)).
  - intros prev t. apply rep_nonempty.
  - intros _. simpl. split; [tauto | lia].
  - intros prev x s' _ [IH1 IH2]. simpl.
    destruct (q x); split; try lia; intros [Hx Hs']; split; auto; lia.
  - intros prev x m rest E [IH1 IH2].
    assert (run q (repl ++ sub_go (Rep (S n) p) repl (after (Some x) m) rest 0)
            = O) as H0.
    { destruct repl as [|y repl']; [contradiction|]. simpl.
      rewrite (Hrepl y) by (left; reflexivity). reflexivity. }
    split; [|lia].
    intros Hs. apply runs_le_free_block; [exact Hrepl | exact Hne|].
    apply IH1. apply (runs_le_suffix q k (x :: m)). exact Hs.
Qed.

(** *** Patterns that contain a mandatory literal *)

Lemma rep_star_needs c p k :
  cont_needs c k -> cont_needs c (fun q s => rep_star p q s k).
Proof.
  intros Hk q s. revert q. induction s as [|x t IH]; intros q e; simpl.
  - apply Hk.
  - destruct (p x); [|apply Hk].
    destruct (rep_star p (Some x) t k) eqn:E; [|apply Hk].
    intros _. right. exact (IH _ _ E).
Qed.

Lemma rep_needs c n p k :
  cont_needs c k -> cont_needs c (fun q s => rep n p q s k).
Proof.
  intros Hk. induction n as [|n IH]; intros q s e; simpl.
  - apply (rep_star_needs c p k Hk).
  - destruct s as [|x t]; [discriminate|].
    destruct (p x); [|discriminate].
    intros E. right. exact (IH _ _ _ E).
Qed.

Lemma rmatch_needs c r : forall k,
  cont_needs c k -> cont_needs c (fun q s => rmatch r q s k).
Proof.
  induction r as [ |c'|c'|p|n p|r IH|r1 IH1 r2 IH2| ]; intros k Hk q s e; simpl.
  - apply Hk.
  - destruct s as [|x t]; [discriminate|].
    destruct (x =? c'); [|discriminate]. intros E. right. exact (Hk _ _ _ E).
  - destruct s as [|x t]; [discriminate|].
    destruct (ci_match c' x); [|discriminate].
    intros E. right. exact (Hk _ _ _ E).
  - destruct s as [|x t]; [discriminate|].
    destruct (p x); [|discriminate]. intros E. right. exact (Hk _ _ _ E).
  - apply (rep_needs c n p k Hk).
  - destruct (rmatch r q s k) eqn:E; [|apply Hk].
    intros _. exact (IH k Hk _ _ _ E).
  - apply (IH1 _ (IH2 k Hk)).
  - destruct (xorb (word_before q) (word_after s)); [apply Hk | discriminate].
Qed.

Lemma sre_lower_cases x : sre_lower x = x \/ 97 <= sre_lower x.
Proof.
  unfold sre_lower.
  destruct (N.leb_spec 65 x); destruct (N.leb_spec x 90); simpl;
    try (right; lia);
    destruct (N.eqb_spec x 304); try (right; lia);
    destruct (N.eqb_spec x 8490); try (right; lia); left; reflexivity.
Qed.

Lemma ci_match_exact c x : c < 65 -> ci_match c x = true -> x = c.
Proof.
  intros Hc. unfold ci_match.
  assert (sre_lower c = c) as ->.
  { unfold sre_lower.
    destruct (N.leb_spec 65 c); [lia|]. simpl.
    destruct (N.eqb_spec c 304); [lia|].
    destruct (N.eqb_spec c 8490); [lia | reflexivity]. }
  destruct (N.eqb_spec c 105); [lia|].
  destruct (N.eqb_spec c 115); [lia|].
  simpl. rewrite !orb_false_r.
  intros E. apply N.eqb_eq in E.
  destruct (sre_lower_cases x); lia.
Qed.

Lemma requires_sound c r : requires c r = true ->
  forall k, cont_needs c (fun q s => rmatch r q s k).
Proof.
  induction r as [ |c'|c'|p|n p|r IH|r1 IH1 r2 IH2| ]; simpl;
    try discriminate; intros Hr k q s e.
  - apply N.eqb_eq in Hr. subst c'.
    destruct s as [|x t]; [discriminate|].
    destruct (N.eqb_spec x c); [|discriminate]. subst x. left. reflexivity.
  - apply andb_true_iff in Hr. destruct Hr as [Hr Hc].
    apply N.eqb_eq in Hr. apply N.ltb_lt in Hc. subst c'.
    destruct s as [|x t]; [discriminate|].
    destruct (ci_match c x) eqn:E; [|discriminate].
    apply (ci_match_exact c x Hc) in E. subst x. left. reflexivity.
  - apply orb_true_iff in Hr. destruct Hr as [Hr | Hr].
    + apply (IH1 Hr).
    + apply (rmatch_needs c r1 _ (IH2 Hr k)).
Qed.

Lemma requires_needs c r : requires c r = true -> needs c r.
Proof. intros Hr prev s rest. apply (requires_sound c r Hr accept). Qed.

End RegexFacts.

(** ** The answer post-processor *)

Section Clean.

Context `{UnicodeData}.

Lemma needs_bracket_id : needs (ch "[") pat_bracket_id.
Proof. apply requires_needs. reflexivity. Qed.

Lemma needs_paren_id : needs (ch "(") pat_paren_id.
Proof. apply requires_needs. reflexivity. Qed.

Lemma needs_bare_id : needs (ch "=") pat_bare_id.
Proof. apply requires_needs. reflexivity. Qed.

Lemma needs_empty_brackets : needs (ch "[") pat_empty_brackets.
Proof. apply requires_needs. reflexivity. Qed.

Lemma needs_empty_parens : needs (ch "(") pat_empty_parens.
Proof. apply requires_needs. reflexivity. Qed.

Lemma needs_context : needs (ch ":") pat_context.
Proof. apply requires_needs. reflexivity. Qed.

Lemma clean_plain x :
  plain x ->
  clean_response_text x
  = strip (re_sub pat_blanks (lit " ")
             (re_sub pat_newlines [10; 10]
                (replace_char (ch "*") (lit " ") x))).
Proof.
  intros (Hp & Hb & He & Hc).
  destruct x as [|c t]; [reflexivity|].
  set (x := c :: t) in *. unfold clean_response_text. fold x.
  change (lit "*") with [ch "*"]. rewrite replace_single.
  rewrite (re_sub_needs _ _ _ x needs_bracket_id Hb).
  rewrite (re_sub_needs _ _ _ x needs_paren_id Hp).
  rewrite (re_sub_needs _ _ _ x needs_bare_id He).
  rewrite (re_sub_needs _ _ _ x needs_empty_brackets Hb).
  rewrite (re_sub_needs _ _ _ x needs_empty_parens Hp).
  rewrite (re_sub_needs _ _ _ _ needs_context).
  - apply strip_idem.
  - intros Hin.
    apply strip_In, re_sub_In in Hin. destruct Hin as [Hin | Hin].
    { simpl in Hin. destruct Hin as [Hin | []]. discriminate. }
    apply re_sub_In in Hin. destruct Hin as [Hin | Hin].
    { simpl in Hin. destruct Hin as [Hin | [Hin | []]]; discriminate. }
    apply replace_char_In in Hin. destruct Hin as [Hin | [Hin _]].
    { simpl in Hin. destruct Hin as [Hin | []]. discriminate. }
    exact (Hc Hin).
Qed.

Lemma clean_plain_In c x :
  plain x -> In c (clean_response_text x) ->
  c = 32 \/ c = 10 \/ (In c x /\ c <> ch "*").
Proof.
  intros Hx. rewrite (clean_plain x Hx). intros Hin.
  apply strip_In, re_sub_In in Hin. destruct Hin as [Hin | Hin].
  { simpl in Hin. destruct Hin as [Hin | []]. left. symmetry. exact Hin. }
  apply re_sub_In in Hin. destruct Hin as [Hin | Hin].
  { simpl in Hin. right. left. destruct Hin as [Hin | [Hin | []]]; symmetry; exact Hin. }
  apply replace_char_In in Hin. destruct Hin as [Hin | Hin].
  { simpl in Hin. destruct Hin as [Hin | []]. left. symmetry. exact Hin. }
  right. right. exact Hin.
Qed.

Lemma clean_normal x : plain x -> normal (clean_response_text x).
Proof.
  intros Hx.
  assert (forall c, c <> 32 -> c <> 10 -> ~ In c x \/ c = ch "*" ->
                    ~ In c (clean_response_text x)) as Hnot.
  { intros c H32 H10 Hc Hin.
    destruct (clean_plain_In c x Hx Hin) as [E | [E | [E1 E2]]]; tauto. }
  destruct Hx as (Hp & Hb & He & Hc).
  assert (plain x) as Hx by (repeat split; assumption).
  repeat split.
  - apply Hnot; [discriminate | discriminate | tauto].
  - apply Hnot; [discriminate | discriminate | tauto].
  - apply Hnot; [discriminate | discriminate | tauto].
  - apply Hnot; [discriminate | discriminate | tauto].
  - apply Hnot; [discriminate | discriminate | right; reflexivity].
  - rewrite (clean_plain x Hx). apply runs_le_strip.
    apply (re_sub_rep_keeps 1 is_blank (lit " ") is_newline 2).
    + intros c [<- | []]. reflexivity.
    + discriminate.
    + apply (re_sub_rep_runs 2 is_newline). simpl. lia.
  - rewrite (clean_plain x Hx). apply runs_le_strip.
    apply (re_sub_rep_runs 1 is_blank). simpl. lia.
  - rewrite (clean_plain x Hx). apply strip_idem.
Qed.

Lemma clean_fixed w : normal w -> clean_response_text w = w.
Proof.
  intros (Hp & Hs & Hn & Hb & Hw).
  rewrite (clean_plain w Hp).
  rewrite (replace_char_absent _ _ w Hs).
  rewrite (re_sub_rep_fixed 2 is_newline _ w Hn).
  rewrite (re_sub_rep_fixed 1 is_blank _ w Hb).
  exact Hw.
Qed.

End Clean.

(** The emphasis markers are blanked after the empty parentheses were
    looked for, so one pass leaves [( )] and the next removes it. *)
Lemma clean_paren_star `{UnicodeData} :
  clean_response_text (lit "(*)") = lit "( )" /\
  clean_response_text (lit "( )") = [].
Proof. split; vm_compute; reflexivity. Qed.

(** Each of the four characters [plain] excludes, outside a citation
    token, can make a second pass change the text. *)
Example clean_twice_parens `{UnicodeData} :
  clean_response_text (lit "(())") = lit "( )" /\
  clean_response_text (lit "( )") = [].
Proof. split; vm_compute; reflexivity. Qed.

Example clean_twice_brackets `{UnicodeData} :
  clean_response_text (lit "[[]]") = lit "[ ]" /\
  clean_response_text (lit "[ ]") = [].
Proof. split; vm_compute; reflexivity. Qed.

Example clean_twice_equals `{UnicodeData} :
  clean_response_text (lit "id=id=1 2") = lit "id= 2" /\
  clean_response_text (lit "id= 2") = [].
Proof. split; vm_compute; reflexivity. Qed.

Example clean_twice_colon `{UnicodeData} :
  clean_response_text (lit "a CONTEXT:USER QUERY:Answer: b") = lit "a  b" /\
  clean_response_text (lit "a  b") = lit "a b".
Proof. split; vm_compute; reflexivity. Qed.


Example clean_sample_plain_text `{UnicodeData} :
  clean_response_text sample_plain_text
  = lit "Do your duty , without attachment." ++ [10; 10]
      ++ lit "The rest follows.".
Proof. vm_compute. reflexivity. Qed.

(** C3: the example of the design document.  The input
    ["Action (id=12, score=0.8421) matters. *Do* it. [id=7]"] is cleaned to
    ["Action matters. Do it."]. *)
Theorem clean_response_text_example `{UnicodeData} :
  clean_response_text
    (lit "Action (id=12, score=0.8421) matters. *Do* it. [id=7]")
  = lit "Action matters. Do it.".
Proof. vm_compute. reflexivity. Qed.

(** ** The prompt composer *)

Open Scope Z_scope.

Section Prompt.

Context `{UnicodeData} `{Numerics}.

Import Server.

Lemma context_loop_spec retrieved max_context_chars :
  forall total_len context_parts,
  exists included excluded,
    map format_entry retrieved = included ++ excluded /\
    context_loop retrieved max_context_chars total_len context_parts
    = context_parts ++ included /\
    (included = [] \/ total_len + sum_len included <= max_context_chars) /\
    match excluded with
    | [] => True
    | entry :: _ =>
        total_len + sum_len included + len entry > max_context_chars
    end.
Proof.
  induction retrieved as [|p rest IH]; intros total_len context_parts.
  - exists [], []. simpl. rewrite app_nil_r. auto.
  - cbn [context_loop map].
    destruct (Z.gtb_spec (total_len + len (format_entry p)) max_context_chars)
      as [Hover | Hfits].
    + exists [], (format_entry p :: map format_entry rest).
      simpl. rewrite app_nil_r. repeat split; auto. lia.
    + destruct (IH (total_len + len (format_entry p))
                  (context_parts ++ [format_entry p]))
        as (included & excluded & Hsplit & Hloop & Hsum & Hstop).
      exists (format_entry p :: included), excluded.
      rewrite Hloop, Hsplit, <- app_assoc. simpl.
      repeat split; auto.
      * right. destruct Hsum as [-> | Hsum]; simpl; lia.
      * destruct excluded; [exact I | lia].
Qed.

(** The block that [join] builds has one newline between two entries,
    which the loop does not count. *)
Lemma join_len (parts : list str) :
  parts <> [] ->
  len (join nl parts) = sum_len parts + Z.of_nat (length parts) - 1.
Proof.
  induction parts as [|p ps IH]; [contradiction|]. intros _.
  destruct ps as [|q ps].
  - cbn [join sum_len length]. change (Z.of_nat 1) with 1. lia.
  - change (join nl (p :: q :: ps)) with (p ++ nl ++ join nl (q :: ps)).
    specialize (IH ltac:(discriminate)).
    change (sum_len (p :: q :: ps)) with (len p + sum_len (q :: ps)).
    unfold len in *. rewrite !length_app, !Nat2Z.inj_add, IH.
    change (length nl) with 1%nat.
    change (length (p :: q :: ps)) with (S (length (q :: ps))).
    rewrite Nat2Z.inj_succ. simpl Z.of_nat at 1. lia.
Qed.

(** C1: for a budget [max_context_chars] (a number of characters, so not
    negative), the entries in the CONTEXT block of the prompt are a prefix
    of the formatted passages, their total length is at most the budget,
    and the first passage left out is one whose entry would push the total
    over it. *)
Theorem make_prompt_context_budget
  (query : str) (retrieved : list passage) (max_context_chars : Z) :
  0 <= max_context_chars ->
  exists included excluded,
    map format_entry retrieved = included ++ excluded /\
    make_prompt query retrieved max_context_chars
    = instruction ++ nl ++ nl ++ lit "CONTEXT:" ++ nl
        ++ join nl included ++ nl
        ++ lit "USER QUERY:" ++ nl ++ query ++ nl ++ nl ++ lit "Answer:" /\
    sum_len included <= max_context_chars /\
    match excluded with
    | [] => True
    | entry :: _ => sum_len included + len entry > max_context_chars
    end.
Proof.
  intros Hbudget.
  destruct (context_loop_spec retrieved max_context_chars 0 [])
    as (included & excluded & Hsplit & Hloop & Hsum & Hstop).
  exists included, excluded. unfold make_prompt. rewrite Hloop. simpl app.
  repeat split; auto.
  destruct Hsum as [-> | Hsum]; simpl; lia.
Qed.

End Prompt.

Lemma make_prompt_context_budget_witness :
  0 <= 60 /\
  exists included excluded,
    map (@Server.format_entry fixed_point) sample_retrieved
    = included ++ excluded /\
    @Server.make_prompt fixed_point (lit "What is duty?") sample_retrieved 60
    = Server.instruction ++ Server.nl ++ Server.nl ++ lit "CONTEXT:"
        ++ Server.nl ++ join Server.nl included ++ Server.nl
        ++ lit "USER QUERY:" ++ Server.nl ++ lit "What is duty?"
        ++ Server.nl ++ Server.nl ++ lit "Answer:" /\
    sum_len included <= 60 /\
    match excluded with
    | [] => True
    | entry :: _ => sum_len included + len entry > 60
    end.
Proof.
  assert (0 <= 60) as Hbudget by lia.
  split; [exact Hbudget|].
  exact (@make_prompt_context_budget fixed_point (lit "What is duty?")
           sample_retrieved 60 Hbudget).
Defined.

(** The first sample entry takes 59 of the 60 characters; the second, and
    with it the shorter third, is left out. *)
Example context_loop_sample :
  @Server.context_loop fixed_point sample_retrieved 60 0 []
  = [ lit "(id=12, score=0.8421)" ++ Server.nl
        ++ lit "You have a right to action alone." ++ Server.nl
        ++ lit "---" ++ Server.nl ].
Proof. vm_compute. reflexivity. Qed.

Close Scope Z_scope.

(** ** The retriever *)

Open Scope Z_scope.

Section Retriever.

Context `{Numerics}.

Import Server.

Lemma lstrip_blank (s : str) :
  (forall c, In c s -> is_space c = true) -> lstrip s = [].
Proof.
  induction s as [|x t IH]; intros Hs; simpl; [reflexivity|].
  rewrite (Hs x) by (left; reflexivity).
  apply IH. intros c Hc. apply Hs. right. exact Hc.
Qed.

Lemma strip_blank (s : str) :
  (forall c, In c s -> is_space c = true) -> strip s = [].
Proof. intros Hs. unfold strip. rewrite (lstrip_blank s Hs). reflexivity. Qed.

(** C6: on an empty or white-space-only query, [retrieve] returns the
    empty list; it raises nothing and calls neither the encoder nor the
    index, whatever [top_k] is. *)
Theorem retrieve_blank_query
  (query : str) (index : option vector_index)
  (texts_list : option (list str)) (embedder_local : option encoder)
  (top_k : Z) :
  (forall c, In c query -> is_space c = true) ->
  retrieve query index texts_list embedder_local top_k = ([], Returned []).
Proof.
  intros Hblank. unfold retrieve.
  rewrite (strip_blank query Hblank). simpl.
  rewrite orb_true_r. reflexivity.
Qed.

(** The loop keeps the positions inside the corpus, with their texts. *)
Lemma retrieve_loop_spec (corpus : list str) (pairs : list (Z * float)) :
  forall results,
  exists found,
    retrieve_loop pairs (Some corpus) results = ([], Returned (results ++ found)) /\
    (length found <= length pairs)%nat /\
    Forall (in_corpus corpus) found.
Proof.
  induction pairs as [|[idx score] rest IH]; intros results.
  - exists []. simpl. rewrite app_nil_r. repeat split; auto.
  - cbn [retrieve_loop].
    destruct (Z.leb_spec 0 idx) as [Hlo | Hlo].
    + cbn [deref bind ret].
      destruct (Z.ltb_spec idx (Z.of_nat (length corpus))) as [Hhi | Hhi].
      * destruct (IH (results ++ [(idx, score, nth (Z.to_nat idx) corpus [])]))
          as (found & Hloop & Hlen & Hall).
        destruct (retrieve_loop rest (Some corpus) _) as [t r].
        injection Hloop as -> ->.
        exists ((idx, score, nth (Z.to_nat idx) corpus []) :: found).
        rewrite <- app_assoc. simpl. repeat split; [lia|].
        constructor; [|exact Hall].
        split; [lia|]. apply nth_error_nth'. lia.
      * destruct (IH results) as (found & Hloop & Hlen & Hall).
        destruct (retrieve_loop rest (Some corpus) _) as [t r].
        injection Hloop as -> ->.
        exists found. simpl. repeat split; [lia | exact Hall].
    + destruct (IH results) as (found & Hloop & Hlen & Hall).
      exists found. repeat split; [exact Hloop | simpl; lia | exact Hall].
Qed.

(** [retrieve] returns whenever the encoder and the index do. *)
Lemma retrieve_returns
  (query : str) (index : vector_index) (corpus : list str)
  (embedder_local : encoder) (top_k : Z) q_emb distances indices :
  embedder_local query = Returned q_emb ->
  index (normalize_L2 q_emb) top_k = Returned (distances, indices) ->
  exists trace results,
    retrieve query (Some index) (Some corpus) (Some embedder_local) top_k
    = (trace, Returned results).
Proof.
  intros Henc Hsearch. unfold retrieve.
  destruct (is_empty query || is_empty (strip query)).
  - exists [], []. reflexivity.
  - cbn [deref bind ret call]. rewrite Henc. cbn [bind call].
    rewrite Hsearch.
    destruct (retrieve_loop_spec corpus (combine indices distances) [])
      as (found & Hloop & _).
    rewrite Hloop. eexists _, _. reflexivity.
Qed.

(** C7: for a query with a character that is not white space (whatever
    [top_k] is), and for any query when [top_k] is not negative: if the
    search of the index returns at most [top_k] positions, the list
    [retrieve] returns has at most [top_k] results, every result's id lies
    in [0, corpus_size) and its text is the corpus text at that id. *)
Theorem retrieve_results_in_corpus
  (query : str) (index : vector_index) (corpus : list str)
  (embedder_local : encoder) (top_k : Z) trace results :
  strip query <> [] \/ 0 <= top_k ->
  (forall q distances indices,
      index q top_k = Returned (distances, indices) ->
      Z.of_nat (length indices) <= top_k) ->
  retrieve query (Some index) (Some corpus) (Some embedder_local) top_k
  = (trace, Returned results) ->
  Z.of_nat (length results) <= top_k /\
  Forall (in_corpus corpus) results.
Proof.
  intros Hquery Hfaiss. unfold retrieve.
  destruct (is_empty query || is_empty (strip query)) eqn:Hblank.
  - intros [= _ <-]. split; [|constructor].
    destruct Hquery as [Hquery | Hk]; [|simpl; lia].
    contradiction Hquery.
    destruct query as [|c query']; [reflexivity|].
    simpl in Hblank. destruct (strip (c :: query')); [reflexivity | discriminate].
  - cbn [deref bind ret call].
    destruct (embedder_local query) as [q_emb|e]; [|discriminate].
    cbn [bind call].
    destruct (index (normalize_L2 q_emb) top_k) as [[distances indices]|e] eqn:Hsearch;
      [|discriminate].
    destruct (retrieve_loop_spec corpus (combine indices distances) [])
      as (found & Hloop & Hlen & Hall).
    rewrite Hloop. intros [= _ <-]. simpl. split; [|exact Hall].
    apply Hfaiss in Hsearch.
    rewrite length_combine in Hlen. lia.
Qed.

End Retriever.

Lemma retrieve_blank_query_witness :
  (forall c, In c (lit "   ") -> is_space c = true) /\
  @Server.retrieve fixed_point (lit "   ") None None None 5 = ([], Returned []).
Proof.
  assert (forall c, In c (lit "   ") -> is_space c = true) as Hblank.
  { intros c Hc. simpl in Hc. destruct Hc as [<- | [<- | [<- | []]]]; reflexivity. }
  split; [exact Hblank|].
  exact (@retrieve_blank_query fixed_point (lit "   ") None None None 5 Hblank).
Defined.

Example retrieve_sample :
  @Server.retrieve fixed_point (lit "B-like") (Some sample_index)
    (Some sample_corpus) (Some sample_encoder) 3
  = ([Encode (lit "B-like"); IndexSearch 3], Returned [(1, 9000, lit "B")]).
Proof. vm_compute. reflexivity. Qed.

Lemma retrieve_results_in_corpus_witness :
  (strip (lit "B-like") <> [] \/ 0 <= 3) /\
  (forall q distances indices,
      sample_index q 3 = Returned (distances, indices) ->
      Z.of_nat (length indices) <= 3) /\
  Z.of_nat (length [((1, 9000, lit "B") : @Server.passage fixed_point)]) <= 3 /\
  Forall (@in_corpus fixed_point sample_corpus) [(1, 9000, lit "B")].
Proof.
  assert (strip (lit "B-like") <> [] \/ 0 <= 3) as Hquery by (right; lia).
  assert (forall q distances indices,
             sample_index q 3 = Returned (distances, indices) ->
             Z.of_nat (length indices) <= 3) as Hfaiss.
  { intros q distances indices [= _ <-]. simpl. lia. }
  split; [exact Hquery|]. split; [exact Hfaiss|].
  exact (@retrieve_results_in_corpus fixed_point (lit "B-like") sample_index
           sample_corpus sample_encoder 3 _ _ Hquery Hfaiss retrieve_sample).
Defined.

Close Scope Z_scope.

(** ** Generation, speech and the turn *)

Open Scope Z_scope.

Section Turn.

Context `{UnicodeData} `{Numerics}.

Import Server.

Lemma safe_generate_returns (w : world) (prompt : str) :
  exists t raw, safe_generate w prompt = (t, Returned raw).
Proof.
  unfold safe_generate, generate_with_ollama, generate_with_transformers,
    catch, call, ret.
  destruct (_HAS_OLLAMA w), (ollama_chat w prompt), (text_generation w prompt);
    eexists _, _; reflexivity.
Qed.

Lemma safe_generate_apology (w : world) (prompt : str) :
  (_HAS_OLLAMA w = true -> raises (ollama_chat w prompt)) ->
  raises (text_generation w prompt) ->
  exists t, safe_generate w prompt = (t, Returned apology).
Proof.
  intros Hollama [e2 Htransformers].
  unfold safe_generate, generate_with_ollama, generate_with_transformers,
    catch, call, ret.
  rewrite Htransformers.
  destruct (_HAS_OLLAMA w).
  - destruct (Hollama eq_refl) as [e1 ->]. eexists. reflexivity.
  - eexists. reflexivity.
Qed.

Lemma generate_tts_audio_returns (w : world) (text preferred : str) :
  exists t wav, generate_tts_audio w text preferred = (t, Returned wav).
Proof.
  unfold generate_tts_audio, catch, bind, call, ret, raise.
  destruct (str_eqb preferred (lit "piper") && _HAS_PIPER w),
    (piper_voice_ready w), (piper_synthesize_wav w text) as [[|b bs]|],
    (pyttsx3_save_to_file w text), (sapi_speak w text);
    simpl; eexists _, _; reflexivity.
Qed.

Lemma generate_tts_audio_none (w : world) (text preferred : str) :
  all_tts_fail w text ->
  exists t, generate_tts_audio w text preferred = (t, Returned None).
Proof.
  intros (Hpiper & [e2 Hpyttsx3] & [e3 Hsapi]).
  unfold generate_tts_audio, catch, bind, call, ret, raise.
  rewrite Hpyttsx3, Hsapi.
  destruct Hpiper as [Hp | [Hp | [[e1 Hp] | Hp]]]; rewrite Hp;
    rewrite ?andb_false_r;
    destruct (str_eqb preferred (lit "piper")), (_HAS_PIPER w),
      (piper_voice_ready w);
    simpl; try (eexists; reflexivity);
    destruct (piper_synthesize_wav w text) as [[|b bs]|];
    simpl; eexists; reflexivity.
Qed.

(** From the prompt on, a turn always ends with status 200. *)
Lemma generate_and_respond_spec (cfg : config) (w : world)
  (text : str) (retrieved : list passage) t1 raw t2 wav :
  safe_generate w (make_prompt text retrieved 2000) = (t1, Returned raw) ->
  generate_tts_audio w (clean_response_text raw) (lit "piper")
  = (t2, Returned wav) ->
  exists r,
    generate_and_respond cfg w text retrieved
    = (t1 ++ t2, Returned (JTurn r, 200)) /\
    transcription r = text /\
    response r = clean_response_text raw /\
    response_raw r = raw /\
    audio r = match wav with
              | Some (b :: bs) => Some (hex (b :: bs))
              | _ => None
              end.
Proof.
  intros Hgen Htts. unfold generate_and_respond.
  rewrite Hgen. cbn [bind]. rewrite Htts. cbn [catch bind ret].
  rewrite app_nil_r. eexists. split; [reflexivity|].
  simpl. repeat split; reflexivity.
Qed.

Lemma process_audio_after_retrieval (cfg : config) (w : world) (g : globals)
  (audio_bytes : bytes) t0 text retrieved t1 resp :
  transcribe_and_retrieve cfg g audio_bytes
  = (t0, Returned (inr (text, retrieved))) ->
  generate_and_respond cfg w text retrieved = (t1, Returned resp) ->
  process_audio cfg w g audio_bytes = (t0 ++ t1, resp).
Proof.
  intros Hfront Hback. unfold process_audio.
  rewrite Hfront. cbn [bind]. rewrite Hback. reflexivity.
Qed.

(** A turn that got its transcription and passages ends with status
    200, whatever the generation and speech back ends do. *)
Lemma process_audio_ok_after_retrieval (cfg : config) (w : world)
  (g : globals) (audio_bytes : bytes) t0 text retrieved :
  transcribe_and_retrieve cfg g audio_bytes
  = (t0, Returned (inr (text, retrieved))) ->
  exists t r, process_audio cfg w g audio_bytes = (t, (JTurn r, 200)).
Proof.
  intros Hfront.
  destruct (safe_generate_returns w (make_prompt text retrieved 2000))
    as (t1 & raw & Hgen).
  destruct (generate_tts_audio_returns w (clean_response_text raw) (lit "piper"))
    as (t2 & wav & Htts).
  destruct (generate_and_respond_spec cfg w text retrieved _ _ _ _ Hgen Htts)
    as (r & Hback & _).
  exists (t0 ++ t1 ++ t2), r.
  apply (process_audio_after_retrieval cfg w g audio_bytes _ _ _ _ _ Hfront Hback).
Qed.

Lemma plain_apology : plain apology.
Proof. unfold plain. vm_compute. intuition discriminate. Qed.

Lemma clean_apology : clean_response_text apology = apology.
Proof. rewrite (clean_plain apology plain_apology). vm_compute. reflexivity. Qed.

(** C4: when Ollama (if it is installed) and transformers both raise on
    the prompt of the turn, [safe_generate] returns the apology, and the
    turn ends with status 200 and the apology as [response]. *)
Theorem generation_failure_apology (cfg : config) (w : world) (g : globals)
  (audio_bytes : bytes) t0 text retrieved :
  transcribe_and_retrieve cfg g audio_bytes
  = (t0, Returned (inr (text, retrieved))) ->
  (_HAS_OLLAMA w = true ->
   raises (ollama_chat w (make_prompt text retrieved 2000))) ->
  raises (text_generation w (make_prompt text retrieved 2000)) ->
  snd (safe_generate w (make_prompt text retrieved 2000)) = Returned apology /\
  exists t r,
    process_audio cfg w g audio_bytes = (t, (JTurn r, 200)) /\
    transcription r = text /\
    response r = apology /\
    response_raw r = apology.
Proof.
  intros Hfront Hollama Htransformers.
  destruct (safe_generate_apology w _ Hollama Htransformers) as [t1 Hgen].
  split; [rewrite Hgen; reflexivity|].
  destruct (generate_tts_audio_returns w (clean_response_text apology) (lit "piper"))
    as (t2 & wav & Htts).
  destruct (generate_and_respond_spec cfg w text retrieved _ _ _ _ Hgen Htts)
    as (r & Hback & Htr & Hresp & Hraw & _).
  exists (t0 ++ t1 ++ t2), r. split.
  - apply (process_audio_after_retrieval cfg w g audio_bytes _ _ _ _ _ Hfront Hback).
  - rewrite Hresp, clean_apology. auto.
Qed.

(** C5: when every speech back end fails on the answer of the turn,
    [generate_tts_audio] returns [None] and the turn ends with status 200
    and a null [audio]. *)
Theorem synthesis_failure_null_audio (cfg : config) (w : world) (g : globals)
  (audio_bytes : bytes) t0 text retrieved t1 raw :
  transcribe_and_retrieve cfg g audio_bytes
  = (t0, Returned (inr (text, retrieved))) ->
  safe_generate w (make_prompt text retrieved 2000) = (t1, Returned raw) ->
  all_tts_fail w (clean_response_text raw) ->
  snd (generate_tts_audio w (clean_response_text raw) (lit "piper"))
  = Returned None /\
  exists t r,
    process_audio cfg w g audio_bytes = (t, (JTurn r, 200)) /\
    response r = clean_response_text raw /\
    audio r = None.
Proof.
  intros Hfront Hgen Hfail.
  destruct (generate_tts_audio_none w _ (lit "piper") Hfail) as [t2 Htts].
  split; [rewrite Htts; reflexivity|].
  destruct (generate_and_respond_spec cfg w text retrieved _ _ _ _ Hgen Htts)
    as (r & Hback & _ & Hresp & _ & Haudio).
  exists (t0 ++ t1 ++ t2), r. split.
  - apply (process_audio_after_retrieval cfg w g audio_bytes _ _ _ _ _ Hfront Hback).
  - auto.
Qed.

(** ** The health endpoint *)

Lemma initialize_models_loaded (s : startup) (g0 g : globals) :
  initialize_models s g0 = (g, Returned tt) -> all_models_loaded g.
Proof.
  unfold initialize_models.
  destruct (load_whisper s); [|discriminate].
  destruct (load_dataframe s) as [d|]; [|discriminate].
  destruct (choose_text_col d) as [t [text_col|]]; [|discriminate].
  destruct (load_encoder s); [|discriminate].
  destruct (if index_file_exists s then _ else _); [|discriminate].
  intros [= <-]. repeat split; discriminate.
Qed.

(** C9: in every state in which the server answers requests, the
    [models_loaded] field of the [/health] response is true exactly when
    the transcriber, the encoder and the index are all loaded.  The field
    itself looks only at the transcriber; [initialize_models] loads it
    first and the script serves only when the encoder and the index have
    been loaded after it. *)
Theorem health_models_loaded (g : globals) :
  serving g ->
  exists flag,
    health g = (JHealth (lit "healthy") flag, 200) /\
    (flag = true <-> all_models_loaded g).
Proof.
  intros [-> | [s Hmain]].
  - exists false. split; [reflexivity|]. split; [discriminate|].
    intros (Hwhisper & _). contradiction Hwhisper. reflexivity.
  - assert (all_models_loaded g) as Hloaded.
    { unfold main in Hmain.
      destruct (initialize_models s no_globals) as [g' [[]|e]] eqn:Hinit;
        [|discriminate].
      injection Hmain as <-. exact (initialize_models_loaded s _ _ Hinit). }
    exists true. split; [|tauto].
    unfold health. destruct Hloaded as (Hwhisper & _).
    destruct (whisper_model g); [reflexivity | contradiction].
Qed.

End Turn.

Close Scope Z_scope.

(** ** The exit phrases and the request body of the FAISS server *)

Open Scope Z_scope.

Lemma starts_with_app (needle rest : str) :
  starts_with needle (needle ++ rest) = true.
Proof.
  induction needle as [|x n IH]; simpl; [reflexivity|].
  rewrite N.eqb_refl. exact IH.
Qed.

Lemma contains_app (needle pre post : str) :
  contains needle (pre ++ needle ++ post) = true.
Proof.
  induction pre as [|x pre IH]; simpl.
  - destruct (needle ++ post) eqn:E; simpl; rewrite <- E, starts_with_app;
      reflexivity.
  - rewrite IH. apply orb_true_r.
Qed.

Lemma ascii_lower_ascii (c : char) : (ascii_lower c < 128)%N -> (c < 128)%N.
Proof.
  unfold ascii_lower.
  destruct (N.leb_spec 65 c); destruct (N.leb_spec c 90); simpl; lia.
Qed.

Lemma lower_go_ascii `{UnicodeData} (mid post : str) :
  (forall c, In c mid -> (c < 128)%N) ->
  forall before, exists tail,
    lower_go before (mid ++ post) = map ascii_lower mid ++ tail.
Proof.
  induction mid as [|c mid IH]; intros Hmid before.
  - exists (lower_go before post). reflexivity.
  - destruct (IH (fun x Hx => Hmid x (or_intror Hx)) (c :: before)) as [tail E].
    exists tail. cbn [app lower_go map].
    assert ((c <? 128)%N = true) as -> by (apply N.ltb_lt, Hmid; left; reflexivity).
    rewrite E. reflexivity.
Qed.

Lemma lower_ascii_factor `{UnicodeData} (pre mid post : str) :
  (forall c, In c mid -> (c < 128)%N) ->
  exists head tail, lower (pre ++ mid ++ post) = head ++ map ascii_lower mid ++ tail.
Proof.
  intros Hmid. unfold lower. generalize (@nil char) as before.
  induction pre as [|c pre IH]; intros before.
  - destruct (lower_go_ascii mid post Hmid before) as [tail E].
    exists [], tail. exact E.
  - destruct (IH (c :: before)) as (head & tail & E).
    exists ((if (c <? 128)%N then [ascii_lower c] else uni_lower before c (pre ++ mid ++ post))
              ++ head), tail.
    cbn [app lower_go]. rewrite E, <- app_assoc. reflexivity.
Qed.

Lemma exit_phrases_ascii (phrase : str) (c : char) :
  In phrase FaissSemantic.EXIT_PHRASES -> In c phrase -> (c < 128)%N.
Proof.
  assert (forallb (forallb (fun c => c <? 128)%N) FaissSemantic.EXIT_PHRASES = true)
    as Hall by reflexivity.
  intros Hp Hc. rewrite forallb_forall in Hall.
  specialize (Hall phrase Hp). rewrite forallb_forall in Hall.
  apply N.ltb_lt, Hall, Hc.
Qed.

Lemma decode_int16_length (b : bytes) :
  length (decode_int16 b) = Nat.div2 (length b).
Proof.
  enough (forall n (b : bytes), (length b <= n)%nat ->
            length (decode_int16 b) = Nat.div2 (length b)) as E
    by (apply (E (length b)); lia).
  clear b. induction n as [|n IH]; intros b Hb.
  - destruct b; [reflexivity | simpl in Hb; lia].
  - destruct b as [|lo [|hi rest]]; [reflexivity | reflexivity|].
    cbn [decode_int16 length Nat.div2]. f_equal. apply IH. simpl in Hb. lia.
Qed.

Lemma length_removelast_odd (b : bytes) :
  Z.of_nat (length b) mod 2 <> 0 ->
  Z.of_nat (length (removelast b)) mod 2 = 0 /\
  Nat.div2 (length (removelast b)) = Nat.div2 (length b).
Proof.
  intros Hodd.
  destruct b as [|x b] using rev_ind; [contradiction Hodd; reflexivity|].
  rewrite removelast_last, length_app. simpl length.
  rewrite length_app in Hodd. simpl length in Hodd.
  replace (length b + 1)%nat with (S (length b)) in * by lia.
  assert (Z.of_nat (length b) mod 2 = 0) as Heven.
  { rewrite Nat2Z.inj_succ in Hodd.
    pose proof (Z.mod_pos_bound (Z.of_nat (length b)) 2 ltac:(lia)).
    pose proof (Z.mod_pos_bound (Z.succ (Z.of_nat (length b))) 2 ltac:(lia)).
    rewrite <- Z.add_1_r in *.
    rewrite Z.add_mod in Hodd by lia.
    destruct (Z.eq_dec (Z.of_nat (length b) mod 2) 0) as [E | E]; [exact E|].
    assert (Z.of_nat (length b) mod 2 = 1) as E1 by lia.
    rewrite E1 in Hodd. contradiction Hodd. reflexivity. }
  split; [exact Heven|].
  assert (Nat.even (length b) = true) as Hev.
  { apply Nat.even_spec. exists (Z.to_nat (Z.of_nat (length b) / 2)).
    apply Nat2Z.inj. rewrite Nat2Z.inj_mul, Z2Nat.id.
    - pose proof (Z.div_mod (Z.of_nat (length b)) 2 ltac:(lia)). simpl Z.of_nat. lia.
    - apply Z.div_pos; lia. }
  destruct (Nat.even_spec (length b)) as [Hsp _].
  destruct (Hsp Hev) as [k Hk]. rewrite Hk.
  rewrite Nat.div2_succ_double, Nat.div2_double. reflexivity.
Qed.

Section Faiss.

Context `{UnicodeData} `{Numerics}.

Import FaissSemantic.

Lemma synthesize_speech_returns (g : globals) (text : str) :
  exists t wav,
    synthesize_speech g text = (t, Returned wav) /\
    Forall (fun ev => exists spoken, ev = PiperSynthesize spoken) t.
Proof.
  unfold synthesize_speech.
  destruct (piper_voice g) as [piper|].
  - match goal with
    | |- context [call (PiperSynthesize ?txt) (piper ?txt)] =>
        destruct (piper txt) as [wav|e]; cbn [catch bind call ret]
    end.
    + eexists _, _. split; [reflexivity|].
      repeat constructor. eexists. reflexivity.
    + eexists _, _. split; [reflexivity|].
      repeat constructor. eexists. reflexivity.
  - exists [], None. split; [reflexivity | constructor].
Qed.

Lemma decode_audio_returns (audio_data : bytes) :
  exists samples,
    decode_audio audio_data = Returned samples /\
    samples = decode_int16 (if Z.of_nat (length audio_data) mod 2 =? 0
                            then audio_data else removelast audio_data) /\
    Z.of_nat (length samples) = Z.of_nat (length audio_data) / 2.
Proof.
  unfold decode_audio, frombuffer_int16.
  destruct (Z.eqb_spec (Z.of_nat (length audio_data) mod 2) 0) as [Heven | Hodd].
  - rewrite Heven. simpl. eexists. repeat split.
    rewrite decode_int16_length, Nat.div2_div, Nat2Z.inj_div. reflexivity.
  - destruct (length_removelast_odd audio_data Hodd) as [Heven Hdiv].
    rewrite Heven. simpl. eexists. repeat split.
    rewrite decode_int16_length, Hdiv, Nat.div2_div, Nat2Z.inj_div. reflexivity.
Qed.

(** C8: when the transcription of a turn contains an exit phrase, in any
    ASCII casing, the response is the fixed farewell, given to the speech
    synthesis; the only calls of the turn are the transcription and the
    synthesis, so the encoder, the index and the response generation are
    not reached. *)
Theorem exit_phrase_farewell (w : world) (g : globals) (audio_data : bytes)
  (model : whisper) (samples : list Z) (text phrase pre mid post : str) :
  audio_data <> [] ->
  decode_audio audio_data = Returned samples ->
  whisper_model g = Some model ->
  transcribe model samples = Returned text ->
  In phrase EXIT_PHRASES ->
  strip text = pre ++ mid ++ post ->
  map ascii_lower mid = phrase ->
  exists t_speech wav,
    synthesize_speech g farewell = (t_speech, Returned wav) /\
    Forall (fun ev => exists spoken, ev = PiperSynthesize spoken) t_speech /\
    process_audio w g audio_data
    = (WhisperTranscribe samples :: t_speech,
       (JTurn {| transcription := strip text;
                 response := farewell;
                 audio := hex_or_none wav;
                 end_conversation := true;
                 intent := lit "goodbye";
                 verse_count := 0 |}, 200)).
Proof.
  intros Hbody Hdecode Hmodel Htext Hphrase Hsplit Hmid.
  destruct (synthesize_speech_returns g farewell) as (t_speech & wav & Hspeech & Hevents).
  exists t_speech, wav. split; [exact Hspeech|]. split; [exact Hevents|].
  assert (existsb (fun p => contains p (lower (strip text))) EXIT_PHRASES = true)
    as Hexit.
  { apply existsb_exists. exists phrase. split; [exact Hphrase|].
    assert (forall c, In c mid -> (c < 128)%N) as Hascii.
    { intros c Hc. apply ascii_lower_ascii.
      apply (exit_phrases_ascii phrase _ Hphrase).
      rewrite <- Hmid. apply in_map. exact Hc. }
    destruct (lower_ascii_factor pre mid post Hascii) as (head & tail & E).
    rewrite Hsplit, E, Hmid. apply contains_app. }
  unfold process_audio.
  destruct audio_data as [|b bs]; [contradiction Hbody; reflexivity|].
  cbn [is_empty]. rewrite Hdecode, Hmodel. cbn [bind deref ret call app].
  rewrite Htext. cbn [bind].
  unfold respond. rewrite Hexit. cbn [answer bind ret app].
  rewrite Hspeech. cbn [bind ret]. rewrite app_nil_r. reflexivity.
Qed.

(** C10: a non-empty request body of [n] bytes is decoded without error
    into [floor(n/2)] samples, those of the body without its last byte
    when [n] is odd, and these samples are what the transcriber gets. *)
Theorem odd_body_drops_last_byte (w : world) (g : globals)
  (audio_data : bytes) (model : whisper) :
  audio_data <> [] ->
  whisper_model g = Some model ->
  exists samples rest,
    decode_audio audio_data = Returned samples /\
    samples = decode_int16 (if Z.of_nat (length audio_data) mod 2 =? 0
                            then audio_data else removelast audio_data) /\
    Z.of_nat (length samples) = Z.of_nat (length audio_data) / 2 /\
    fst (process_audio w g audio_data) = WhisperTranscribe samples :: rest.
Proof.
  intros Hbody Hmodel.
  destruct (decode_audio_returns audio_data) as (samples & Hdecode & Hsamples & Hlen).
  exists samples.
  unfold process_audio.
  destruct audio_data as [|b bs]; [contradiction Hbody; reflexivity|].
  cbn [is_empty]. rewrite Hdecode, Hmodel. cbn [bind deref ret call app].
  destruct (transcribe model samples) as [text|e].
  - cbn [bind]. destruct (respond w g text) as [t' [r|e]];
      eexists; repeat split; try assumption; reflexivity.
  - eexists. repeat split; try assumption; reflexivity.
Qed.

End Faiss.

Close Scope Z_scope.

(** ** The statements on a concrete server *)

Open Scope Z_scope.

Section Samples.

#[local] Existing Instance ascii_only.
#[local] Existing Instance fixed_point.

Example transcribe_and_retrieve_sample :
  Server.transcribe_and_retrieve sample_cfg sample_globals sample_audio
  = ([WhisperTranscribe [1; 32767]; Encode sample_query; IndexSearch 3],
     Returned (inr (sample_query, sample_found))).
Proof. vm_compute. reflexivity. Qed.

Lemma generation_failure_apology_witness :
  snd (Server.safe_generate silent_world
         (Server.make_prompt sample_query sample_found 2000))
  = Returned Server.apology /\
  exists t r,
    Server.process_audio sample_cfg silent_world sample_globals sample_audio
    = (t, (Server.JTurn r, 200)) /\
    Server.transcription r = sample_query /\
    Server.response r = Server.apology /\
    Server.response_raw r = Server.apology.
Proof.
  assert (Server._HAS_OLLAMA silent_world = true ->
          raises (Server.ollama_chat silent_world
                    (Server.make_prompt sample_query sample_found 2000)))
    as Hollama by (intros _; eexists; reflexivity).
  assert (raises (Server.text_generation silent_world
                    (Server.make_prompt sample_query sample_found 2000)))
    as Htransformers by (eexists; reflexivity).
  exact (generation_failure_apology sample_cfg silent_world sample_globals
           sample_audio _ sample_query sample_found
           transcribe_and_retrieve_sample Hollama Htransformers).
Defined.

Lemma synthesis_failure_null_audio_witness :
  all_tts_fail silent_world (clean_response_text Server.apology) /\
  snd (Server.generate_tts_audio silent_world
         (clean_response_text Server.apology) (lit "piper"))
  = Returned None /\
  exists t r,
    Server.process_audio sample_cfg silent_world sample_globals sample_audio
    = (t, (Server.JTurn r, 200)) /\
    Server.response r = clean_response_text Server.apology /\
    Server.audio r = None.
Proof.
  assert (all_tts_fail silent_world (clean_response_text Server.apology))
    as Hfail.
  { split; [right; left; reflexivity|].
    split; eexists; reflexivity. }
  split; [exact Hfail|].
  assert (Server.safe_generate silent_world
            (Server.make_prompt sample_query sample_found 2000)
          = ([OllamaChat (Server.make_prompt sample_query sample_found 2000);
              TransformersGenerate
                (Server.make_prompt sample_query sample_found 2000)],
             Returned Server.apology)) as Hgen by reflexivity.
  exact (synthesis_failure_null_audio sample_cfg silent_world sample_globals
           sample_audio _ sample_query sample_found _ Server.apology
           transcribe_and_retrieve_sample Hgen Hfail).
Defined.

(** The hypothesis of C9 matters: [health] looks at Whisper alone.  In
    the state [initialize_models] leaves behind when the verse table is
    missing, Whisper is loaded and the encoder and the index are not; but
    the script has raised by then and never serves this state. *)
Example health_after_failed_startup :
  let g := fst (Server.initialize_models csv_missing Server.no_globals) in
  Server.health g = (Server.JHealth (lit "healthy") true, 200) /\
  Server.embedder g = None /\
  Server.faiss_index g = None /\
  Server.main csv_missing = None.
Proof. simpl. repeat split; reflexivity. Qed.

Lemma health_models_loaded_witness :
  exists flag,
    Server.health sample_globals = (Server.JHealth (lit "healthy") flag, 200) /\
    (flag = true <-> all_models_loaded sample_globals).
Proof.
  assert (serving sample_globals) as Hserving
    by (right; exists all_present; reflexivity).
  exact (health_models_loaded sample_globals Hserving).
Defined.

Example main_all_present : Server.main all_present = Some sample_globals.
Proof. reflexivity. Qed.

(** *** The FAISS server *)

Lemma exit_phrase_farewell_witness :
  exists t_speech wav,
    FaissSemantic.synthesize_speech faiss_globals FaissSemantic.farewell
    = (t_speech, Returned wav) /\
    Forall (fun ev => exists spoken, ev = PiperSynthesize spoken) t_speech /\
    FaissSemantic.process_audio faiss_world faiss_globals odd_audio
    = (WhisperTranscribe [1] :: t_speech,
       (FaissSemantic.JTurn
          {| FaissSemantic.transcription := strip (lit " Okay, THANK you so much. ");
             FaissSemantic.response := FaissSemantic.farewell;
             FaissSemantic.audio := FaissSemantic.hex_or_none wav;
             FaissSemantic.end_conversation := true;
             FaissSemantic.intent := lit "goodbye";
             FaissSemantic.verse_count := 0 |}, 200)).
Proof.
  apply (exit_phrase_farewell faiss_world faiss_globals odd_audio
           faiss_whisper [1] (lit " Okay, THANK you so much. ")
           (lit "thank you") (lit "Okay, ") (lit "THANK you") (lit " so much.")).
  - discriminate.
  - vm_compute. reflexivity.
  - reflexivity.
  - reflexivity.
  - simpl. left. reflexivity.
  - vm_compute. reflexivity.
  - vm_compute. reflexivity.
Defined.

(** The farewell turn, computed: one transcription, one synthesis of the
    farewell without its emoji, and the WAV bytes in hexadecimal. *)
Example exit_turn_sample :
  FaissSemantic.process_audio faiss_world faiss_globals odd_audio
  = ([WhisperTranscribe [1];
      PiperSynthesize (lit "Thank you for seeking Gita wisdom. May you find peace and fulfillment on your spiritual journey. Om Shanti!")],
     (FaissSemantic.JTurn
        {| FaissSemantic.transcription := lit "Okay, THANK you so much.";
           FaissSemantic.response := FaissSemantic.farewell;
           FaissSemantic.audio := Some (lit "52494646");
           FaissSemantic.end_conversation := true;
           FaissSemantic.intent := lit "goodbye";
           FaissSemantic.verse_count := 0 |}, 200)).
Proof. vm_compute. reflexivity. Qed.

Lemma odd_body_drops_last_byte_witness :
  odd_audio <> [] /\
  exists samples rest,
    FaissSemantic.decode_audio odd_audio = Returned samples /\
    samples = decode_int16 (if Z.of_nat (length odd_audio) mod 2 =? 0
                            then odd_audio else removelast odd_audio) /\
    Z.of_nat (length samples) = Z.of_nat (length odd_audio) / 2 /\
    fst (FaissSemantic.process_audio faiss_world faiss_globals odd_audio)
    = WhisperTranscribe samples :: rest.
Proof.
  assert (odd_audio <> []) as Hbody by discriminate.
  split; [exact Hbody|].
  exact (odd_body_drops_last_byte faiss_world faiss_globals odd_audio
           faiss_whisper Hbody eq_refl).
Defined.

Example decode_odd_audio :
  FaissSemantic.decode_audio odd_audio = Returned [1].
Proof. reflexivity. Qed.

(** The other server rejects the same body: [np.frombuffer] raises on an
    odd length there. *)
Example server_rejects_odd_audio :
  snd (Server.process_audio sample_cfg silent_world sample_globals odd_audio)
  = (Server.JError (lit "Failed to parse int16 audio bytes: buffer size must be a multiple of element size"), 400).
Proof. vm_compute. reflexivity. Qed.

End Samples.

Close Scope Z_scope.

(** * Further properties *)

(** ** What [clean_response_text] does to every text *)

Section CleanAll.

Context `{UnicodeData}.

Lemma rep_star_shrinks p n k : shrinks n k -> shrinks n (fun q s => rep_star p q s k).
Proof.
  intros Hk q s. revert q. induction s as [|x t IH]; intros q e; simpl.
  - apply Hk.
  - destruct (p x); [|apply Hk].
    destruct (rep_star p (Some x) t k) as [e'|] eqn:E; [|apply Hk].
    intros [= <-]. specialize (IH _ _ E). simpl. lia.
Qed.

Lemma rep_shrinks m p n k : shrinks n k -> shrinks (n + m) (fun q s => rep m p q s k).
Proof.
  intros Hk. induction m as [|m IH]; intros q s e; simpl.
  - rewrite Nat.add_0_r. apply (rep_star_shrinks p n k Hk).
  - destruct s as [|x t]; [discriminate|].
    destruct (p x); [|discriminate].
    intros E. specialize (IH _ _ _ E). simpl. lia.
Qed.

Lemma rmatch_shrinks r : forall n k,
  shrinks n k -> shrinks (n + min_len r) (fun q s => rmatch r q s k).
Proof.
  induction r as [ |c|c|p|m p|r IH|r1 IH1 r2 IH2| ]; intros n k Hk q s e; simpl.
  - rewrite Nat.add_0_r. apply Hk.
  - destruct s as [|x t]; [discriminate|].
    destruct (x =? c); [|discriminate].
    intros E. specialize (Hk _ _ _ E). simpl. lia.
  - destruct s as [|x t]; [discriminate|].
    destruct (ci_match c x); [|discriminate].
    intros E. specialize (Hk _ _ _ E). simpl. lia.
  - destruct s as [|x t]; [discriminate|].
    destruct (p x); [|discriminate].
    intros E. specialize (Hk _ _ _ E). simpl. lia.
  - apply (rep_shrinks m p n k Hk).
  - rewrite Nat.add_0_r.
    destruct (rmatch r q s k) as [e'|] eqn:E; [|apply Hk].
    intros [= <-]. specialize (IH n k Hk _ _ _ E). lia.
  - intros E.
    pose proof (IH1 _ _ (IH2 n k Hk) _ _ _ E). lia.
  - rewrite Nat.add_0_r.
    destruct (xorb (word_before q) (word_after s)); [apply Hk | discriminate].
Qed.

Lemma match_at_min_len r prev s rest :
  match_at r prev s = Some rest -> (length rest + min_len r <= length s)%nat.
Proof.
  intros E.
  assert (shrinks 0 accept) as Hacc by (intros q t e [= <-]; lia).
  exact (rmatch_shrinks r 0 accept Hacc _ _ _ E).
Qed.

(** A replacement no longer than the shortest match never lengthens the
    text. *)
Lemma re_sub_length r repl s :
  (1 <= min_len r)%nat -> (length repl <= min_len r)%nat ->
  (length (re_sub r repl s) <= length s)%nat.
Proof.
  intros Hpos Hrepl. unfold re_sub.
  apply (sub_go_cases r repl (fun _ s out => (length out <= length s)%nat)).
  - intros q t E. apply match_at_min_len in E. lia.
  - intros _. simpl. lia.
  - intros q x s' _ IH. simpl. lia.
  - intros q x m rest E IH. apply match_at_min_len in E.
    rewrite length_app. lia.
Qed.

(** A character of the result comes from the text, or from the replacement
    when the text has a character [d] that every match needs. *)
Lemma sub_go_In_needs c d r repl s : needs d r -> forall prev skip,
  In c (sub_go r repl prev s skip) -> In c s \/ (In c repl /\ In d s).
Proof.
  intros Hd. induction s as [|x t IH]; intros prev skip; cbn [sub_go].
  - destruct skip; [|simpl; tauto].
    destruct (match_at r prev []) eqn:E; [|simpl; tauto].
    apply Hd in E. destruct E.
  - destruct skip as [|n].
    + destruct (match_at r prev (x :: t)) as [rest|] eqn:E.
      * apply Hd in E.
        destruct (length (x :: t) - length rest)%nat;
          rewrite in_app_iff; simpl; intros [Hc | Hc]; try tauto.
        -- destruct Hc as [Hc | Hc]; [tauto|].
           destruct (IH _ _ Hc) as [? | [? ?]]; simpl; tauto.
        -- destruct (IH _ _ Hc) as [? | [? ?]]; simpl; tauto.
      * simpl. intros [Hc | Hc]; [tauto|].
        destruct (IH _ _ Hc) as [? | [? ?]]; simpl; tauto.
    + intros Hc. destruct (IH _ _ Hc) as [? | [? ?]]; simpl; tauto.
Qed.

Lemma needs_newline : needs 10 pat_newlines.
Proof.
  intros prev s rest. unfold pat_newlines. rewrite match_at_rep.
  destruct s as [|x t]; [discriminate|]. simpl run. unfold is_newline at 1.
  destruct (N.eqb_spec x 10); [|discriminate].
  intros _. left. auto.
Qed.

Lemma replace_char_length old c s :
  length (replace_char old [c] s) = length s.
Proof.
  unfold replace_char. induction s as [|x t IH]; simpl; [reflexivity|].
  destruct (x =? old); simpl; rewrite IH; reflexivity.
Qed.

Lemma strip_length s : (length (strip s) <= length s)%nat.
Proof.
  destruct (strip_factor s) as (a & b & E).
  rewrite E at 2. rewrite !length_app. lia.
Qed.

Lemma clean_unfold x :
  x <> [] ->
  clean_response_text x
  = strip (re_sub pat_context []
             (strip (re_sub pat_blanks (lit " ")
                       (re_sub pat_newlines [10; 10] (unmarked x))))).
Proof. destruct x; [contradiction | reflexivity]. Qed.

Lemma unmarked_In c x : In c (unmarked x) -> (c = 32 \/ In c x) /\ c <> ch "*".
Proof.
  unfold unmarked. change (lit "*") with [ch "*"]. rewrite replace_single.
  intros Hc. apply replace_char_In in Hc.
  assert (forall r s, In c (re_sub r (lit " ") s) -> c = 32 \/ In c s) as Hsub.
  { intros r s Hs. apply re_sub_In in Hs. destruct Hs as [[<- | []] | Hs]; auto. }
  destruct Hc as [[<- | []] | [Hc Hne]].
  - split; [left; reflexivity | discriminate].
  - split; [|exact Hne].
    repeat (apply Hsub in Hc; destruct Hc as [Hc | Hc]; [left; exact Hc|]).
    right. exact Hc.
Qed.

Lemma unmarked_length x : (length (unmarked x) <= length x)%nat.
Proof.
  unfold unmarked. change (lit "*") with [ch "*"]. rewrite replace_single.
  change (lit " ") with [ch " "]. rewrite replace_char_length.
  repeat (etransitivity; [apply re_sub_length; simpl; lia|]).
  reflexivity.
Qed.

Lemma clean_stripped x : strip (clean_response_text x) = clean_response_text x.
Proof.
  destruct x as [|c0 t]; [reflexivity|].
  rewrite clean_unfold by discriminate. apply strip_idem.
Qed.

(** X10: whatever the raw text, the cleaned text has no asterisk and no
    white space at its ends. *)
Theorem clean_response_text_speech_ready (x : str) :
  ~ In (ch "*") (clean_response_text x) /\
  strip (clean_response_text x) = clean_response_text x.
Proof.
  split; [|apply clean_stripped].
  destruct x as [|c0 t]; [simpl; tauto|].
  rewrite clean_unfold by discriminate.
  intros Hc.
  apply strip_In, re_sub_In in Hc. destruct Hc as [[] | Hc].
  apply strip_In, re_sub_In in Hc. destruct Hc as [[Hc | []] | Hc]; [discriminate|].
  apply re_sub_In in Hc. destruct Hc as [[Hc | [Hc | []]] | Hc]; try discriminate.
  apply unmarked_In in Hc. destruct Hc as [_ Hc]. apply Hc. reflexivity.
Qed.

(** X11: cleaning invents nothing and never lengthens: every character of
    the cleaned text is a character of the raw text or a space, and the
    cleaned text is at most as long as the raw one. *)
Theorem clean_response_text_shrinks (x : str) :
  (forall c, In c (clean_response_text x) -> c = 32 \/ In c x) /\
  (length (clean_response_text x) <= length x)%nat.
Proof.
  destruct x as [|c0 t]; [split; [simpl; tauto | simpl; lia]|].
  rewrite clean_unfold by discriminate. set (x := c0 :: t). split.
  - intros c Hc.
    apply strip_In, re_sub_In in Hc. destruct Hc as [[] | Hc].
    apply strip_In, re_sub_In in Hc. destruct Hc as [[<- | []] | Hc]; [auto|].
    apply (sub_go_In_needs c 10 _ _ _ needs_newline) in Hc.
    destruct Hc as [Hc | [Hc Hnl]].
    + apply unmarked_In in Hc. tauto.
    + destruct Hc as [<- | [<- | []]]; apply unmarked_In in Hnl;
        destruct Hnl as [[Hnl | Hnl] _]; try discriminate; auto.
  - etransitivity; [apply strip_length|].
    etransitivity; [apply re_sub_length; simpl; lia|].
    etransitivity; [apply strip_length|].
    etransitivity; [apply re_sub_length; simpl; lia|].
    etransitivity; [apply re_sub_length; simpl; lia|].
    apply unmarked_length.
Qed.

End CleanAll.

(** ** Citations are removed *)

Section Citations.

Context `{UnicodeData}.

Lemma sub_go_prefix c r repl a rest : begins c r -> ~ In c a -> forall prev,
  sub_go r repl prev (a ++ rest) 0 = a ++ sub_go r repl (after prev a) rest 0.
Proof.
  intros Hr. induction a as [|x a IH]; intros Ha prev; [reflexivity|].
  cbn [app]. rewrite sub_go_nomatch.
  - cbn [after]. f_equal. apply IH. intros Hc. apply Ha. right. exact Hc.
  - destruct (match_at r prev (x :: a ++ rest)) eqn:E; [|reflexivity].
    apply Hr in E. destruct E as [t [= -> _]]. contradiction Ha. left. reflexivity.
Qed.

Lemma sub_go_without c r repl b : begins c r -> ~ In c b -> forall prev,
  sub_go r repl prev b 0 = b.
Proof.
  intros Hr Hb prev. apply sub_go_fixed. intros q a' b' ->.
  destruct (match_at r q b') eqn:E; [|reflexivity].
  apply Hr in E. destruct E as [t ->].
  contradiction Hb. apply in_or_app. right. left. reflexivity.
Qed.

(** One match between two texts free of the first character of [r]. *)
Lemma re_sub_one c r repl a m b :
  begins c r -> ~ In c a -> ~ In c b -> m <> [] ->
  (forall prev, match_at r prev (m ++ b) = Some b) ->
  re_sub r repl (a ++ m ++ b) = a ++ repl ++ b.
Proof.
  intros Hr Ha Hb Hm Hmatch. unfold re_sub.
  rewrite (sub_go_prefix c r repl a _ Hr Ha).
  destruct m as [|x m]; [contradiction|]. cbn [app].
  rewrite sub_go_match by apply Hmatch.
  rewrite (sub_go_without c r repl b Hr Hb). reflexivity.
Qed.

Lemma rep_star_run p ds rest k e :
  (forall c, In c ds -> p c = true) ->
  match rest with [] => True | x :: _ => p x = false end ->
  forall prev, k (after prev ds) rest = Some e ->
  rep_star p prev (ds ++ rest) k = Some e.
Proof.
  intros Hds Hrest. induction ds as [|d ds IH]; intros prev Hk.
  - cbn [app after] in *. destruct rest as [|x t]; simpl; [exact Hk|].
    rewrite Hrest. exact Hk.
  - cbn [app rep_star]. rewrite (Hds d) by (left; reflexivity).
    rewrite IH; [reflexivity | | exact Hk].
    intros c Hc. apply Hds. right. exact Hc.
Qed.

Lemma digit_is_digit c : (48 <= c <= 57)%N -> is_digit c = true.
Proof.
  intros Hc. unfold is_digit.
  destruct (N.ltb_spec c 128); [|lia].
  apply andb_true_iff. split; apply N.leb_le; lia.
Qed.

Lemma digit_not_space c : (48 <= c <= 57)%N -> is_space c = false.
Proof.
  intros Hc. unfold is_space.
  repeat match goal with
         | |- context [(?a <=? ?b)%N] => destruct (N.leb_spec a b); try lia
         | |- context [(?a =? ?b)%N] => destruct (N.eqb_spec a b); try lia
         end; reflexivity.
Qed.

Lemma begins_bracket_id : begins (ch "[") pat_bracket_id.
Proof.
  intros prev s rest. unfold match_at, pat_bracket_id.
  destruct s as [|x t]; [discriminate|]. cbn.
  destruct (N.eqb_spec x 91); [|discriminate]. subst. eauto.
Qed.

Lemma begins_paren_id : begins (ch "(") pat_paren_id.
Proof.
  intros prev s rest. unfold match_at, pat_paren_id.
  destruct s as [|x t]; [discriminate|]. cbn.
  destruct (ci_match 40 x) eqn:E; [|discriminate].
  apply ci_match_exact in E; [|reflexivity]. subst. eauto.
Qed.

Lemma match_bracket_id ds b prev :
  ascii_digits ds ->
  match_at pat_bracket_id prev (lit "[id=" ++ ds ++ lit "]" ++ b) = Some b.
Proof.
  intros [Hne Hds]. destruct ds as [|d ds]; [contradiction|].
  unfold match_at, pat_bracket_id. cbn.
  rewrite (digit_not_space d), (digit_is_digit d) by (apply Hds; left; reflexivity).
  apply rep_star_run.
  - intros c Hc. apply digit_is_digit, Hds. right. exact Hc.
  - reflexivity.
  - reflexivity.
Qed.

Lemma match_paren_id ds b prev :
  ascii_digits ds ->
  match_at pat_paren_id prev (lit "(id=" ++ ds ++ lit ")" ++ b) = Some b.
Proof.
  intros [Hne Hds]. destruct ds as [|d ds]; [contradiction|].
  unfold match_at, pat_paren_id. cbn.
  rewrite (digit_not_space d), (digit_is_digit d) by (apply Hds; left; reflexivity).
  apply rep_star_run.
  - intros c Hc. apply digit_is_digit, Hds. right. exact Hc.
  - reflexivity.
  - reflexivity.
Qed.

Lemma digit_not_sign c : (48 <= c <= 57)%N -> is_sign c = false.
Proof.
  intros Hc. unfold is_sign.
  destruct (N.eqb_spec c 45); [lia|]. destruct (N.eqb_spec c 43); [lia|].
  reflexivity.
Qed.

Lemma match_paren_id_score ds whole frac b prev :
  ascii_digits ds -> ascii_digits whole -> ascii_digits frac ->
  match_at pat_paren_id prev
    (lit "(id=" ++ ds ++ lit ", score=" ++ whole ++ lit "." ++ frac
       ++ lit ")" ++ b)
  = Some b.
Proof.
  intros [Hne Hds] [Hne1 Hwhole] [Hne2 Hfrac].
  destruct ds as [|d ds]; [contradiction|].
  destruct whole as [|d1 whole]; [contradiction|].
  destruct frac as [|d2 frac]; [contradiction|].
  unfold match_at, pat_paren_id. cbn.
  rewrite (digit_not_space d), (digit_is_digit d) by (apply Hds; left; reflexivity).
  apply rep_star_run.
  - intros c Hc. apply digit_is_digit, Hds. right. exact Hc.
  - reflexivity.
  - cbn.
    rewrite (digit_not_space d1), (digit_not_sign d1), (digit_is_digit d1)
      by (apply Hwhole; left; reflexivity).
    rewrite (rep_star_run is_digit whole _ _ b); [reflexivity | | reflexivity |].
    + intros c Hc. apply digit_is_digit, Hwhole. right. exact Hc.
    + cbn. rewrite (digit_is_digit d2) by (apply Hfrac; left; reflexivity).
      rewrite (rep_star_run is_digit frac _ _ b); [reflexivity | | reflexivity |].
      * intros c Hc. apply digit_is_digit, Hfrac. right. exact Hc.
      * reflexivity.
Qed.

Lemma digits_without c ds : ascii_digits ds -> (c < 48 \/ 57 < c)%N -> ~ In c ds.
Proof. intros [_ Hds] Hc Hin. apply Hds in Hin. lia. Qed.

(** X12: a citation in one of the forms [[id=N]], [(id=N)] and
    [(id=N, score=W.F)], between two texts without opening bracket and
    opening parenthesis, is cleaned like a single space. *)
Theorem clean_response_text_removes_citation (a b ds whole frac : str) :
  ~ In (ch "[") a -> ~ In (ch "(") a ->
  ~ In (ch "[") b -> ~ In (ch "(") b ->
  ascii_digits ds -> ascii_digits whole -> ascii_digits frac ->
  let cleaned := clean_response_text (a ++ lit " " ++ b) in
  clean_response_text (a ++ (lit "[id=" ++ ds ++ lit "]") ++ b) = cleaned /\
  clean_response_text (a ++ (lit "(id=" ++ ds ++ lit ")") ++ b) = cleaned /\
  clean_response_text
    (a ++ (lit "(id=" ++ ds ++ lit ", score=" ++ whole ++ lit "." ++ frac
             ++ lit ")") ++ b) = cleaned.
Proof.
  intros Hab Hap Hbb Hbp Hds Hwhole Hfrac cleaned.
  assert (forall c, c = ch "[" \/ c = ch "(" -> ~ In c a -> ~ In c b ->
                    ~ In c (a ++ lit " " ++ b)) as Hplainside.
  { intros c Hc Ha Hb Hin. rewrite !in_app_iff in Hin.
    destruct Hin as [Hin | [[Hin | []] | Hin]]; try tauto.
    destruct Hc; subst c; discriminate. }
  assert (cleaned
          = strip (re_sub pat_context []
              (strip (re_sub pat_blanks (lit " ")
                 (re_sub pat_newlines [10; 10]
                   (replace (lit "*") (lit " ")
                     (re_sub pat_empty_parens (lit " ")
                       (re_sub pat_empty_brackets (lit " ")
                         (re_sub pat_bare_id (lit " ") (a ++ lit " " ++ b)))))))))) as ->.
  { unfold cleaned. rewrite clean_unfold by (destruct a; discriminate).
    unfold unmarked.
    rewrite (re_sub_needs _ _ _ _ needs_bracket_id) by (apply Hplainside; auto).
    rewrite (re_sub_needs _ _ _ _ needs_paren_id) by (apply Hplainside; auto).
    reflexivity. }
  assert (forall cite, ~ In (ch "[") cite -> ~ In (ch "[") (a ++ cite ++ b)) as Hnob.
  { intros cite Hc Hin. rewrite !in_app_iff in Hin. tauto. }
  repeat split.
  - rewrite clean_unfold by (destruct a; discriminate). unfold unmarked.
    rewrite (re_sub_one (ch "[") pat_bracket_id (lit " ") a _ b
               begins_bracket_id Hab Hbb) by
      (try discriminate; intros prev; rewrite <- !app_assoc;
       apply match_bracket_id; exact Hds).
    rewrite (re_sub_needs _ _ _ _ needs_paren_id) by (apply Hplainside; auto).
    reflexivity.
  - rewrite clean_unfold by (destruct a; discriminate). unfold unmarked.
    rewrite (re_sub_needs _ _ _ _ needs_bracket_id).
    2:{ apply Hnob. rewrite !in_app_iff. intros [Hc | [Hc | Hc]].
        - simpl in Hc. intuition discriminate.
        - revert Hc. apply digits_without; [exact Hds | right; reflexivity].
        - simpl in Hc. intuition discriminate. }
    rewrite (re_sub_one (ch "(") pat_paren_id (lit " ") a _ b
               begins_paren_id Hap Hbp) by
      (try discriminate; intros prev; rewrite <- !app_assoc;
       apply match_paren_id; exact Hds).
    reflexivity.
  - rewrite clean_unfold by (destruct a; discriminate). unfold unmarked.
    rewrite (re_sub_needs _ _ _ _ needs_bracket_id).
    2:{ apply Hnob. rewrite !in_app_iff.
        intros [Hc | [Hc | [Hc | [Hc | [Hc | [Hc | Hc]]]]]];
          try (simpl in Hc; intuition discriminate);
          revert Hc; apply digits_without; try assumption; right; reflexivity. }
    rewrite (re_sub_one (ch "(") pat_paren_id (lit " ") a _ b
               begins_paren_id Hap Hbp) by
      (try discriminate; intros prev; rewrite <- !app_assoc;
       apply match_paren_id_score; assumption).
    reflexivity.
Qed.

End Citations.

(** ** Texts with any number of citations *)

Section Cited.

Context `{UnicodeData}.

Lemma plain_app (a b : str) : plain a -> plain b -> plain (a ++ b).
Proof.
  unfold plain. intros (A1 & A2 & A3 & A4) (B1 & B2 & B3 & B4).
  repeat split; intros Hc; apply in_app_iff in Hc; tauto.
Qed.

Lemma plain_space : plain (lit " ").
Proof. unfold plain. vm_compute. intuition discriminate. Qed.

(** A space in front of a mixed text merges into its first plain part. *)
Lemma mixed_space (token : str -> Prop) p y :
  plain p -> mixed token y -> mixed token (p ++ lit " " ++ y).
Proof.
  intros Hp Hy. destruct Hy as [q Hq | q c rest Hq Hc Hrest].
  - apply mixed_plain. auto using plain_app, plain_space.
  - replace (p ++ lit " " ++ q ++ c ++ rest)
      with ((p ++ lit " " ++ q) ++ c ++ rest)
      by (rewrite <- !app_assoc; reflexivity).
    apply mixed_token; auto using plain_app, plain_space.
Qed.

Lemma mixed_none y : mixed (fun _ => False) y -> plain y.
Proof. intros [p Hp | p c rest _ []]. exact Hp. Qed.

(** One pass of [re.sub] over a mixed text: the tokens the pattern matches
    become spaces, the other tokens stay. *)
Lemma sub_go_mixed (c0 : char) (r : regex) (tok keep : str -> Prop) :
  begins c0 r ->
  (forall p, plain p -> ~ In c0 p) ->
  (forall c, keep c -> ~ In c0 c) ->
  (forall c, tok c ->
     c <> [] /\ forall prev b, match_at r prev (c ++ b) = Some b) ->
  forall x, mixed (fun c => tok c \/ keep c) x ->
    exists y,
      mixed keep y /\ (x <> [] -> y <> []) /\
      forall prev, sub_go r (lit " ") prev x 0 = y.
Proof.
  intros Hbegins Hplain Hkeep Htok x Hx.
  induction Hx as [p Hp | p c rest Hp Hc Hrest (y & Hy & Hsome & Hrun)].
  - exists p. split; [apply mixed_plain, Hp|]. split; [auto|].
    intros prev. apply (sub_go_without c0); auto.
  - destruct Hc as [Hc | Hc].
    + destruct (Htok c Hc) as [Hne Hmatch].
      exists (p ++ lit " " ++ y). split; [apply mixed_space; assumption|].
      split; [intros _; destruct p; discriminate|].
      intros prev. rewrite (sub_go_prefix c0 r _ p _ Hbegins (Hplain p Hp)).
      destruct c as [|x0 m]; [contradiction|]. cbn [app].
      rewrite sub_go_match by apply Hmatch. rewrite Hrun. reflexivity.
    + exists (p ++ c ++ y). split; [apply mixed_token; assumption|].
      split.
      { intros Hsome' Hnil. apply app_eq_nil in Hnil. destruct Hnil as [-> Hnil].
        apply app_eq_nil in Hnil. destruct Hnil as [-> ->].
        apply Hsome; [|reflexivity]. intros ->. apply Hsome'. reflexivity. }
      intros prev. rewrite (app_assoc p c rest).
      rewrite (sub_go_prefix c0 r _ (p ++ c) _ Hbegins).
      * rewrite Hrun, <- app_assoc. reflexivity.
      * intros Hin. apply in_app_iff in Hin. destruct Hin as [Hin | Hin].
        -- exact (Hplain p Hp Hin).
        -- exact (Hkeep c Hc Hin).
Qed.

Lemma match_paren_id_number ds score b prev :
  ascii_digits ds -> score_text score ->
  match_at pat_paren_id prev
    (lit "(id=" ++ ds ++ lit ", score=" ++ score ++ lit ")" ++ b)
  = Some b.
Proof.
  intros [Hne Hds] (sign & whole & frac & Hsign & Hwhole & [Hne2 Hfrac] & ->).
  destruct ds as [|d ds]; [contradiction|].
  destruct frac as [|d2 frac]; [contradiction|].
  rewrite <- !app_assoc.
  unfold match_at, pat_paren_id. cbn.
  rewrite (digit_not_space d), (digit_is_digit d) by (apply Hds; left; reflexivity).
  apply rep_star_run.
  - intros c Hc. apply digit_is_digit, Hds. right. exact Hc.
  - reflexivity.
  - destruct Hsign as [-> | [-> | ->]].
    + cbn [app]. destruct whole as [|d1 whole].
      * cbn. rewrite (digit_is_digit d2) by (apply Hfrac; left; reflexivity).
        rewrite (rep_star_run is_digit frac _ _ b); [reflexivity | | reflexivity |].
        -- intros c Hc. apply digit_is_digit, Hfrac. right. exact Hc.
        -- reflexivity.
      * cbn.
        rewrite (digit_not_space d1), (digit_not_sign d1), (digit_is_digit d1)
          by (apply Hwhole; left; reflexivity).
        rewrite (rep_star_run is_digit whole _ _ b); [reflexivity | | reflexivity |].
        -- intros c Hc. apply digit_is_digit, Hwhole. right. exact Hc.
        -- cbn. rewrite (digit_is_digit d2) by (apply Hfrac; left; reflexivity).
           rewrite (rep_star_run is_digit frac _ _ b);
             [reflexivity | | reflexivity |].
           ++ intros c Hc. apply digit_is_digit, Hfrac. right. exact Hc.
           ++ reflexivity.
    + cbn. rewrite (rep_star_run is_digit whole _ _ b); [reflexivity | | reflexivity |].
      * intros c Hc. apply digit_is_digit, Hwhole, Hc.
      * cbn. rewrite (digit_is_digit d2) by (apply Hfrac; left; reflexivity).
        rewrite (rep_star_run is_digit frac _ _ b);
          [reflexivity | | reflexivity |].
        -- intros c Hc. apply digit_is_digit, Hfrac. right. exact Hc.
        -- reflexivity.
    + cbn. rewrite (rep_star_run is_digit whole _ _ b); [reflexivity | | reflexivity |].
      * intros c Hc. apply digit_is_digit, Hwhole, Hc.
      * cbn. rewrite (digit_is_digit d2) by (apply Hfrac; left; reflexivity).
        rewrite (rep_star_run is_digit frac _ _ b);
          [reflexivity | | reflexivity |].
        -- intros c Hc. apply digit_is_digit, Hfrac. right. exact Hc.
        -- reflexivity.
Qed.

Lemma mixed_weaken (token token' : str -> Prop) x :
  (forall c, token c -> token' c) -> mixed token x -> mixed token' x.
Proof.
  intros Hsub Hx. induction Hx as [p Hp | p c rest Hp Hc Hrest IH].
  - apply mixed_plain, Hp.
  - apply mixed_token; auto.
Qed.

Lemma digits_only_without c ds :
  digits_only ds -> (c < 48 \/ 57 < c)%N -> ~ In c ds.
Proof. intros Hds Hc Hin. apply Hds in Hin. lia. Qed.

Lemma paren_citation_no_bracket c : paren_citation c -> ~ In (ch "[") c.
Proof.
  assert (forall ds, ascii_digits ds -> ~ In (ch "[") ds) as Hdigits
    by (intros ds Hds; apply digits_without; [exact Hds | right; reflexivity]).
  intros [ds Hds | ds score Hds (sign & whole & frac & Hsign & Hwhole & Hfrac & ->)];
    rewrite !in_app_iff.
  - intros [Hc | [Hc | Hc]]; [| exact (Hdigits ds Hds Hc) |];
      simpl in Hc; intuition discriminate.
  - intros [Hc | [Hc | [Hc | [[Hc | [Hc | [Hc | Hc]]] | Hc]]]];
      try (simpl in Hc; intuition discriminate).
    + exact (Hdigits ds Hds Hc).
    + destruct Hsign as [-> | [-> | ->]]; simpl in Hc; intuition discriminate.
    + revert Hc. apply digits_only_without; [exact Hwhole | right; reflexivity].
    + exact (Hdigits frac Hfrac Hc).
Qed.

Lemma bracket_citation_matches c :
  bracket_citation c ->
  c <> [] /\ forall prev b, match_at pat_bracket_id prev (c ++ b) = Some b.
Proof.
  intros [ds Hds]. split; [discriminate|]. intros prev b.
  rewrite <- !app_assoc. apply match_bracket_id, Hds.
Qed.

Lemma paren_citation_matches c :
  paren_citation c ->
  c <> [] /\ forall prev b, match_at pat_paren_id prev (c ++ b) = Some b.
Proof.
  intros [ds Hds | ds score Hds Hscore]; (split; [discriminate|]);
    intros prev b; rewrite <- !app_assoc.
  - apply match_paren_id, Hds.
  - apply match_paren_id_number; assumption.
Qed.

(** Cleaning a text with citation tokens is cleaning a plain text: the one
    with a space in the place of each token. *)
Lemma clean_cited x :
  cited x ->
  exists y, plain y /\ clean_response_text x = clean_response_text y.
Proof.
  intros Hx.
  assert (forall p, plain p -> ~ In (ch "[") p) as Hnb by (intros p Hp; apply Hp).
  assert (forall p, plain p -> ~ In (ch "(") p) as Hnp by (intros p Hp; apply Hp).
  destruct (sub_go_mixed (ch "[") pat_bracket_id bracket_citation paren_citation
              begins_bracket_id Hnb paren_citation_no_bracket
              bracket_citation_matches x Hx)
    as (y1 & Hy1 & Hsome1 & Hrun1).
  destruct (sub_go_mixed (ch "(") pat_paren_id paren_citation (fun _ => False)
              begins_paren_id Hnp (fun c (Hc : False) => match Hc with end)
              paren_citation_matches y1
              (mixed_weaken _ _ y1 (fun c Hc => or_introl Hc) Hy1))
    as (y2 & Hy2 & Hsome2 & Hrun2).
  apply mixed_none in Hy2. exists y2. split; [exact Hy2|].
  destruct x as [|x0 x'].
  - assert (y1 = []) as -> by (rewrite <- (Hrun1 None); reflexivity).
    assert (y2 = []) as -> by (rewrite <- (Hrun2 None); reflexivity).
    reflexivity.
  - assert (y2 <> []) as Hsome by (apply Hsome2, Hsome1; discriminate).
    rewrite (clean_unfold (x0 :: x')) by discriminate.
    rewrite (clean_unfold y2) by exact Hsome.
    unfold unmarked, re_sub. rewrite (Hrun1 None), (Hrun2 None).
    fold (re_sub pat_bracket_id (lit " ") y2).
    rewrite (re_sub_needs _ _ _ y2 needs_bracket_id) by apply Hy2.
    fold (re_sub pat_paren_id (lit " ") y2).
    rewrite (re_sub_needs _ _ _ y2 needs_paren_id) by apply Hy2.
    reflexivity.
Qed.


End Cited.

(** The raw text of the example of the design document is such a text. *)
Example sample_cited_text_spelled :
  sample_cited_text
  = lit "Action (id=12, score=0.8421) matters. *Do* it. [id=7]".
Proof. reflexivity. Qed.


(** ** More on the retriever and the prompt *)

Open Scope Z_scope.

Section RetrieverMore.

Context `{Numerics}.

Import Server.

Lemma retrieve_loop_filter (corpus : list str) (pairs : list (Z * float)) :
  forall results,
    retrieve_loop pairs (Some corpus) results
    = ([], Returned (results ++ map (with_text corpus)
                                  (filter (inside corpus) pairs))).
Proof.
  induction pairs as [|[idx score] rest IH]; intros results.
  - simpl. rewrite app_nil_r. reflexivity.
  - cbn [retrieve_loop filter]. unfold inside at 1. cbn [fst].
    destruct (Z.leb_spec 0 idx) as [Hlo | Hlo]; cbn [andb].
    + cbn [deref bind ret].
      destruct (Z.ltb_spec idx (Z.of_nat (length corpus))) as [Hhi | Hhi].
      * rewrite IH. cbn [map app]. rewrite <- app_assoc. reflexivity.
      * rewrite IH. reflexivity.
    + apply IH.
Qed.

(** X6: on a query that is not blank, with an encoder and an index that
    return, [retrieve] calls each once and returns exactly the search
    positions that lie inside the corpus, in the order of the search, each
    with its score and the corpus text at that position. *)
Theorem retrieve_filters_search
  (query : str) (index : vector_index) (corpus : list str)
  (embedder_local : encoder) (top_k : Z) q_emb distances indices :
  strip query <> [] ->
  embedder_local query = Returned q_emb ->
  index (normalize_L2 q_emb) top_k = Returned (distances, indices) ->
  retrieve query (Some index) (Some corpus) (Some embedder_local) top_k
  = ([Encode query; IndexSearch top_k],
     Returned (map (with_text corpus)
                 (filter (inside corpus) (combine indices distances)))).
Proof.
  intros Hquery Henc Hsearch. unfold retrieve.
  destruct query as [|c query']; [contradiction Hquery; reflexivity|].
  set (query := c :: query') in *.
  destruct (strip query) eqn:Hstrip; [contradiction Hquery; reflexivity|].
  cbn [is_empty orb deref bind ret call]. rewrite Henc. cbn [bind call].
  rewrite Hsearch, retrieve_loop_filter. reflexivity.
Qed.

(** A failing encoder ends [retrieve] before the index is searched. *)
Lemma retrieve_encoder_raises
  (query : str) (index : option vector_index) (texts_list : option (list str))
  (embedder_local : encoder) (top_k : Z) e :
  strip query <> [] ->
  embedder_local query = Raised e ->
  retrieve query index texts_list (Some embedder_local) top_k
  = ([Encode query], Raised e).
Proof.
  intros Hquery Henc. unfold retrieve.
  destruct query as [|c query']; [contradiction Hquery; reflexivity|].
  set (query := c :: query') in *.
  destruct (strip query) eqn:Hstrip; [contradiction Hquery; reflexivity|].
  cbn [is_empty orb deref bind ret call]. rewrite Henc. reflexivity.
Qed.

End RetrieverMore.

Section PromptMore.

Context `{Numerics}.

Import Server.

Lemma sum_len_nonneg (parts : list str) : 0 <= sum_len parts.
Proof. induction parts as [|p ps IH]; simpl; unfold len; lia. Qed.

Lemma sum_len_app (a b : list str) : sum_len (a ++ b) = sum_len a + sum_len b.
Proof. induction a as [|p ps IH]; simpl; lia. Qed.

Lemma context_loop_monotone retrieved small large :
  small <= large ->
  forall total_len context_parts,
  exists more,
    context_loop retrieved large total_len context_parts
    = context_loop retrieved small total_len context_parts ++ more.
Proof.
  intros Hle. induction retrieved as [|p rest IH]; intros total_len context_parts.
  - exists []. simpl. rewrite app_nil_r. reflexivity.
  - cbn [context_loop].
    destruct (Z.gtb_spec (total_len + len (format_entry p)) small) as [Hs | Hs].
    + destruct (context_loop_spec (p :: rest) large total_len context_parts)
        as (included & _ & _ & Hloop & _).
      exists included. exact Hloop.
    + destruct (Z.gtb_spec (total_len + len (format_entry p)) large); [lia|].
      apply IH.
Qed.

(** X7: a larger budget never drops an entry: the entries in the prompt
    for a budget are a prefix of the entries in the prompt for any larger
    budget. *)
Theorem make_prompt_budget_monotone
  (query : str) (retrieved : list passage) (small large : Z) :
  small <= large ->
  exists entries more,
    make_prompt query retrieved small = prompt_of query entries /\
    make_prompt query retrieved large = prompt_of query (entries ++ more).
Proof.
  intros Hle.
  destruct (context_loop_monotone retrieved small large Hle 0 []) as [more Hmore].
  exists (context_loop retrieved small 0 []), more.
  unfold make_prompt, prompt_of. rewrite Hmore. split; reflexivity.
Qed.

Lemma context_loop_all_fit retrieved max_context_chars :
  forall total_len context_parts,
    total_len + sum_len (map format_entry retrieved) <= max_context_chars ->
    context_loop retrieved max_context_chars total_len context_parts
    = context_parts ++ map format_entry retrieved.
Proof.
  induction retrieved as [|p rest IH]; intros total_len context_parts Hfit.
  - simpl. rewrite app_nil_r. reflexivity.
  - cbn [context_loop map sum_len] in *.
    pose proof (sum_len_nonneg (map format_entry rest)).
    destruct (Z.gtb_spec (total_len + len (format_entry p)) max_context_chars);
      [lia|].
    rewrite IH by lia. rewrite <- app_assoc. reflexivity.
Qed.

(** X8: when the entries of all retrieved passages together fit the
    budget, the CONTEXT block of the prompt holds every one of them, in
    order. *)
Theorem make_prompt_all_fit
  (query : str) (retrieved : list passage) (max_context_chars : Z) :
  sum_len (map format_entry retrieved) <= max_context_chars ->
  make_prompt query retrieved max_context_chars
  = prompt_of query (map format_entry retrieved).
Proof.
  intros Hfit. unfold make_prompt.
  rewrite context_loop_all_fit by lia. reflexivity.
Qed.

Lemma len_app (a b : str) : len (a ++ b) = len a + len b.
Proof. unfold len. rewrite length_app. lia. Qed.

Lemma str_of_int_nonempty (n : Z) : 1 <= len (str_of_int n).
Proof.
  unfold str_of_int, len, lit. rewrite length_map.
  destruct (Z.to_int n) as [d | d]; simpl.
  - destruct d; simpl; lia.
  - lia.
Qed.

Lemma format_entry_len (p : passage) : 20 <= len (format_entry p).
Proof.
  destruct p as [[idx score] txt]. unfold format_entry.
  rewrite !len_app.
  pose proof (str_of_int_nonempty idx).
  assert (forall s : str, 0 <= len s) as Hpos by (intros s; unfold len; lia).
  pose proof (Hpos (format_4f score)). pose proof (Hpos (strip txt)).
  change (len (lit "(id=")) with 4. change (len (lit ", score=")) with 8.
  change (len (lit ")")) with 1. change (len nl) with 1.
  change (len (lit "---")) with 3. lia.
Qed.

Lemma sum_len_entries (included : list str) (retrieved : list passage) :
  (exists excluded, map format_entry retrieved = included ++ excluded) ->
  20 * Z.of_nat (length included) <= sum_len included.
Proof.
  revert retrieved. induction included as [|e es IH]; intros retrieved [excluded Hsplit].
  - simpl. lia.
  - destruct retrieved as [|p rest]; [discriminate|].
    cbn [map app] in Hsplit. injection Hsplit as He Hrest.
    specialize (IH rest (ex_intro _ excluded Hrest)).
    pose proof (format_entry_len p). rewrite He in *.
    cbn [sum_len length]. rewrite Nat2Z.inj_succ. lia.
Qed.

(** X9: the prompt is bounded by the budget: for a budget that is not
    negative, its length is at most that of the instruction and the query
    plus [33 + max_context_chars + max_context_chars / 20], the last term
    for the newlines between entries of at least 20 characters each. *)
Theorem make_prompt_length_bound
  (query : str) (retrieved : list passage) (max_context_chars : Z) :
  0 <= max_context_chars ->
  len (make_prompt query retrieved max_context_chars)
  <= len instruction + len query + 33
     + max_context_chars + max_context_chars / 20.
Proof.
  intros Hbudget.
  destruct (context_loop_spec retrieved max_context_chars 0 [])
    as (included & excluded & Hsplit & Hloop & Hsum' & _).
  assert (sum_len included <= max_context_chars) as Hsum
    by (destruct Hsum' as [-> | Hsum']; simpl; lia).
  unfold make_prompt. rewrite Hloop. cbn [app].
  pose proof (sum_len_entries included retrieved (ex_intro _ excluded Hsplit)) as Hcount.
  assert (len (join nl included) <= max_context_chars + max_context_chars / 20)
    as Hblock.
  { destruct included as [|e es].
    - change (len (join nl [])) with 0.
      pose proof (Z.div_pos max_context_chars 20 Hbudget ltac:(lia)). lia.
    - rewrite join_len by discriminate.
      assert (Z.of_nat (length (e :: es)) <= max_context_chars / 20).
      { apply Z.div_le_lower_bound; lia. }
      lia. }
  rewrite !len_app.
  change (len nl) with 1. change (len (lit "CONTEXT:")) with 8.
  change (len (lit "USER QUERY:")) with 11. change (len (lit "Answer:")) with 7.
  lia.
Qed.

End PromptMore.

Close Scope Z_scope.

(** ** More on the turn of [server.py] *)

Open Scope Z_scope.

Section TurnMore.

Context `{UnicodeData} `{Numerics}.

Import Server.

Lemma generate_and_respond_returns (cfg : config) (w : world)
  (text : str) (retrieved : list passage) :
  exists t r,
    generate_and_respond cfg w text retrieved = (t, Returned (JTurn r, 200)) /\
    transcription r = text /\
    response r = clean_response_text (response_raw r) /\
    formatted_response r
    = lit "=== AI Response ===" ++ nl ++ response r ++ nl ++ nl
        ++ (if is_empty retrieved then lit "(No verses retrieved.)" ++ nl
            else lit "=== Top Source Verse(s) ===" ++ nl
                 ++ flat_map format_source (slice_to (TOP_K cfg) retrieved)) /\
    match audio r with
    | None => True
    | Some digits => exists b bs, digits = hex (b :: bs)
    end.
Proof.
  destruct (safe_generate_returns w (make_prompt text retrieved 2000))
    as (t1 & raw & Hgen).
  destruct (generate_tts_audio_returns w (clean_response_text raw) (lit "piper"))
    as (t2 & wav & Htts).
  unfold generate_and_respond.
  rewrite Hgen. cbn [bind]. rewrite Htts. cbn [catch bind ret].
  eexists _, _. split; [reflexivity|].
  cbn [transcription response response_raw formatted_response audio].
  rewrite clean_stripped. repeat split.
  - destruct retrieved; cbn [is_empty]; rewrite <- ?app_assoc; reflexivity.
  - destruct wav as [[|b bs]|]; [exact I | | exact I]. exists b, bs. reflexivity.
Qed.

(** The ways [transcribe_and_retrieve] ends. *)
Lemma transcribe_and_retrieve_cases (cfg : config) (g : globals)
  (audio_bytes : bytes) :
  let parsed :=
    whisper_model g <> None /\ audio_bytes <> [] /\
    Z.of_nat (length audio_bytes) mod 2 = 0 in
  match transcribe_and_retrieve cfg g audio_bytes with
  | (t, Returned (inl (body, status))) =>
      (exists msg, body = JError msg) /\
      ((status = 503 /\ t = [] /\ whisper_model g = None) \/
       (status = 400 /\ t = [] /\ whisper_model g <> None /\
        (audio_bytes = [] \/ Z.of_nat (length audio_bytes) mod 2 <> 0)) \/
       (status = 500 /\ parsed))
  | (t, Returned (inr (text, retrieved))) => parsed /\ strip text = text
  | (t, Raised e) => parsed
  end.
Proof.
  unfold transcribe_and_retrieve, frombuffer_int16.
  destruct (whisper_model g) as [wm|];
    [|cbn; split; [eexists; reflexivity | auto]].
  destruct audio_bytes as [|b0 bs].
  { cbn. split; [eexists; reflexivity|]. right. left.
    repeat split; auto; discriminate. }
  cbn [is_empty].
  destruct (Z.eqb_spec (Z.of_nat (length (b0 :: bs)) mod 2) 0) as [Heven | Hodd].
  2:{ cbn [ret]. split; [eexists; reflexivity|]. right. left.
      repeat split; auto; discriminate. }
  set (samples := if _ : bool then _ else _).
  assert (Some wm <> None /\ b0 :: bs <> [] /\
          Z.of_nat (length (b0 :: bs)) mod 2 = 0) as Hparsed
    by (repeat split; [discriminate | discriminate | exact Heven]).
  destruct (transcribe_array wm samples) as [raw | e1];
    [|destruct (transcribe_file wm samples) as [raw | e2]];
    cbn [catch call bind ret app].
  3:{ split; [eexists; reflexivity|]. right. right. auto. }
  all: destruct (df g) as [d|]; cbn [deref raise bind ret app]; [|exact Hparsed].
  all: destruct (choose_text_col d) as [t2 [c|e]]; cbn [bind]; [|exact Hparsed].
  all: destruct (retrieve _ _ _ _ _) as [t3 [r|e]]; cbn [bind ret app];
    [|exact Hparsed].
  all: split; [exact Hparsed | apply strip_idem].
Qed.

(** How [process_audio] ends, from how its first stages end. *)
Lemma process_audio_cases (cfg : config) (w : world) (g : globals)
  (audio_bytes : bytes) :
  match transcribe_and_retrieve cfg g audio_bytes with
  | (t, Returned (inl early)) => process_audio cfg w g audio_bytes = (t, early)
  | (t, Returned (inr (text, retrieved))) =>
      exists t' r,
        generate_and_respond cfg w text retrieved
        = (t', Returned (JTurn r, 200)) /\
        process_audio cfg w g audio_bytes = (t ++ t', (JTurn r, 200))
  | (t, Raised e) => process_audio cfg w g audio_bytes = (t, (JError e, 500))
  end.
Proof.
  unfold process_audio.
  destruct (transcribe_and_retrieve cfg g audio_bytes)
    as [t [[early | [text retrieved]] | e]]; cbn [bind ret].
  - rewrite app_nil_r. reflexivity.
  - destruct (generate_and_respond_returns cfg w text retrieved)
      as (t' & r & Hback & _).
    exists t', r. rewrite Hback. auto.
  - reflexivity.
Qed.

(** X1: the status of [POST /process_audio] tells how the turn ended.  It
    is 200, 400, 500 or 503; 503 exactly when Whisper is not loaded,
    whatever the body; 400 exactly when Whisper is loaded and the body is
    empty or of odd length; the body of the response is a turn exactly when
    the status is 200; and with 503 and 400 no model was called. *)
Theorem process_audio_status (cfg : config) (w : world) (g : globals)
  (audio_bytes : bytes) t body status :
  process_audio cfg w g audio_bytes = (t, (body, status)) ->
  (status = 200 \/ status = 400 \/ status = 500 \/ status = 503) /\
  (status = 503 <-> whisper_model g = None) /\
  (status = 400 <->
   whisper_model g <> None /\
   (audio_bytes = [] \/ Z.of_nat (length audio_bytes) mod 2 <> 0)) /\
  (status = 200 <-> exists r, body = JTurn r) /\
  (status = 503 \/ status = 400 -> t = []).
Proof.
  intros Hrun.
  pose proof (transcribe_and_retrieve_cases cfg g audio_bytes) as Hfront.
  pose proof (process_audio_cases cfg w g audio_bytes) as Hturn.
  assert (forall msg, ~ exists r, JError msg = JTurn r) as Herror
    by (intros msg [r Hr]; discriminate).
  destruct (transcribe_and_retrieve cfg g audio_bytes)
    as [t0 [[[body0 status0] | [text retrieved]] | e]]; cbn zeta in Hfront.
  - rewrite Hturn in Hrun. injection Hrun as -> -> ->.
    destruct Hfront as [[msg ->] Hstatus]. specialize (Herror msg).
    destruct Hstatus
      as [(-> & -> & Hwm) | [(-> & -> & Hwm & Hbody) | (-> & Hwm & Hne & Heven)]];
      repeat split; try tauto; try discriminate; try (intros [|]; discriminate).
  - destruct Hturn as (t' & r & _ & Hturn). rewrite Hturn in Hrun.
    injection Hrun as <- <- <-.
    destruct Hfront as [(Hwm & Hne & Heven) _].
    repeat split; try tauto; try discriminate; try (intros [|]; discriminate).
    intros _. exists r. reflexivity.
  - rewrite Hturn in Hrun. injection Hrun as <- <- <-.
    destruct Hfront as (Hwm & Hne & Heven). specialize (Herror e).
    repeat split; try tauto; try discriminate; try (intros [|]; discriminate).
Qed.

(** X3: what every answered turn satisfies: the transcription has no
    white space at its ends, the response is the cleaned raw response, the
    formatted response shows the response after its banner, and the audio
    is null or the hexadecimal form of at least one byte. *)
Theorem process_audio_turn_invariants (cfg : config) (w : world) (g : globals)
  (audio_bytes : bytes) t r status :
  process_audio cfg w g audio_bytes = (t, (JTurn r, status)) ->
  status = 200 /\
  strip (transcription r) = transcription r /\
  response r = clean_response_text (response_raw r) /\
  (exists sources,
      formatted_response r
      = lit "=== AI Response ===" ++ nl ++ response r ++ nl ++ nl ++ sources) /\
  match audio r with
  | None => True
  | Some digits => exists b bs, digits = hex (b :: bs)
  end.
Proof.
  intros Hrun.
  pose proof (transcribe_and_retrieve_cases cfg g audio_bytes) as Hfront.
  pose proof (process_audio_cases cfg w g audio_bytes) as Hturn.
  destruct (transcribe_and_retrieve cfg g audio_bytes)
    as [t0 [[[body0 status0] | [text retrieved]] | e]]; cbn zeta in Hfront.
  - rewrite Hturn in Hrun. destruct Hfront as [[msg ->] _]. discriminate.
  - destruct Hfront as [_ Hstrip].
    destruct (generate_and_respond_returns cfg w text retrieved)
      as (t1 & r1 & Hback & Htext & Hclean & Hformat & Haudio).
    destruct Hturn as (t' & r' & Hback' & Hturn).
    rewrite Hback in Hback'. injection Hback' as <- <-.
    rewrite Hturn in Hrun. injection Hrun as <- <- <-.
    rewrite Htext. repeat split; auto.
    eexists. exact Hformat.
  - rewrite Hturn in Hrun. discriminate.
Qed.

(** X2: when the transcription from the sample array and the one from the
    WAV file both raise, the turn ends with status 500 and a message that
    carries both errors; Whisper was called twice, nothing else was. *)
Theorem process_audio_transcription_fails (cfg : config) (w : world)
  (g : globals) (audio_bytes : bytes) wm e_direct e_file :
  whisper_model g = Some wm ->
  audio_bytes <> [] ->
  Z.of_nat (length audio_bytes) mod 2 = 0 ->
  transcribe_array wm (heard cfg audio_bytes) = Raised e_direct ->
  transcribe_file wm (heard cfg audio_bytes) = Raised e_file ->
  process_audio cfg w g audio_bytes
  = ([WhisperTranscribe (heard cfg audio_bytes);
      WhisperTranscribe (heard cfg audio_bytes)],
     (JError
        (lit "Transcription failed. If this mentions ffmpeg or WinError 2, please install ffmpeg and ensure it is on PATH. Direct error: "
           ++ e_direct ++ lit "; file error: " ++ e_file), 500)).
Proof.
  intros Hwm Hne Heven Hdirect Hfile.
  unfold process_audio, transcribe_and_retrieve, frombuffer_int16.
  rewrite Hwm. destruct audio_bytes as [|b0 bs]; [contradiction|].
  cbn [is_empty]. rewrite Heven. cbn [Z.eqb].
  fold (heard cfg (b0 :: bs)). rewrite Hdirect, Hfile. reflexivity.
Qed.

Lemma raises_returned {A : Type} (a : A) : ~ raises (Returned a).
Proof. intros [e He]. discriminate. Qed.

Lemma raises_raised {A : Type} (e : exn) : raises (@Raised A e).
Proof. exists e. reflexivity. Qed.

Lemma raises_cases {A : Type} (o : outcome A) :
  match o with
  | Returned _ => ~ raises o
  | Raised _ => raises o
  end.
Proof. destruct o; [apply raises_returned | apply raises_raised]. Qed.

(** X4: [safe_generate] never raises.  It asks Ollama only when the
    package is installed and transformers only when Ollama is not
    installed or has raised; the text is the one of the first back end
    that returned, and the apology when none did. *)
Theorem safe_generate_fallback_order (w : world) (prompt : str) :
  exists t raw,
    safe_generate w prompt = (t, Returned raw) /\
    (In (OllamaChat prompt) t <-> _HAS_OLLAMA w = true) /\
    (In (TransformersGenerate prompt) t <->
     _HAS_OLLAMA w = false \/ raises (ollama_chat w prompt)) /\
    (forall ev, In ev t ->
                ev = OllamaChat prompt \/ ev = TransformersGenerate prompt) /\
    (In (TransformersGenerate prompt) t ->
     text_generation w prompt = Returned raw \/
     raises (text_generation w prompt) /\ raw = apology) /\
    (~ In (TransformersGenerate prompt) t ->
     ollama_chat w prompt = Returned raw).
Proof.
  pose proof (raises_cases (ollama_chat w prompt)) as Hollama.
  pose proof (raises_cases (text_generation w prompt)) as Htransformers.
  unfold safe_generate, generate_with_ollama, generate_with_transformers,
    catch, call, ret.
  destruct (_HAS_OLLAMA w), (ollama_chat w prompt) as [x1|e1],
    (text_generation w prompt) as [x2|e2];
    eexists _, _; (split; [reflexivity|]); cbn [In app];
    intuition (subst; auto; discriminate).
Qed.

Lemma piper_skipped_cases (w : world) (text preferred : str) :
  piper_skipped w text preferred <->
  (str_eqb preferred (lit "piper") && _HAS_PIPER w = false
   \/ piper_voice_ready w = false
   \/ match piper_synthesize_wav w text with
      | Returned (_ :: _) => False
      | _ => True
      end).
Proof.
  unfold piper_skipped, piper_fails.
  pose proof (raises_cases (piper_synthesize_wav w text)) as Hpiper.
  destruct (str_eqb preferred (lit "piper")), (_HAS_PIPER w),
    (piper_voice_ready w), (piper_synthesize_wav w text) as [[|b bs]|e];
    cbn [andb]; intuition discriminate.
Qed.

(** X5: [generate_tts_audio] never raises and tries Piper, pyttsx3 and
    SAPI in this order, each at most once and a later one only after the
    earlier ones gave nothing.  Its result is [None] exactly when the Piper
    stage yields no audio and pyttsx3 and SAPI both raise. *)
Theorem generate_tts_audio_first_success (w : world) (text preferred : str) :
  exists t wav,
    generate_tts_audio w text preferred = (t, Returned wav) /\
    (exists piper pyttsx3 sapi : bool,
        t = (if piper then [PiperSynthesize text] else [])
              ++ (if pyttsx3 then [Pyttsx3Save text] else [])
              ++ (if sapi then [SapiSpeak text] else [])) /\
    (In (Pyttsx3Save text) t <-> piper_skipped w text preferred) /\
    (In (SapiSpeak text) t <->
     piper_skipped w text preferred /\ raises (pyttsx3_save_to_file w text)) /\
    (wav = None <->
     piper_skipped w text preferred /\ raises (pyttsx3_save_to_file w text)
     /\ raises (sapi_speak w text)).
Proof.
  pose proof (piper_skipped_cases w text preferred) as Hskip.
  pose proof (raises_cases (pyttsx3_save_to_file w text)) as Hpyttsx3.
  pose proof (raises_cases (sapi_speak w text)) as Hsapi.
  unfold generate_tts_audio, catch, bind, call, ret, raise.
  destruct (str_eqb preferred (lit "piper") && _HAS_PIPER w),
    (piper_voice_ready w), (piper_synthesize_wav w text) as [[|b bs]|e1],
    (pyttsx3_save_to_file w text) as [data|e2],
    (sapi_speak w text) as [spoken|e3];
    cbn [negb is_empty app] in *; eexists _, _; (split; [reflexivity|]);
    (split;
     [first [ exists true, true, true; reflexivity
            | exists true, true, false; reflexivity
            | exists true, false, false; reflexivity
            | exists false, true, true; reflexivity
            | exists false, true, false; reflexivity ]|]);
    cbn [In]; intuition discriminate.
Qed.

End TurnMore.

Close Scope Z_scope.

(** ** The verse table, the start-up and the channels *)

Open Scope Z_scope.

Lemma str_eqb_eq (a b : str) : str_eqb a b = true <-> a = b.
Proof.
  revert b. induction a as [|x a IH]; intros [|y b]; simpl;
    try (split; [discriminate | discriminate]); [tauto|].
  rewrite andb_true_iff, N.eqb_eq, IH. split.
  - intros [-> ->]. reflexivity.
  - intros [= -> ->]. auto.
Qed.

Section StartupMore.

Context `{UnicodeData} `{Numerics}.

Import Server.

(** X13: the text column [process_audio] and [initialize_models] pick is a
    column of the table: ["translation"] when the table has it, else the
    first column of text, else the first column.  The choice fails only on
    a table without columns. *)
Theorem choose_text_col_existing (d : dataframe) :
  match choose_text_col d with
  | (t, Returned c) =>
      t = [] /\ In c (map col_name d) /\
      (In (lit "translation") (map col_name d) -> c = lit "translation") /\
      (~ In (lit "translation") (map col_name d) ->
       forall first rest,
         filter col_is_text d = first :: rest -> c = col_name first) /\
      (~ In (lit "translation") (map col_name d) ->
       filter col_is_text d = [] ->
       forall first rest, d = first :: rest -> c = col_name first)
  | (t, Raised _) => t = [] /\ d = []
  end.
Proof.
  unfold choose_text_col.
  destruct (existsb (str_eqb (lit "translation")) (map col_name d)) eqn:Hhas.
  - apply existsb_exists in Hhas. destruct Hhas as (c & Hin & Heq).
    apply str_eqb_eq in Heq. subst c.
    cbn [ret]. repeat split; auto; intros Hno; contradiction.
  - assert (~ In (lit "translation") (map col_name d)) as Hno.
    { intros Hin.
      assert (existsb (str_eqb (lit "translation")) (map col_name d) = true)
        as Hyes by (apply existsb_exists; eexists; split;
                    [exact Hin | apply str_eqb_eq; reflexivity]).
      congruence. }
    destruct (filter col_is_text d) as [|c cs] eqn:Htext; cbn [map].
    + destruct d as [|c0 d']; cbn [map ret raise]; [auto|].
      repeat split; auto; [left; reflexivity | tauto | discriminate |].
      intros _ _ first rest [= <- _]. reflexivity.
    + cbn [ret]. repeat split; auto; [|tauto | congruence | discriminate].
      apply in_map. apply (proj1 (filter_In col_is_text c d)).
      rewrite Htext. left. reflexivity.
Qed.

(** X14: [initialize_models] loads Whisper, the table, the encoder and the
    index in this order and stops at the first failure, so each global that
    is set has the earlier ones set; the texts are set together with the
    index, exactly when it returns.  An index file that exists is read as it
    is; otherwise the index is built from the texts and the encoder the
    globals hold. *)
Theorem initialize_models_load_order (s : startup) :
  let g := fst (initialize_models s no_globals) in
  (df g <> None -> whisper_model g <> None) /\
  (embedder g <> None -> df g <> None) /\
  (faiss_index g <> None -> embedder g <> None) /\
  (texts g <> None <-> faiss_index g <> None) /\
  (faiss_index g <> None <-> snd (initialize_models s no_globals) = Returned tt) /\
  (forall index, faiss_index g = Some index ->
     if index_file_exists s then read_index s = Returned index
     else exists corpus encode,
         texts g = Some corpus /\ embedder g = Some encode /\
         build_faiss_index s corpus encode = Returned index).
Proof.
  unfold initialize_models.
  destruct (load_whisper s) as [wm|e]; [|cbn; intuition discriminate].
  destruct (load_dataframe s) as [d|e]; [|cbn; intuition discriminate].
  destruct (choose_text_col d) as [t [text_col|e]]; [|cbn; intuition discriminate].
  destruct (load_encoder s) as [enc|e]; [|cbn; intuition discriminate].
  destruct (index_file_exists s).
  - destruct (read_index s) as [index|e]; cbn; [|intuition discriminate].
    repeat split; try discriminate; auto. intros index' [= <-]. reflexivity.
  - destruct (build_faiss_index s _ enc) as [index|e] eqn:Hbuild; cbn;
      [|intuition discriminate].
    repeat split; try discriminate; auto. intros index' [= <-].
    eexists _, _. repeat split. exact Hbuild.
Qed.

Lemma first_channel_length (channels : nat) : (0 < channels)%nat ->
  forall fuel samples k,
    (length samples <= fuel)%nat ->
    length samples = (k * channels)%nat ->
    length (first_channel fuel channels samples) = k.
Proof.
  intros Hpos. induction fuel as [|fuel IH]; intros samples k Hfuel Hlen.
  - destruct samples; [|simpl in Hfuel; lia].
    simpl. simpl in Hlen. destruct k; [reflexivity | simpl in Hlen; lia].
  - destruct samples as [|x rest].
    + simpl. simpl in Hlen. destruct k; [reflexivity | simpl in Hlen; lia].
    + destruct k as [|k]; [discriminate|].
      rewrite Nat.mul_succ_l in Hlen.
      cbn [first_channel]. cbn [length]. f_equal. apply IH.
      * rewrite length_skipn. cbn [length] in *. lia.
      * rewrite length_skipn, Hlen. lia.
Qed.

Lemma first_channel_nth (channels : nat) : (0 < channels)%nat ->
  forall fuel samples i,
    (length samples <= fuel)%nat ->
    (i * channels < length samples)%nat ->
    nth i (first_channel fuel channels samples) 0 = nth (i * channels) samples 0.
Proof.
  intros Hpos. induction fuel as [|fuel IH]; intros samples i Hfuel Hi.
  - destruct samples; cbn [length] in *; lia.
  - destruct samples as [|x rest]; [cbn [length] in Hi; lia|].
    destruct i as [|i]; [reflexivity|].
    change (nth (S i) (first_channel (S fuel) channels (x :: rest)) 0)
      with (nth i (first_channel fuel channels (skipn channels (x :: rest))) 0).
    rewrite Nat.mul_succ_l in *. rewrite IH.
    + rewrite nth_skipn. f_equal. lia.
    + rewrite length_skipn. cbn [length] in *. lia.
    + rewrite length_skipn. lia.
Qed.

Lemma transcribe_and_retrieve_hears (cfg : config) (g : globals)
  (audio_bytes : bytes) wm :
  whisper_model g = Some wm ->
  audio_bytes <> [] ->
  Z.of_nat (length audio_bytes) mod 2 = 0 ->
  exists rest,
    fst (transcribe_and_retrieve cfg g audio_bytes)
    = WhisperTranscribe (heard cfg audio_bytes) :: rest.
Proof.
  intros Hwm Hne Heven. unfold transcribe_and_retrieve, frombuffer_int16.
  rewrite Hwm. destruct audio_bytes as [|b0 bs]; [contradiction|].
  cbn [is_empty]. rewrite Heven. cbn [Z.eqb].
  fold (heard cfg (b0 :: bs)). unfold catch, call.
  destruct (transcribe_array wm _); [|destruct (transcribe_file wm _)];
    cbn [bind ret app];
    try destruct (_ <- deref _ (df g) ;; _) as [t' o'];
    cbn [fst app]; eexists; reflexivity.
Qed.

(** X15: what Whisper hears.  Once the body parses, the first call of a
    turn is the transcription of the samples [heard]: with one channel, or
    with a number of samples that the number of channels does not divide,
    these are all the samples of the body; with [c > 1] channels dividing
    their number, they are the samples at the positions 0, c, 2c, ... *)
Theorem process_audio_hears (cfg : config) (w : world) (g : globals)
  (audio_bytes : bytes) wm :
  whisper_model g = Some wm ->
  audio_bytes <> [] ->
  Z.of_nat (length audio_bytes) mod 2 = 0 ->
  (exists rest,
      fst (process_audio cfg w g audio_bytes)
      = WhisperTranscribe (heard cfg audio_bytes) :: rest) /\
  (CHANNELS cfg <= 1
   \/ Z.of_nat (length (decode_int16 audio_bytes)) mod CHANNELS cfg <> 0 ->
   heard cfg audio_bytes = decode_int16 audio_bytes) /\
  (forall k : nat,
      1 < CHANNELS cfg ->
      length (decode_int16 audio_bytes) = (k * Z.to_nat (CHANNELS cfg))%nat ->
      length (heard cfg audio_bytes) = k /\
      forall i : nat, (i < k)%nat ->
        nth i (heard cfg audio_bytes) 0
        = nth (i * Z.to_nat (CHANNELS cfg)) (decode_int16 audio_bytes) 0).
Proof.
  intros Hwm Hne Heven. split; [|split].
  - destruct (transcribe_and_retrieve_hears cfg g audio_bytes wm Hwm Hne Heven)
      as [rest Hfront].
    pose proof (process_audio_cases cfg w g audio_bytes) as Hturn.
    destruct (transcribe_and_retrieve cfg g audio_bytes)
      as [t [[early | [text retrieved]] | e]]; cbn [fst] in Hfront; subst t.
    + rewrite Hturn. eexists. reflexivity.
    + destruct Hturn as (t' & r & _ & ->). eexists. reflexivity.
    + rewrite Hturn. eexists. reflexivity.
  - unfold heard. cbn zeta. intros [Hone | Hrest].
    + destruct (Z.gtb_spec (CHANNELS cfg) 1); [lia | reflexivity].
    + destruct (Z.eqb_spec (Z.of_nat (length (decode_int16 audio_bytes))
                             mod CHANNELS cfg) 0); [contradiction|].
      rewrite andb_false_r. reflexivity.
  - intros k Hmany Hlen. unfold heard. cbn zeta.
    destruct (Z.gtb_spec (CHANNELS cfg) 1); [|lia].
    assert (Z.of_nat (length (decode_int16 audio_bytes)) mod CHANNELS cfg = 0)
      as Hdiv.
    { rewrite Hlen, Nat2Z.inj_mul, Z2Nat.id by lia. apply Z.mod_mul. lia. }
    rewrite Hdiv. cbn [Z.eqb andb].
    assert (0 < Z.to_nat (CHANNELS cfg))%nat as Hpos by lia.
    split.
    + apply first_channel_length; auto.
    + intros i Hi. apply first_channel_nth; auto. rewrite Hlen.
      apply Nat.mul_lt_mono_pos_r; auto.
Qed.

End StartupMore.

Close Scope Z_scope.

(** ** More on [server_faiss_semantic.py] *)

Open Scope Z_scope.

Lemma replace_go_In c old new s : forall skip,
  In c (replace_go old new s skip) -> In c new \/ In c s.
Proof.
  induction s as [|x t IH]; intros skip; cbn [replace_go]; [tauto|].
  destruct skip as [|n].
  - destruct (starts_with old (x :: t)).
    + rewrite in_app_iff. intros [Hc | Hc]; [tauto|].
      apply IH in Hc. simpl. tauto.
    + intros [<- | Hc]; [simpl; tauto|]. apply IH in Hc. simpl. tauto.
  - intros Hc. apply IH in Hc. simpl. tauto.
Qed.

Lemma removed_absent c s : ~ In c (replace [c] [] s).
Proof.
  rewrite replace_single. intros Hc. apply replace_char_In in Hc.
  destruct Hc as [[] | [_ Hc]]. apply Hc. reflexivity.
Qed.

Lemma removal_In c old s : In c (replace old [] s) -> In c s.
Proof. intros Hc. apply replace_go_In in Hc. destruct Hc as [[] | Hc]. exact Hc. Qed.

Lemma firstn_keeps {A : Type} (n : nat) (x : A) l : In x (firstn n l) -> In x l.
Proof.
  intros Hx. rewrite <- (firstn_skipn n l). apply in_or_app. left. exact Hx.
Qed.

Section FaissMore.

Context `{UnicodeData} `{Numerics}.

Import FaissSemantic.


Lemma bind_fst {A B : Type} (m : M A) (f : A -> M B) :
  fst (bind m f)
  = fst m ++ match snd m with
             | Returned a => fst (f a)
             | Raised _ => []
             end.
Proof.
  destruct m as [t [a|e]]; cbn [bind fst snd].
  - destruct (f a). reflexivity.
  - rewrite app_nil_r. reflexivity.
Qed.

Lemma cell_silent (d : dataframe) (idx : Z) (name : str) :
  fst (cell d idx name) = [].
Proof.
  unfold cell. destruct (_ && _); [|reflexivity].
  destruct (find _ d); reflexivity.
Qed.

Lemma verses_loop_silent (data : dataframe) (verse_column : str) pairs :
  forall i results, fst (verses_loop data verse_column pairs i results) = [].
Proof.
  induction pairs as [|[sim idx] rest IH]; intros i results; [reflexivity|].
  cbn [verses_loop]. destruct (idx <? n_rows data); [|apply IH].
  rewrite bind_fst, cell_silent. cbn [app].
  destruct (snd (cell data idx verse_column)); [|reflexivity].
  rewrite bind_fst.
  assert (forall m : M str, fst m = [] ->
            fst m ++ match snd m with
                     | Returned a0 =>
                         fst (verses_loop data verse_column rest (i + 1)
                                (results ++ [ {| verse := a; similarity := sim;
                                                 chapter_info := a0;
                                                 rank := i + 1 |} ]))
                     | Raised _ => []
                     end = []) as Hinfo.
  { intros m ->. destruct (snd m); [apply IH | reflexivity]. }
  apply Hinfo.
  destruct (_ && _); [|reflexivity].
  rewrite bind_fst, cell_silent. cbn [app].
  destruct (snd (cell data idx (lit "chapter_number"))); [|reflexivity].
  rewrite bind_fst, cell_silent. cbn [app].
  destruct (snd (cell data idx (lit "chapter_verse"))); reflexivity.
Qed.

Lemma find_relevant_verses_returns (w : world) (g : globals)
  (query : str) (top_k : Z) :
  exists t results, find_relevant_verses w g query top_k = (t, Returned results).
Proof.
  unfold find_relevant_verses.
  destruct (faiss_index g) as [index|], (sentence_model g) as [model|],
    (gita_data g) as [data|];
    try (eexists _, _; reflexivity).
  match goal with |- context [catch ?m _] => destruct m as [t0 [results|e]] end;
    eexists _, _; reflexivity.
Qed.

Lemma find_relevant_verses_search (w : world) (g : globals) (query : str)
  (top_k : Z) index model data :
  faiss_index g = Some index ->
  sentence_model g = Some model ->
  gita_data g = Some data ->
  find_relevant_verses w g query top_k
  = catch (search_verses index model data query top_k)
      (fun _ => get_fallback_verses w query).
Proof.
  intros Hindex Hmodel Hdata. unfold find_relevant_verses.
  rewrite Hindex, Hmodel, Hdata. reflexivity.
Qed.

Lemma search_verses_trace index model data (query : str) (top_k : Z) ev :
  In ev (fst (search_verses index model data query top_k)) ->
  ev = Encode query \/ ev = IndexSearch top_k.
Proof.
  unfold search_verses. rewrite bind_fst. cbn [call fst snd app].
  intros [<- | Hev]; [auto|].
  destruct (model query) as [q_emb|e]; [|destruct Hev].
  rewrite bind_fst in Hev. cbn [call fst snd app] in Hev.
  destruct Hev as [<- | Hev]; [auto|].
  destruct (index (normalize_L2 q_emb) top_k) as [[similarities indices]|e];
    [|destruct Hev].
  rewrite bind_fst in Hev.
  destruct (has_column data (lit "translation")); cbn [ret fst snd app] in Hev.
  - rewrite verses_loop_silent in Hev. destruct Hev.
  - destruct (rev data); cbn [ret raise fst snd app] in Hev;
      [destruct Hev | rewrite verses_loop_silent in Hev; destruct Hev].
Qed.

Lemma search_verses_raises index model data (query : str) (top_k : Z) :
  raises (model query) \/
  (exists q_emb,
      model query = Returned q_emb /\
      raises (index (normalize_L2 q_emb) top_k)) ->
  raises (snd (search_verses index model data query top_k)).
Proof.
  unfold search_verses, call.
  intros [[e He] | (q_emb & Hq & [e He])].
  - rewrite He. exists e. reflexivity.
  - rewrite Hq. cbn [bind]. rewrite He. exists e. reflexivity.
Qed.

(** X16: [find_relevant_verses] never raises.  When the index, the encoder
    or the table is missing it makes no search and answers with one
    fallback verse.  With all three loaded it answers with the results of
    the search when the search returns, and when the search raises, as it
    does when the encoder or the index raises, with one fallback verse
    after the calls the search made.  [random.choice] is called only for
    such a fallback. *)
Theorem find_relevant_verses_never_raises (w : world) (g : globals)
  (query : str) (top_k : Z) :
  exists t results,
    find_relevant_verses w g query top_k = (t, Returned results) /\
    (faiss_index g = None \/ sentence_model g = None \/ gita_data g = None ->
     t = [RandomChoice] /\ results = [fallback_result w]) /\
    (forall index model data,
        faiss_index g = Some index ->
        sentence_model g = Some model ->
        gita_data g = Some data ->
        match search_verses index model data query top_k with
        | (searched, Returned found) => t = searched /\ results = found
        | (searched, Raised _) =>
            t = searched ++ [RandomChoice] /\ results = [fallback_result w]
        end /\
        (raises (model query) \/
         (exists q_emb,
             model query = Returned q_emb /\
             raises (index (normalize_L2 q_emb) top_k)) ->
         results = [fallback_result w] /\ In RandomChoice t)) /\
    (In RandomChoice t -> results = [fallback_result w]) /\
    (forall ev, In ev t ->
       ev = Encode query \/ ev = IndexSearch top_k \/ ev = RandomChoice).
Proof.
  destruct (faiss_index g) as [index|] eqn:Hindex;
    [destruct (sentence_model g) as [model|] eqn:Hmodel;
     [destruct (gita_data g) as [data|] eqn:Hdata|]|].
  2-4: exists [RandomChoice], [fallback_result w];
    (split; [unfold find_relevant_verses; rewrite ?Hindex, ?Hmodel, ?Hdata;
             reflexivity|]);
    cbn [In]; repeat split; auto; try discriminate;
    intuition (subst; first [discriminate | solve [auto]]).
  rewrite (find_relevant_verses_search w g query top_k index model data
             Hindex Hmodel Hdata).
  pose proof (search_verses_trace index model data query top_k) as Htrace.
  pose proof (search_verses_raises index model data query top_k) as Hraises.
  destruct (search_verses index model data query top_k)
    as [searched [found|e]] eqn:Hsearch; cbn [fst snd] in Htrace, Hraises;
    cbn [catch get_fallback_verses call].
  - exists searched, found. split; [reflexivity|].
    split; [intros [Hc | [Hc | Hc]]; discriminate|].
    split; [|split].
    + intros index' model' data' [= <-] [= <-] [= <-]. rewrite Hsearch.
      split; [auto|]. intros Hfails. apply Hraises in Hfails.
      destruct (raises_returned _ Hfails).
    + intros Hc. apply Htrace in Hc. destruct Hc; discriminate.
    + intros ev Hev. apply Htrace in Hev. tauto.
  - exists (searched ++ [RandomChoice]), [fallback_result w].
    split; [reflexivity|].
    split; [intros [Hc | [Hc | Hc]]; discriminate|].
    split; [|split].
    + intros index' model' data' [= <-] [= <-] [= <-]. rewrite Hsearch.
      split; [auto|]. intros _. split; [reflexivity|].
      apply in_or_app. right. left. reflexivity.
    + reflexivity.
    + intros ev Hev. apply in_app_iff in Hev.
      destruct Hev as [Hev | [<- | []]]; [apply Htrace in Hev; tauto | auto].
Qed.

Lemma find_has_column (d : dataframe) (name : str) col :
  find (fun c => str_eqb (col_name c) name) d = Some col ->
  has_column d name = true.
Proof.
  intros Hfind. apply find_some in Hfind. unfold has_column.
  apply existsb_exists. exists col. exact Hfind.
Qed.

Lemma verses_loop_rows (data : dataframe) (column : column) pairs :
  find (fun c => str_eqb (col_name c) (lit "translation")) data = Some column ->
  has_column data (lit "chapter_number") = false ->
  forall i results,
    Forall (fun hit => - n_rows data <= snd hit) pairs ->
    verses_loop data (lit "translation") pairs i results
    = ([], Returned
             (results
              ++ map (verse_at (col_values column) (n_rows data))
                   (filter (fun hit => snd (snd hit) <? n_rows data)
                      (enumerate i pairs)))).
Proof.
  intros Hfind Hplain.
  induction pairs as [|[sim idx] rest IH]; intros i results Hlow.
  - cbn. rewrite app_nil_r. reflexivity.
  - inversion Hlow as [|hit hits Hidx Hrest]; subst. cbn [snd] in Hidx.
    cbn [verses_loop enumerate filter snd].
    destruct (Z.ltb_spec idx (n_rows data)) as [Hin | Hout]; [|apply IH, Hrest].
    unfold cell at 1.
    assert ((0 <=? (if idx <? 0 then idx + n_rows data else idx))
            && ((if idx <? 0 then idx + n_rows data else idx) <? n_rows data)
            = true) as ->.
    { destruct (Z.ltb_spec idx 0); apply andb_true_iff; split;
        [apply Z.leb_le | apply Z.ltb_lt | apply Z.leb_le | apply Z.ltb_lt]; lia. }
    rewrite Hfind, Hplain. cbn [andb bind ret app].
    rewrite IH by exact Hrest. cbn [app map].
    rewrite <- app_assoc. cbn [app]. do 4 f_equal.
    unfold verse_at. cbn [fst snd]. do 3 f_equal.
    destruct (Z.ltb_spec idx 0).
    + apply Z.mod_unique with (q := -1); lia.
    + symmetry. apply Z.mod_small. lia.
Qed.

(** X17: which verses a search brings.  On a table with a [translation]
    column and no chapter columns, when the encoder and the index return
    and no position lies below minus the number of rows, the results are
    the hits whose position is below the number of rows, in the order of
    the search, ranked by their place in it.  The verse of a hit is the one
    at its position modulo the number of rows: a negative position, like
    the -1 with which the index pads, counts from the end of the table. *)
Theorem find_relevant_verses_rows (w : world) (g : globals) (query : str)
  (top_k : Z) index model data column q_emb similarities indices :
  faiss_index g = Some index ->
  sentence_model g = Some model ->
  gita_data g = Some data ->
  find (fun c => str_eqb (col_name c) (lit "translation")) data = Some column ->
  has_column data (lit "chapter_number") = false ->
  model query = Returned q_emb ->
  index (normalize_L2 q_emb) top_k = Returned (similarities, indices) ->
  Forall (fun idx => - n_rows data <= idx) indices ->
  find_relevant_verses w g query top_k
  = ([Encode query; IndexSearch top_k],
     Returned
       (map (verse_at (col_values column) (n_rows data))
          (filter (fun hit => snd (snd hit) <? n_rows data)
             (enumerate 0 (combine similarities indices))))).
Proof.
  intros Hindex Hmodel Hdata Hfind Hplain Hencode Hsearch Hlow.
  unfold find_relevant_verses. rewrite Hindex, Hmodel, Hdata.
  unfold call. rewrite Hencode. cbn [bind]. rewrite Hsearch.
  rewrite (find_has_column _ _ _ Hfind). cbn [bind ret app].
  rewrite (verses_loop_rows data column _ Hfind Hplain).
  - reflexivity.
  - clear - Hlow. revert similarities.
    induction Hlow as [|idx rest Hidx Hrest IH]; intros [|sim sims];
      cbn [combine]; constructor; auto.
Qed.

Lemma hd_filter_In {A B : Type} (f : A -> B) (keep : A -> bool) (d : B) l :
  In (hd d (map f (filter keep l))) (d :: map f l).
Proof.
  induction l as [|x l IH]; cbn [filter map hd]; [left; reflexivity|].
  destruct (keep x); cbn [map hd In] in *; tauto.
Qed.

Lemma intent_known (query : str) :
  In (fst (understand_question_intent query)) (lit "general" :: map fst intents).
Proof. unfold understand_question_intent. cbn [fst]. apply hd_filter_In. Qed.

Lemma goodbye_no_intent : ~ In (lit "goodbye") (lit "general" :: map fst intents).
Proof. vm_compute. intuition discriminate. Qed.

(** From the transcribed text on, a turn always ends with status 200. *)
Lemma respond_returns (w : world) (g : globals) (text : str) :
  exists t r,
    respond w g text = (t, Returned (JTurn r, 200)) /\
    transcription r = strip text /\
    (end_conversation r = true <-> intent r = lit "goodbye") /\
    (end_conversation r = true -> response r = farewell /\ verse_count r = 0) /\
    (end_conversation r = false ->
     In (intent r) (lit "general" :: map fst intents) /\
     exists guidance,
       response r
       = guidance ++ nl ++ nl ++ random_choice w FOLLOW_UP_PHRASES) /\
    0 <= verse_count r /\
    match audio r with
    | None => True
    | Some digits => exists b bs, digits = hex (b :: bs)
    end.
Proof.
  unfold respond, answer.
  set (leaving := existsb _ EXIT_PHRASES).
  assert (forall wav : option bytes,
             match hex_or_none wav with
             | None => True
             | Some digits => exists b bs, digits = hex (b :: bs)
             end) as Haudio.
  { intros [[|b bs]|]; cbn [hex_or_none]; auto. exists b, bs. reflexivity. }
  destruct leaving.
  - cbn [bind ret].
    destruct (synthesize_speech_returns g farewell) as (t & wav & -> & _).
    cbn [app]. eexists _, _. split; [reflexivity|].
    cbn [transcription end_conversation intent response verse_count audio].
    repeat split; auto; try discriminate; try lia; apply Haudio.
  - pose proof (intent_known (strip text)) as Hintent.
    destruct (understand_question_intent (strip text))
      as [primary_intent all_intents]. cbn [fst] in Hintent.
    destruct (find_relevant_verses_returns w g (strip text) 3)
      as (t1 & verse_results & ->).
    cbn [bind call ret].
    match goal with
    | |- context [synthesize_speech g ?txt] =>
        destruct (synthesize_speech_returns g txt) as (t2 & wav & -> & _)
    end.
    eexists _, _. split; [reflexivity|].
    cbn [transcription end_conversation intent response verse_count audio].
    repeat split; auto; try discriminate; try lia; try apply Haudio.
    + intros ->. exfalso. apply goodbye_no_intent, Hintent.
    + eexists. reflexivity.
Qed.

(** X18: the status of [POST /process_audio] of the FAISS server is 200,
    400 or 500: 400 exactly for an empty body, 500 exactly when the body is
    not empty and Whisper is not loaded or raises, and 200 with a turn
    otherwise.  Without Whisper no model is called. *)
Theorem faiss_process_audio_status (w : world) (g : globals)
  (audio_data : bytes) t body status :
  process_audio w g audio_data = (t, (body, status)) ->
  (status = 200 \/ status = 400 \/ status = 500) /\
  (status = 400 <-> audio_data = []) /\
  (status = 500 <->
   audio_data <> [] /\
   match whisper_model g with
   | None => True
   | Some model =>
       forall samples,
         decode_audio audio_data = Returned samples ->
         raises (transcribe model samples)
   end) /\
  (status = 200 <-> exists r, body = JTurn r) /\
  (whisper_model g = None -> t = []).
Proof.
  unfold process_audio.
  destruct audio_data as [|b0 bs].
  { cbn. intros [= <- <- <-]. repeat split; auto; try discriminate; try tauto.
    - intros [r Hr]. discriminate. }
  cbn [is_empty].
  destruct (decode_audio_returns (b0 :: bs)) as (samples & Hdecode & _).
  rewrite Hdecode. cbn [bind app].
  destruct (whisper_model g) as [model|].
  - cbn [deref bind ret call app].
    destruct (transcribe model samples) as [text|e] eqn:Hheard.
    + destruct (respond_returns w g text) as (t' & r & -> & _).
      intros [= <- <- <-].
      repeat split; auto; try discriminate; try tauto.
      * intros [_ Hall]. specialize (Hall samples eq_refl).
        rewrite Hheard in Hall. destruct (raises_returned _ Hall).
      * intros _. exists r. reflexivity.
    + intros [= <- <- <-].
      repeat split; auto; try discriminate; try tauto.
      * intros samples' [= <-]. rewrite Hheard. apply raises_raised.
      * intros [r Hr]. discriminate.
  - cbn. intros [= <- <- <-].
    repeat split; auto; try discriminate; try tauto. intros [r Hr]. discriminate.
Qed.

(** X19: what every answered turn of the FAISS server satisfies: the
    transcription has no white space at its ends; [end_conversation] is
    true exactly when the intent is [goodbye], and then the response is the
    farewell and no verse is counted; otherwise the intent is [general] or
    one of the ten known intents and the response ends with a follow-up
    question; the audio is null or the hexadecimal form of at least one
    byte. *)
Theorem faiss_turn_invariants (w : world) (g : globals)
  (audio_data : bytes) t r status :
  process_audio w g audio_data = (t, (JTurn r, status)) ->
  status = 200 /\
  strip (transcription r) = transcription r /\
  (end_conversation r = true <-> intent r = lit "goodbye") /\
  (end_conversation r = true -> response r = farewell /\ verse_count r = 0) /\
  (end_conversation r = false ->
   In (intent r) (lit "general" :: map fst intents) /\
   exists guidance,
     response r = guidance ++ nl ++ nl ++ random_choice w FOLLOW_UP_PHRASES) /\
  0 <= verse_count r /\
  match audio r with
  | None => True
  | Some digits => exists b bs, digits = hex (b :: bs)
  end.
Proof.
  unfold process_audio.
  destruct audio_data as [|b0 bs]; [cbn; discriminate|].
  cbn [is_empty].
  destruct (decode_audio_returns (b0 :: bs)) as (samples & Hdecode & _).
  rewrite Hdecode. cbn [bind app].
  destruct (whisper_model g) as [model|]; [|cbn; discriminate].
  cbn [deref bind ret call app].
  destruct (transcribe model samples) as [text|e]; [|discriminate].
  destruct (respond_returns w g text)
    as (t' & r' & -> & Htext & Hexit & Hbye & Hask & Hcount & Haudio).
  intros [= _ <- <-]. rewrite Htext.
  repeat split; auto; try apply strip_idem; tauto.
Qed.

(** X20: what the FAISS server gives to Piper.  [synthesize_speech] never
    raises and calls Piper at most once, and only when a voice is loaded.
    The text it speaks has no asterisk and none of the three emoji the code
    removes, at most 1003 characters, only characters of the response or
    the dots of the cut, and, when it was not cut, no white space at its
    ends. *)
Theorem synthesize_speech_spoken (g : globals) (text : str) :
  exists wav,
    snd (synthesize_speech g text) = Returned wav /\
    (piper_voice g = None -> synthesize_speech g text = ([], Returned None)) /\
    (length (fst (synthesize_speech g text)) <= 1)%nat /\
    forall ev, In ev (fst (synthesize_speech g text)) ->
      exists spoken,
        ev = PiperSynthesize spoken /\
        len spoken <= 1003 /\
        (len spoken <= 1000 -> strip spoken = spoken) /\
        (forall c, In c spoken ->
                   ~ In c unspoken /\ (c = ch "." \/ In c text)).
Proof.
  unfold synthesize_speech.
  destruct (piper_voice g) as [piper|];
    [|exists None; cbn; repeat split; auto; intros ev []].
  set (bare := strip _).
  assert (forall c, In c bare -> ~ In c unspoken /\ In c text) as Hbare.
  { intros c Hc. unfold bare in Hc. apply strip_In in Hc.
    split.
    - intros [<- | [<- | [<- | [<- | []]]]].
      + apply removal_In, removal_In in Hc. change (lit "*") with [ch "*"] in Hc.
        exact (removed_absent _ _ Hc).
      + apply removal_In, removal_In, removal_In in Hc.
        exact (removed_absent _ _ Hc).
      + apply removal_In in Hc. exact (removed_absent _ _ Hc).
      + exact (removed_absent _ _ Hc).
    - repeat apply removal_In in Hc. exact Hc. }
  set (spoken := if len bare >? 1000 then _ else _).
  assert (len spoken <= 1003 /\
          (len spoken <= 1000 -> strip spoken = spoken) /\
          forall c, In c spoken -> ~ In c unspoken /\ (c = ch "." \/ In c text))
    as Hspoken.
  { unfold spoken. destruct (Z.gtb_spec (len bare) 1000) as [Hlong | Hshort].
    - assert (len (firstn 1000 bare ++ lit "...") = 1003) as Hcut.
      { unfold len in *. rewrite length_app, length_firstn.
        change (length (lit "...")) with 3%nat. lia. }
      split; [lia|]. split; [lia|].
      + intros c Hc. apply in_app_iff in Hc. destruct Hc as [Hc | Hc].
        * apply firstn_keeps, Hbare in Hc. tauto.
        * assert (c = 46%N) as -> by (cbn in Hc; intuition congruence).
          split; [|left; reflexivity]. cbn. intuition discriminate.
    - split; [lia|]. split; [intros _; apply strip_idem|].
      intros c Hc. apply Hbare in Hc. tauto. }
  destruct (piper spoken) as [wav|e];
    cbn [catch bind call ret fst snd app length In];
    eexists; (split; [reflexivity|]); (split; [discriminate|]);
    (split; [lia|]); intros ev [<- | []]; exists spoken; tauto.
Qed.

End FaissMore.

Close Scope Z_scope.

(** ** The clients and the servers together *)

Open Scope Z_scope.

Lemma byte_of_to_N (x : byte) : Client.byte_of_N (Byte.to_N x) = x.
Proof. unfold Client.byte_of_N. rewrite Byte.of_to_N. reflexivity. Qed.

Lemma to_N_byte_of (n : N) : (n < 256)%N -> Byte.to_N (Client.byte_of_N n) = n.
Proof.
  intros Hn. unfold Client.byte_of_N.
  destruct (Byte.of_N n) as [b|] eqn:Hb.
  - apply Byte.to_of_N. exact Hb.
  - apply Byte.of_N_None_iff in Hb. lia.
Qed.

Lemma digit_value_hex_digit (d : N) :
  (d < 16)%N -> Client.digit_value (hex_digit d) = Some d.
Proof.
  intros Hd. unfold hex_digit, Client.digit_value.
  destruct (N.ltb_spec d 10).
  - replace ((48 <=? 48 + d) && (48 + d <=? 57))%N with true
      by (symmetry; apply andb_true_iff; split; apply N.leb_le; lia).
    f_equal. lia.
  - replace ((48 <=? 87 + d) && (87 + d <=? 57))%N with false
      by (symmetry; apply andb_false_iff; right; apply N.leb_gt; lia).
    replace ((97 <=? 87 + d) && (87 + d <=? 102))%N with true
      by (symmetry; apply andb_true_iff; split; apply N.leb_le; lia).
    f_equal. lia.
Qed.

Lemma hex_digit_ascii (d : N) : (d < 16)%N -> (hex_digit d < 128)%N.
Proof. intros Hd. unfold hex_digit. destruct (d <? 10)%N; lia. Qed.

Lemma hex_length (b : bytes) : length (hex b) = (2 * length b)%nat.
Proof. induction b as [|x b IH]; cbn [hex flat_map length app] in *; [|unfold hex in IH; rewrite IH]; lia. Qed.

Lemma hex_ascii (b : bytes) :
  existsb (fun c => (128 <=? c)%N) (hex b) = false.
Proof.
  induction b as [|x b IH]; [reflexivity|].
  pose proof (Byte.to_N_bounded x) as Hx.
  assert (Byte.to_N x / 16 < 16)%N as Hhi
    by (apply N.Div0.div_lt_upper_bound; lia).
  assert (Byte.to_N x mod 16 < 16)%N as Hlo by (apply N.mod_lt; lia).
  change (hex (x :: b))
    with (hex_digit (Byte.to_N x / 16) :: hex_digit (Byte.to_N x mod 16)
            :: hex b).
  cbn [existsb]. rewrite IH.
  pose proof (hex_digit_ascii _ Hhi). pose proof (hex_digit_ascii _ Hlo).
  replace (128 <=? hex_digit (Byte.to_N x / 16))%N with false
    by (symmetry; apply N.leb_gt; assumption).
  replace (128 <=? hex_digit (Byte.to_N x mod 16))%N with false
    by (symmetry; apply N.leb_gt; assumption).
  reflexivity.
Qed.

Lemma unhexlify_pairs_hex (b : bytes) : Client.unhexlify_pairs (hex b) = Returned b.
Proof.
  induction b as [|x b IH]; [reflexivity|].
  pose proof (Byte.to_N_bounded x) as Hx.
  assert (Byte.to_N x / 16 < 16)%N as Hhi
    by (apply N.Div0.div_lt_upper_bound; lia).
  assert (Byte.to_N x mod 16 < 16)%N as Hlo by (apply N.mod_lt; lia).
  change (hex (x :: b))
    with (hex_digit (Byte.to_N x / 16) :: hex_digit (Byte.to_N x mod 16)
            :: hex b).
  cbn [Client.unhexlify_pairs].
  rewrite (digit_value_hex_digit _ Hhi), (digit_value_hex_digit _ Hlo), IH.
  rewrite <- (N.div_mod (Byte.to_N x) 16) by lia.
  rewrite byte_of_to_N. reflexivity.
Qed.

Lemma unhexlify_hex (b : bytes) : Client.unhexlify (hex b) = Returned b.
Proof.
  unfold Client.unhexlify. rewrite hex_ascii, hex_length.
  replace (Z.of_nat (2 * length b) mod 2) with 0.
  - apply unhexlify_pairs_hex.
  - rewrite Nat2Z.inj_mul, Z.mul_comm, Z.mod_mul; lia.
Qed.

Lemma int16_round_trip (sample : Z) :
  -32768 <= sample < 32768 ->
  decode_int16 (Client.int16_bytes sample) = [sample].
Proof.
  intros Hrange. unfold Client.int16_bytes. cbn [decode_int16]. f_equal.
  set (u := Z.to_N (sample mod 65536)).
  assert (0 <= sample mod 65536 < 65536) as Hu by (apply Z.mod_pos_bound; lia).
  assert (u < 65536)%N as Hu' by (unfold u; lia).
  unfold int16_le.
  rewrite !to_N_byte_of
    by (try (apply N.mod_lt; lia); apply N.Div0.div_lt_upper_bound; lia).
  assert (Z.of_N (u mod 256) + 256 * Z.of_N (u / 256) = sample mod 65536) as ->.
  { pose proof (N.div_mod u 256 ltac:(lia)). unfold u in *. lia. }
  destruct (Z.ltb_spec (sample mod 65536) 32768) as [Hlow | Hhigh].
  - destruct (Z.lt_ge_cases sample 0) as [Hneg | Hpos].
    + rewrite <- (Z.mod_add sample 1 65536) in Hlow by lia.
      rewrite Z.mod_small in Hlow by lia. lia.
    + apply Z.mod_small. lia.
  - destruct (Z.lt_ge_cases sample 0) as [Hneg | Hpos].
    + rewrite <- (Z.mod_add sample 1 65536) by lia.
      rewrite Z.mod_small by lia. lia.
    + rewrite Z.mod_small in Hhigh by lia. lia.
Qed.

Lemma decode_int16_tobytes (samples : list Z) :
  Forall (fun sample => -32768 <= sample < 32768) samples ->
  decode_int16 (Client.tobytes samples) = samples.
Proof.
  induction 1 as [|sample rest Hrange Hrest IH]; [reflexivity|].
  pose proof (int16_round_trip sample Hrange) as Hone.
  unfold Client.tobytes in *. cbn [flat_map].
  unfold Client.int16_bytes in *. cbn [app decode_int16] in *.
  injection Hone as ->. rewrite IH. reflexivity.
Qed.

Lemma tobytes_length (samples : list Z) :
  length (Client.tobytes samples) = (2 * length samples)%nat.
Proof.
  induction samples as [|x l IH]; [reflexivity|].
  unfold Client.tobytes in *. cbn [flat_map Client.int16_bytes app length].
  rewrite IH. lia.
Qed.

Section ClientServer.

Context `{UnicodeData} `{Numerics}.

(** X21: what the client records is what the servers transcribe.  The body
    [tobytes] makes of 16-bit samples has an even length, both servers
    decode it to the very samples, and with one channel [server.py] gives
    them unchanged to Whisper; so a recording that is not empty never gets
    the status 400. *)
Theorem recording_round_trip (cfg : Server.config) (w : Server.world)
  (g : Server.globals) (samples : list Z) :
  Forall (fun sample => -32768 <= sample < 32768) samples ->
  samples <> [] ->
  frombuffer_int16 (Client.tobytes samples) = Returned samples /\
  FaissSemantic.decode_audio (Client.tobytes samples) = Returned samples /\
  (Server.CHANNELS cfg = 1 -> heard cfg (Client.tobytes samples) = samples) /\
  snd (snd (Server.process_audio cfg w g (Client.tobytes samples))) <> 400.
Proof.
  intros Hrange Hsome.
  assert (Z.of_nat (length (Client.tobytes samples)) mod 2 = 0) as Heven.
  { rewrite tobytes_length, Nat2Z.inj_mul, Z.mul_comm, Z.mod_mul; lia. }
  assert (Client.tobytes samples <> []) as Hbody.
  { intros Hnil. apply (f_equal (@length byte)) in Hnil.
    rewrite tobytes_length in Hnil. destruct samples; [contradiction|].
    cbn [length] in Hnil. lia. }
  assert (frombuffer_int16 (Client.tobytes samples) = Returned samples) as Hdecode.
  { unfold frombuffer_int16. rewrite Heven. cbn [Z.eqb].
    rewrite (decode_int16_tobytes samples Hrange). reflexivity. }
  repeat split.
  - exact Hdecode.
  - unfold FaissSemantic.decode_audio. rewrite Heven. cbn [Z.eqb]. exact Hdecode.
  - intros Hone. unfold heard. rewrite Hone. cbn [Z.gtb Z.compare andb].
    apply decode_int16_tobytes, Hrange.
  - pose proof (transcribe_and_retrieve_cases cfg g (Client.tobytes samples))
      as Hfront.
    pose proof (process_audio_cases cfg w g (Client.tobytes samples)) as Hturn.
    destruct (Server.transcribe_and_retrieve cfg g (Client.tobytes samples))
      as [t0 [[[body0 status0] | [text retrieved]] | e]]; cbn zeta in Hfront.
    + rewrite Hturn. cbn [snd].
      destruct Hfront as [_ [(-> & _) | [(_ & _ & _ & Hbad) | (-> & _)]]];
        [discriminate | | discriminate].
      destruct Hbad; contradiction.
    + destruct Hturn as (t' & r & _ & ->). discriminate.
    + rewrite Hturn. discriminate.
Qed.

(** X22: the client plays what the server synthesized.  [unhexlify] undoes
    [hex] on every byte string, and for every response of [server.py] the
    client either has no audio to play or writes a WAV file of at least one
    byte, never failing on the hexadecimal text. *)
Theorem client_plays_served_audio :
  (forall b : bytes, Client.unhexlify (hex b) = Returned b) /\
  (forall (cfg : Server.config) (w : Server.world) (g : Server.globals)
          (audio_bytes : bytes),
      let response := snd (Server.process_audio cfg w g audio_bytes) in
      match Client.audio_hex response with
      | None => Client.played response = None
      | Some digits =>
          exists b bs,
            digits = hex (b :: bs) /\ Client.played response = Some (b :: bs)
      end).
Proof.
  split; [exact unhexlify_hex|].
  intros cfg w g audio_bytes response.
  destruct (Client.audio_hex response) as [digits|] eqn:Haudio;
    [|unfold Client.played; rewrite Haudio; reflexivity].
  unfold Client.played. rewrite Haudio.
  unfold Client.audio_hex in Haudio.
  destruct response as [[msg | status flag | r] status_code] eqn:Hresponse;
    destruct (status_code =? 200); try discriminate.
  assert (match Server.audio r with
          | None => True
          | Some digits => exists b bs, digits = hex (b :: bs)
          end) as Hshape.
  { pose proof (transcribe_and_retrieve_cases cfg g audio_bytes) as Hfront.
    pose proof (process_audio_cases cfg w g audio_bytes) as Hturn.
    unfold response in Hresponse.
    destruct (Server.transcribe_and_retrieve cfg g audio_bytes)
      as [t0 [[[body0 status0] | [text retrieved]] | e]]; cbn zeta in Hfront.
    - rewrite Hturn in Hresponse. cbn [snd] in Hresponse.
      destruct Hfront as [[msg Hmsg] _]. congruence.
    - destruct (generate_and_respond_returns cfg w text retrieved)
        as (t1 & r1 & Hback & _ & _ & _ & Hshape).
      destruct Hturn as (t' & r' & Hback' & Hturn).
      rewrite Hback in Hback'. injection Hback' as <- <-.
      rewrite Hturn in Hresponse. cbn [snd] in Hresponse.
      injection Hresponse as <- _. exact Hshape.
    - rewrite Hturn in Hresponse. discriminate. }
  destruct (Server.audio r) as [digits'|]; [|discriminate].
  destruct Hshape as (b & bs & ->).
  destruct (is_empty (hex (b :: bs))); [discriminate|].
  assert (digits = hex (b :: bs)) as -> by congruence.
  exists b, bs. rewrite unhexlify_hex. auto.
Qed.

(** X23: the health check of [client.py] passes exactly when Whisper is
    loaded, and then no turn of [server.py] in this state is refused with
    503; the check of [pi_client_with_audio.py] passes whatever is
    loaded. *)
Theorem health_check_guards_turns (cfg : Server.config) (w : Server.world)
  (g : Server.globals) (audio_bytes : bytes) :
  (Client.check_server_health (Server.health g) = true <->
   Server.whisper_model g <> None) /\
  (Client.check_server_health (Server.health g) = true ->
   snd (snd (Server.process_audio cfg w g audio_bytes)) <> 503) /\
  Client.check_server (Server.health g) = true.
Proof.
  assert (Client.check_server_health (Server.health g) = true <->
          Server.whisper_model g <> None) as Hcheck.
  { unfold Client.check_server_health, Server.health. cbn.
    destruct (Server.whisper_model g); split; auto; try discriminate;
      intros Hc; contradiction. }
  repeat split; try apply Hcheck.
  intros Hok. apply Hcheck in Hok.
  pose proof (transcribe_and_retrieve_cases cfg g audio_bytes) as Hfront.
  pose proof (process_audio_cases cfg w g audio_bytes) as Hturn.
  destruct (Server.transcribe_and_retrieve cfg g audio_bytes)
    as [t0 [[[body0 status0] | [text retrieved]] | e]]; cbn zeta in Hfront.
  - rewrite Hturn. cbn [snd].
    destruct Hfront as [_ [(_ & _ & Hnone) | [(-> & _) | (-> & _)]]];
      [contradiction | discriminate | discriminate].
  - destruct Hturn as (t' & r & _ & ->). discriminate.
  - rewrite Hturn. discriminate.
Qed.

End ClientServer.

Close Scope Z_scope.

(** ** The further statements on concrete servers *)

Open Scope Z_scope.

Section MoreSamples.

#[local] Existing Instance ascii_only.
#[local] Existing Instance fixed_point.

Lemma process_audio_status_witness :
  (400 = 200 \/ 400 = 400 \/ 400 = 500 \/ 400 = 503) /\
  (400 = 503 <-> Server.whisper_model sample_globals = None) /\
  (400 = 400 <->
   Server.whisper_model sample_globals <> None /\
   (odd_audio = [] \/ Z.of_nat (length odd_audio) mod 2 <> 0)) /\
  (400 = 200 <->
   exists r,
     Server.JError (lit "Failed to parse int16 audio bytes: buffer size must be a multiple of element size")
     = Server.JTurn r) /\
  (400 = 503 \/ 400 = 400 -> @nil event = []).
Proof.
  assert (Server.process_audio sample_cfg silent_world sample_globals odd_audio
          = ([], (Server.JError (lit "Failed to parse int16 audio bytes: buffer size must be a multiple of element size"), 400)))
    as Hrun by (vm_compute; reflexivity).
  exact (process_audio_status sample_cfg silent_world sample_globals odd_audio
           _ _ _ Hrun).
Defined.

Lemma process_audio_transcription_fails_witness :
  Server.process_audio sample_cfg silent_world deaf_globals sample_audio
  = ([WhisperTranscribe (heard sample_cfg sample_audio);
      WhisperTranscribe (heard sample_cfg sample_audio)],
     (Server.JError
        (lit "Transcription failed. If this mentions ffmpeg or WinError 2, please install ffmpeg and ensure it is on PATH. Direct error: "
           ++ lit "bad input" ++ lit "; file error: " ++ lit "ffmpeg not found"),
      500)).
Proof.
  assert (sample_audio <> []) as Hbody by discriminate.
  exact (process_audio_transcription_fails sample_cfg silent_world deaf_globals
           sample_audio deaf_whisper (lit "bad input") (lit "ffmpeg not found")
           eq_refl Hbody eq_refl eq_refl eq_refl).
Defined.

Lemma process_audio_turn_invariants_witness :
  200 = 200 /\
  strip (Server.transcription sample_turn) = Server.transcription sample_turn /\
  Server.response sample_turn
  = clean_response_text (Server.response_raw sample_turn) /\
  (exists sources,
      Server.formatted_response sample_turn
      = lit "=== AI Response ===" ++ Server.nl ++ Server.response sample_turn
          ++ Server.nl ++ Server.nl ++ sources) /\
  match Server.audio sample_turn with
  | None => True
  | Some digits => exists b bs, digits = hex (b :: bs)
  end.
Proof.
  assert (Server.process_audio sample_cfg silent_world sample_globals sample_audio
          = (fst (Server.process_audio sample_cfg silent_world sample_globals
                    sample_audio),
             (Server.JTurn sample_turn, 200)))
    as Hrun by (vm_compute; reflexivity).
  exact (process_audio_turn_invariants sample_cfg silent_world sample_globals
           sample_audio _ sample_turn 200 Hrun).
Defined.

Lemma retrieve_filters_search_witness :
  Server.retrieve sample_query (Some sample_index) (Some sample_corpus)
    (Some sample_encoder) 3
  = ([Encode sample_query; IndexSearch 3],
     Returned (map (with_text sample_corpus)
                 (filter (inside sample_corpus)
                    (combine [1; 7; -1] [9000; 4000; -10000])))).
Proof.
  assert (strip sample_query <> []) as Hquery by (vm_compute; discriminate).
  exact (retrieve_filters_search sample_query sample_index sample_corpus
           sample_encoder 3 tt [9000; 4000; -10000] [1; 7; -1]
           Hquery eq_refl eq_refl).
Defined.

Lemma make_prompt_budget_monotone_witness :
  exists entries more,
    Server.make_prompt (lit "What is duty?") sample_retrieved 60
    = prompt_of (lit "What is duty?") entries /\
    Server.make_prompt (lit "What is duty?") sample_retrieved 2000
    = prompt_of (lit "What is duty?") (entries ++ more).
Proof.
  assert (60 <= 2000) as Hle by lia.
  exact (make_prompt_budget_monotone (lit "What is duty?") sample_retrieved
           60 2000 Hle).
Defined.

Lemma make_prompt_all_fit_witness :
  Server.make_prompt (lit "What is duty?") sample_retrieved 2000
  = prompt_of (lit "What is duty?") (map Server.format_entry sample_retrieved).
Proof.
  assert (sum_len (map Server.format_entry sample_retrieved) <= 2000) as Hfit
    by (vm_compute; discriminate).
  exact (make_prompt_all_fit (lit "What is duty?") sample_retrieved 2000 Hfit).
Defined.

Lemma make_prompt_length_bound_witness :
  len (Server.make_prompt (lit "What is duty?") sample_retrieved 60)
  <= len Server.instruction + len (lit "What is duty?") + 33 + 60 + 60 / 20.
Proof.
  assert (0 <= 60) as Hbudget by lia.
  exact (make_prompt_length_bound (lit "What is duty?") sample_retrieved 60
           Hbudget).
Defined.

Lemma clean_response_text_removes_citation_witness :
  let cleaned := clean_response_text (lit "Act " ++ lit " " ++ lit " now.") in
  clean_response_text (lit "Act " ++ (lit "[id=" ++ lit "12" ++ lit "]")
                         ++ lit " now.") = cleaned /\
  clean_response_text (lit "Act " ++ (lit "(id=" ++ lit "12" ++ lit ")")
                         ++ lit " now.") = cleaned /\
  clean_response_text (lit "Act " ++ (lit "(id=" ++ lit "12" ++ lit ", score="
                                        ++ lit "0" ++ lit "." ++ lit "8421"
                                        ++ lit ")")
                         ++ lit " now.") = cleaned.
Proof.
  assert (~ In (ch "[") (lit "Act ")) as Ha1 by (vm_compute; intuition discriminate).
  assert (~ In (ch "(") (lit "Act ")) as Ha2 by (vm_compute; intuition discriminate).
  assert (~ In (ch "[") (lit " now.")) as Hb1 by (vm_compute; intuition discriminate).
  assert (~ In (ch "(") (lit " now.")) as Hb2 by (vm_compute; intuition discriminate).
  assert (forall s : str,
             s <> [] -> forallb (fun c => (48 <=? c) && (c <=? 57))%N s = true ->
             ascii_digits s) as Hdigits.
  { intros s Hs Hall. split; [exact Hs|]. intros c Hc.
    rewrite forallb_forall in Hall. specialize (Hall c Hc).
    apply andb_true_iff in Hall. destruct Hall as [Hlo Hhi].
    apply N.leb_le in Hlo. apply N.leb_le in Hhi. lia. }
  assert (ascii_digits (lit "12")) as Hds
    by (apply Hdigits; [discriminate | reflexivity]).
  assert (ascii_digits (lit "0")) as Hwhole
    by (apply Hdigits; [discriminate | reflexivity]).
  assert (ascii_digits (lit "8421")) as Hfrac
    by (apply Hdigits; [discriminate | reflexivity]).
  exact (clean_response_text_removes_citation (lit "Act ") (lit " now.")
           (lit "12") (lit "0") (lit "8421") Ha1 Ha2 Hb1 Hb2 Hds Hwhole Hfrac).
Defined.

Lemma process_audio_hears_witness :
  (exists rest,
      fst (Server.process_audio stereo_cfg silent_world sample_globals
             stereo_audio)
      = WhisperTranscribe (heard stereo_cfg stereo_audio) :: rest) /\
  (Server.CHANNELS stereo_cfg <= 1
   \/ Z.of_nat (length (decode_int16 stereo_audio))
      mod Server.CHANNELS stereo_cfg <> 0 ->
   heard stereo_cfg stereo_audio = decode_int16 stereo_audio) /\
  (forall k : nat,
      1 < Server.CHANNELS stereo_cfg ->
      length (decode_int16 stereo_audio)
      = (k * Z.to_nat (Server.CHANNELS stereo_cfg))%nat ->
      length (heard stereo_cfg stereo_audio) = k /\
      forall i : nat, (i < k)%nat ->
        nth i (heard stereo_cfg stereo_audio) 0
        = nth (i * Z.to_nat (Server.CHANNELS stereo_cfg))
            (decode_int16 stereo_audio) 0).
Proof.
  assert (stereo_audio <> []) as Hbody by discriminate.
  exact (process_audio_hears stereo_cfg silent_world sample_globals
           stereo_audio sample_whisper eq_refl Hbody eq_refl).
Defined.

(** The stereo body, computed: Whisper hears the left channel. *)
Example heard_stereo : heard stereo_cfg stereo_audio = [1; 3].
Proof. reflexivity. Qed.

Lemma find_relevant_verses_rows_witness :
  FaissSemantic.find_relevant_verses faiss_world faiss_globals sample_query 3
  = ([Encode sample_query; IndexSearch 3],
     Returned
       (map (verse_at sample_corpus (FaissSemantic.n_rows sample_table))
          (filter (fun hit => snd (snd hit) <? FaissSemantic.n_rows sample_table)
             (enumerate 0 (combine [9000; 4000; -10000] [1; 7; -1]))))).
Proof.
  assert (Forall (fun idx => - FaissSemantic.n_rows sample_table <= idx)
            [1; 7; -1]) as Hlow.
  { repeat constructor; vm_compute; discriminate. }
  exact (find_relevant_verses_rows faiss_world faiss_globals sample_query 3
           sample_index sample_encoder sample_table
           {| col_name := lit "translation"; col_is_text := true;
              col_values := sample_corpus |}
           tt [9000; 4000; -10000] [1; 7; -1]
           eq_refl eq_refl eq_refl eq_refl eq_refl eq_refl eq_refl Hlow).
Defined.

(** The search of the sample index, computed: the hit at position 1, no
    result for position 7, and for the padding position -1 the last verse of
    the table, at rank 3. *)
Example find_relevant_verses_sample :
  snd (FaissSemantic.find_relevant_verses faiss_world faiss_globals
         sample_query 3)
  = Returned
      [ {| FaissSemantic.verse := lit "B"; FaissSemantic.similarity := 9000;
           FaissSemantic.chapter_info := []; FaissSemantic.rank := 1 |};
        {| FaissSemantic.verse := lit "C"; FaissSemantic.similarity := -10000;
           FaissSemantic.chapter_info := []; FaissSemantic.rank := 3 |} ].
Proof. vm_compute. reflexivity. Qed.

Lemma faiss_process_audio_status_witness :
  (400 = 200 \/ 400 = 400 \/ 400 = 500) /\
  (400 = 400 <-> @nil byte = []) /\
  (400 = 500 <->
   @nil byte <> [] /\
   match FaissSemantic.whisper_model faiss_globals with
   | None => True
   | Some model =>
       forall samples,
         FaissSemantic.decode_audio [] = Returned samples ->
         raises (FaissSemantic.transcribe model samples)
   end) /\
  (400 = 200 <->
   exists r, FaissSemantic.JError (lit "No audio data") = FaissSemantic.JTurn r) /\
  (FaissSemantic.whisper_model faiss_globals = None -> @nil event = []).
Proof.
  assert (FaissSemantic.process_audio faiss_world faiss_globals []
          = ([], (FaissSemantic.JError (lit "No audio data"), 400)))
    as Hrun by reflexivity.
  exact (faiss_process_audio_status faiss_world faiss_globals [] _ _ _ Hrun).
Defined.

Lemma faiss_turn_invariants_witness :
  let r :=
    {| FaissSemantic.transcription := lit "Okay, THANK you so much.";
       FaissSemantic.response := FaissSemantic.farewell;
       FaissSemantic.audio := Some (lit "52494646");
       FaissSemantic.end_conversation := true;
       FaissSemantic.intent := lit "goodbye";
       FaissSemantic.verse_count := 0 |} in
  200 = 200 /\
  strip (FaissSemantic.transcription r) = FaissSemantic.transcription r /\
  (FaissSemantic.end_conversation r = true <->
   FaissSemantic.intent r = lit "goodbye") /\
  (FaissSemantic.end_conversation r = true ->
   FaissSemantic.response r = FaissSemantic.farewell /\
   FaissSemantic.verse_count r = 0) /\
  (FaissSemantic.end_conversation r = false ->
   In (FaissSemantic.intent r)
     (lit "general" :: map fst FaissSemantic.intents) /\
   exists guidance,
     FaissSemantic.response r
     = guidance ++ FaissSemantic.nl ++ FaissSemantic.nl
         ++ FaissSemantic.random_choice faiss_world
              FaissSemantic.FOLLOW_UP_PHRASES) /\
  0 <= FaissSemantic.verse_count r /\
  match FaissSemantic.audio r with
  | None => True
  | Some digits => exists b bs, digits = hex (b :: bs)
  end.
Proof.
  exact (faiss_turn_invariants faiss_world faiss_globals odd_audio _ _ 200
           exit_turn_sample).
Defined.

Lemma recording_round_trip_witness :
  frombuffer_int16 (Client.tobytes sample_recording) = Returned sample_recording /\
  FaissSemantic.decode_audio (Client.tobytes sample_recording)
  = Returned sample_recording /\
  (Server.CHANNELS sample_cfg = 1 ->
   heard sample_cfg (Client.tobytes sample_recording) = sample_recording) /\
  snd (snd (Server.process_audio sample_cfg silent_world sample_globals
              (Client.tobytes sample_recording))) <> 400.
Proof.
  assert (Forall (fun sample => -32768 <= sample < 32768) sample_recording)
    as Hrange by (repeat constructor; vm_compute; discriminate).
  assert (sample_recording <> []) as Hsome by discriminate.
  exact (recording_round_trip sample_cfg silent_world sample_globals
           sample_recording Hrange Hsome).
Defined.

(** The sample recording on the wire. *)
Example tobytes_sample :
  Client.tobytes sample_recording = [x01; x00; xfe; xff; xff; x7f; x00; x80].
Proof. reflexivity. Qed.

(** [unhexlify] takes both cases of the digits and refuses what is not
    hexadecimal. *)
Example unhexlify_samples :
  Client.unhexlify (lit "52494646") = Returned [x52; x49; x46; x46] /\
  Client.unhexlify (lit "fF0a") = Returned [xff; x0a] /\
  Client.unhexlify (lit "abc") = Raised (lit "Odd-length string") /\
  Client.unhexlify (lit "zz") = Raised (lit "Non-hexadecimal digit found").
Proof. repeat split; reflexivity. Qed.

(** The errors of an access to a global that is still [None], as the
    handlers report them. *)
Example faiss_turn_without_whisper :
  FaissSemantic.process_audio faiss_world faiss_deaf_globals odd_audio
  = ([], (FaissSemantic.JError
            (lit "'NoneType' object has no attribute 'transcribe'"), 500)).
Proof. reflexivity. Qed.

Example turn_without_table :
  Server.process_audio sample_cfg silent_world
    (fst (Server.initialize_models csv_missing Server.no_globals)) sample_audio
  = ([WhisperTranscribe [1; 32767]],
     (Server.JError (lit "'NoneType' object has no attribute 'columns'"), 500)).
Proof. vm_compute. reflexivity. Qed.

Example retrieve_without_texts :
  Server.retrieve sample_query (Some sample_index) None (Some sample_encoder) 3
  = ([Encode sample_query; IndexSearch 3],
     Raised (lit "object of type 'NoneType' has no len()")).
Proof. vm_compute. reflexivity. Qed.

End MoreSamples.

Close Scope Z_scope.
